(** * S3RegexTagger: the batch tagger of [s3-permanent-deletes/main.py]

    A shallow embedding of the class [S3RegexTagger] and of the Python
    and boto3 behaviour its methods rely on, followed by the properties
    of the tagging and discovery phases.  The listing of the lifecycle
    monitor, [supporting_architecture/cloudtrail-monitor.py], and the
    selection of the ids to delete of [clean_rds.py] are embedded after
    the tagger, and their properties end the file.

    Strings are byte strings (the UTF-8 encoding of the Python [str]):
    every character the code inspects (['/'], the regex metacharacters,
    the line feed) is ASCII, and no byte of a multi-byte UTF-8 sequence
    is an ASCII byte, so the byte-level reading agrees with Python's. *)

From Stdlib Require Import ZArith Ascii String List Bool Lia.
From stdpp Require Import base option list strings gmap sets.

Open Scope string_scope.
Open Scope list_scope.

(** ** Exceptions and outcomes *)

(** The two classes of exception the code tells apart:
    [botocore.exceptions.ClientError], which carries
    [e.response['Error']['Code']] and [e.response['Error']['Message']],
    and every other [Exception], of which only [str(e)] is used. *)
Inductive Exception : Type :=
| ClientError (Code Message : string)
| OtherException (text : string).

Inductive Outcome (A : Type) : Type :=
| Return (a : A)
| Raise (e : Exception).
Arguments Return {A} a.
Arguments Raise {A} e.

(** ** The remote object store *)

(** One element of a [TagSet]: [{'Key': ..., 'Value': ...}]. *)
Record Tag : Type := mkTag { Key : string; Value : string }.

(** The response of [get_object_tagging]; the code reads it with
    [response.get('TagSet', [])]. *)
Record TaggingResponse : Type := { TagSet : option (list Tag) }.

(** One step of iterating [paginator.paginate(...)]: a page, whose
    ['Contents'] entry may be absent and otherwise lists object keys
    (the only field of an entry the code reads), or an exception raised
    while the page is requested. *)
Inductive PageEvent : Type :=
| Page (Contents : option (list string))
| PageRaises (e : Exception).

(** The remote calls a run issues, in the order they are issued.
    [ListObjectsV2] stands for one paginated listing of a prefix
    ([paginator.paginate(Bucket=..., Prefix=...)]), whatever number of
    page requests it takes. *)
Inductive Call : Type :=
| GetObjectTagging (Bucket ObjectKey : string)
| PutObjectTagging (Bucket ObjectKey : string) (Tagging : list Tag)
| ListObjectsV2 (Bucket Prefix : string).

(** ** The input table *)

(** A [pandas.DataFrame] as the code uses it: column labels and rows of
    cells.  A cell is [None] for NaN (a missing value) and otherwise holds
    the text [str(value)] of its value. *)
Record DataFrame : Type := {
  columns : list string;
  rows : list (list (option string))
}.

(** ** Log records

    One constructor per [logger] call of the source (and one for the
    [print]), carrying the values interpolated into the message.  The two
    summary lines that depend on the wall clock (elapsed time and rate)
    are not represented. *)
Inductive LogRecord : Type :=
| InfoReadingCsv (csv_file_path : string)
| ErrorReadingCsv (e : Exception)
| ErrorColumnsNotFound (object_prefix object_filename : string)
| InfoAvailableColumns (cols : list string)
| InfoProcessingRows (n : nat)
| InfoUniqueLocations (n : nat)
| InfoPhase1
| PrintLocationData (location : string) (filenames : list string)
| ErrorListing (prefix : string) (e : Exception)
| InfoLocationFound (location : string) (n : nat) (full_pattern : string)
| ErrorProcessingLocation (location : string) (err : Exception)
| InfoPhase1Complete (n : nat)
| WarningNoMatchingObjects
| InfoPhase2
| WarningFailedToTag (object_key message : string)
| InfoTaggingProgress (i n : nat)
| InfoSummary (csv_rows locations matched successful already_tagged failed : nat)
| InfoSample (sample : list string) (more : option nat).

(** ** The environment and the state of a run *)

(** What the outside world decides: the result of reading a CSV path,
    the pages a listing of a prefix yields, and the faults (throttling,
    denied permission, lost connection, ...) that make the tagging calls
    on a key raise instead of answering.  Outcomes are fixed per key and
    per prefix, so they do not depend on the order in which the pool
    runs the tasks.  An environment describes one execution: a property
    of two executions whose faults may differ takes one environment for
    each. *)
Record Env : Type := {
  read_csv : string -> Exception + DataFrame;
  list_pages : string -> list PageEvent;
  get_fault : string -> option Exception;
  put_fault : string -> option Exception
}.

(** The state a run changes: the tag sets of the bucket's objects (the
    only durable effect), the remote calls issued and the log written,
    both oldest first. *)
Record State : Type := mkState {
  objects : gmap string (list Tag);
  calls : list Call;
  log : list LogRecord
}.

(** ** A state and exception monad for the Python control flow *)

Definition M (A : Type) : Type := State -> Outcome A * State.

Definition ret {A} (a : A) : M A := fun s => (Return a, s).

Definition raise {A} (e : Exception) : M A := fun s => (Raise e, s).

Definition bind {A B} (m : M A) (k : A -> M B) : M B :=
  fun s =>
    match m s with
    | (Return a, s') => k a s'
    | (Raise e, s') => (Raise e, s')
    end.

(** [try: body except Exception as e: handler e]; a handler for one class
    only re-raises the others. *)
Definition try_except {A} (body : M A) (handler : Exception -> M A) : M A :=
  fun s =>
    match body s with
    | (Return a, s') => (Return a, s')
    | (Raise e, s') => handler e s'
    end.

Declare Scope py_scope.
Delimit Scope py_scope with py.
Notation "x <- m ;; k" := (bind m (fun x => k))
  (at level 100, m at next level, right associativity) : py_scope.
Notation "m ;;; k" := (bind m (fun _ => k))
  (at level 100, right associativity) : py_scope.
Open Scope py_scope.

Definition logger (r : LogRecord) : M unit :=
  fun s => (Return tt, mkState (objects s) (calls s) (log s ++ [r])).

Definition issue (c : Call) : M unit :=
  fun s => (Return tt, mkState (objects s) (calls s ++ [c]) (log s)).

(** [executor.submit(task)]: the task runs in the pool and its result or
    exception is kept in the future; [future.result()] returns the one
    and re-raises the other.  The pool is modelled by running the tasks
    one after another in submission order. *)
Definition submit {A} (task : M A) : M (Outcome A) :=
  fun s => let (r, s') := task s in (Return r, s').

Definition result {A} (future : Outcome A) : M A :=
  match future with
  | Return a => ret a
  | Raise e => raise e
  end.

(** [with ThreadPoolExecutor(max_workers=n) as executor:] creating the
    pool raises [ValueError] when [n] is not positive. *)
Definition ThreadPoolExecutor (max_workers : Z) : M unit :=
  if (max_workers <=? 0)%Z
  then raise (OtherException "max_workers must be greater than 0")
  else ret tt.

Fixpoint submit_all {A B} (task : A -> M B) (items : list A) : M (list (Outcome B)) :=
  match items with
  | [] => ret []
  | x :: items' =>
      f <- submit (task x) ;;
      fs <- submit_all task items' ;;
      ret (f :: fs)
  end.

(** ** Python strings *)

(** [s.strip('/')]: every leading and every trailing ['/'] is removed. *)
Fixpoint lstrip_slash (s : string) : string :=
  match s with
  | String c s' => if Ascii.eqb c "/" then lstrip_slash s' else s
  | EmptyString => EmptyString
  end.

Fixpoint rstrip_slash (s : string) : string :=
  match s with
  | String c s' =>
      let r := rstrip_slash s' in
      if Ascii.eqb c "/" && String.eqb r "" then "" else String c r
  | EmptyString => EmptyString
  end.

Definition strip_slash (s : string) : string := rstrip_slash (lstrip_slash s).

(** [needle in haystack] on strings *)
Definition contains (needle haystack : string) : bool :=
  match index 0 needle haystack with
  | Some _ => true
  | None => false
  end.

(** ** Python's [re] on the fragment of the syntax the code produces *)

Definition line_feed : ascii := "010"%char.

(** The characters [re.escape] puts a backslash before (Python 3.7 and
    later): [()[]{}?*+-|^$\.&~# \t\n\r\v\f]. *)
Definition re_special (c : ascii) : bool :=
  existsb (Ascii.eqb c) (list_ascii_of_string "()[]{}?*+-|^$\.&~# ")
  || existsb (Ascii.eqb c) ["009"; "010"; "011"; "012"; "013"]%char.

Fixpoint re_escape (s : string) : string :=
  match s with
  | String c s' =>
      if re_special c then String "\" (String c (re_escape s'))
      else String c (re_escape s')
  | EmptyString => EmptyString
  end.

Inductive token : Type :=
| TChar (c : ascii)
| TDot
| TStar
| TBar
| TOpen
| TClose
| TBol
| TEol.

(** ASCII letters and digits: after a backslash they form the class,
    anchor, control and group-reference escapes of [re], none of which
    is in the fragment. *)
Definition ascii_alnum (c : ascii) : bool :=
  let n := nat_of_ascii c in
  ((48 <=? n)%nat && (n <=? 57)%nat) || ((65 <=? n)%nat && (n <=? 90)%nat)
  || ((97 <=? n)%nat && (n <=? 122)%nat).

(** An unescaped character.  Sets, counted and optional repeats and the
    [(?...)] extensions (["["], ["{"], ["+"], ["?"]) are outside the
    fragment: [None]. *)
Definition classify (c : ascii) : option token :=
  if Ascii.eqb c "." then Some TDot
  else if Ascii.eqb c "*" then Some TStar
  else if Ascii.eqb c "|" then Some TBar
  else if Ascii.eqb c "(" then Some TOpen
  else if Ascii.eqb c ")" then Some TClose
  else if Ascii.eqb c "^" then Some TBol
  else if Ascii.eqb c "$" then Some TEol
  else if Ascii.eqb c "[" || Ascii.eqb c "{" || Ascii.eqb c "+" || Ascii.eqb c "?"
  then None
  else Some (TChar c).

(** A backslash followed by a character that is not a letter or digit
    stands for that character. *)
Fixpoint tokenize (p : string) : option (list token) :=
  match p with
  | EmptyString => Some []
  | String c rest =>
      if Ascii.eqb c "\" then
        match rest with
        | String d rest' =>
            if ascii_alnum d then None
            else option_map (cons (TChar d)) (tokenize rest')
        | EmptyString => None
        end
      else
        match classify c with
        | Some t => option_map (cons t) (tokenize rest)
        | None => None
        end
  end.

Inductive regex : Type :=
| Eps
| Chr (c : ascii)
| Dot
| Bol
| Eol
| Seq (r1 r2 : regex)
| Alt (r1 r2 : regex)
| Star (r : regex).

(** The items of one branch, in order. *)
Definition seq_of (items : list regex) : regex := foldr Seq Eps items.

(** The branches [done] (latest first) followed by the branch whose
    items are [cur] (latest first). *)
Definition close_branches (done cur : list regex) : regex :=
  foldr Alt (seq_of (rev cur)) (rev done).

(** [*] after nothing, after an anchor or after another repeat is an
    error of [re.compile]. *)
Definition repeatable (r : regex) : bool :=
  match r with
  | Star _ | Bol | Eol => false
  | _ => true
  end.

(** The parser keeps the finished branches and the items of the current
    branch of the group being read, and those of the enclosing groups
    on a stack. *)
Fixpoint parse (ts : list token) (done cur : list regex)
    (stack : list (list regex * list regex)) : option regex :=
  match ts with
  | [] =>
      match stack with
      | [] => Some (close_branches done cur)
      | _ :: _ => None
      end
  | t :: ts' =>
      match t with
      | TChar c => parse ts' done (Chr c :: cur) stack
      | TDot => parse ts' done (Dot :: cur) stack
      | TBol => parse ts' done (Bol :: cur) stack
      | TEol => parse ts' done (Eol :: cur) stack
      | TStar =>
          match cur with
          | r :: cur' =>
              if repeatable r then parse ts' done (Star r :: cur') stack else None
          | [] => None
          end
      | TBar => parse ts' (seq_of (rev cur) :: done) [] stack
      | TOpen => parse ts' [] [] ((done, cur) :: stack)
      | TClose =>
          match stack with
          | (done', cur') :: stack' =>
              parse ts' done' (close_branches done cur :: cur') stack'
          | [] => None
          end
      end
  end.

(** [re.compile(pattern)]; [None] when it raises [re.error] (or the
    pattern leaves the fragment). *)
Definition re_compile (pattern : string) : option regex :=
  match tokenize pattern with
  | Some ts => parse ts [] [] []
  | None => None
  end.

(** Whether an end-of-string anchor holds before the rest [s] of the
    subject: at the end, and also just before a line feed that ends the
    subject. *)
Definition at_end (s : string) : bool :=
  match s with
  | EmptyString => true
  | String c EmptyString => Ascii.eqb c line_feed
  | _ => false
  end.

(** Backtracking matcher: [accept r start s k] tries every way [r] can
    match a prefix of [s] and passes what is left to [k]; [start] says
    that [s] is the whole subject (nothing consumed yet).  Without flags
    [.] is any character but the line feed, [^] holds at the start of
    the subject only.  A repeat gives up an iteration that consumed
    nothing. *)
Fixpoint accept (r : regex) (start : bool) (s : string)
    (k : bool -> string -> bool) : bool :=
  match r with
  | Eps => k start s
  | Chr c =>
      match s with
      | String a s' => Ascii.eqb a c && k false s'
      | EmptyString => false
      end
  | Dot =>
      match s with
      | String a s' => negb (Ascii.eqb a line_feed) && k false s'
      | EmptyString => false
      end
  | Bol => start && k start s
  | Eol => at_end s && k start s
  | Seq r1 r2 => accept r1 start s (fun start' s' => accept r2 start' s' k)
  | Alt r1 r2 => accept r1 start s k || accept r2 start s k
  | Star r1 =>
      (fix iterate (fuel : nat) (start0 : bool) (s0 : string) {struct fuel} : bool :=
         k start0 s0
         || match fuel with
            | O => false
            | S fuel' =>
                accept r1 start0 s0
                  (fun start' s' =>
                     (String.length s' <? String.length s0)%nat && iterate fuel' start' s')
            end) (String.length s) start s
  end.

(** [bool(compiled_pattern.match(key))]: a match of some prefix of the
    key, from its first character. *)
Definition re_match (compiled_pattern : regex) (key : string) : bool :=
  accept compiled_pattern true key (fun _ _ => true).

(** ** The pattern of a location group *)

(** [filename_patterns = '|'.join([f"{fn}.*\.mp4" for fn in escaped_filenames])] *)
Definition filename_patterns (filenames : list string) : string :=
  let escaped_filenames := map re_escape filenames in
  String.concat "|" (map (fun fn => fn +:+ ".*\.mp4") escaped_filenames).

(** [full_pattern = f"^{re.escape(location_)}({filename_patterns})$"] *)
Definition full_pattern (location_ : string) (filenames : list string) : string :=
  "^" +:+ re_escape location_ +:+ "(" +:+ filename_patterns filenames +:+ ")$".

(** [location_ = f"TvShows/{location_}/"] *)
Definition namespaced (location : string) : string :=
  "TvShows/" +:+ location +:+ "/".

(** ** The table and the location groups *)

(** Position of the first column labelled [col]. *)
Fixpoint column_index (col : string) (cols : list string) : option nat :=
  match cols with
  | [] => None
  | c :: cols' =>
      if String.eqb c col then Some O else option_map S (column_index col cols')
  end.

(** [col in df.columns] *)
Definition has_column (df : DataFrame) (col : string) : bool :=
  match column_index col (columns df) with
  | Some _ => true
  | None => false
  end.

(** [row[col]]; a row shorter than the header holds NaN there. *)
Definition cell (df : DataFrame) (row : list (option string)) (col : string)
  : option string :=
  match column_index col (columns df) with
  | Some i => default None (row !! i)
  | None => None
  end.

Definition present (c : option string) : bool :=
  match c with
  | Some _ => true
  | None => false
  end.

(** [df.dropna(subset=[...])]: the rows with a value in every column of
    the subset, in their order. *)
Definition dropna (subset : list string) (df : DataFrame) : DataFrame :=
  {| columns := columns df;
     rows := List.filter (fun row => forallb (fun col => present (cell df row col)) subset)
               (rows df) |}.

(** [str(value)] of a cell; [str] of NaN is ["nan"]. *)
Definition str (c : option string) : string := default "nan" c.

(** [location_groups[location].append(filename)] on a
    [defaultdict(list)]: the groups are kept in the order their
    locations were first seen, which is the order [items()] yields them
    and the order the listing tasks are submitted in. *)
Fixpoint append_to (location filename : string)
    (groups : list (string * list string)) : list (string * list string) :=
  match groups with
  | [] => [(location, [filename])]
  | (l, fs) :: groups' =>
      if String.eqb l location then (l, fs ++ [filename]) :: groups'
      else (l, fs) :: append_to location filename groups'
  end.

(** The loop over [df_clean.iterrows()]. *)
Definition group_rows (object_prefix object_filename : string) (df_clean : DataFrame)
  : list (string * list string) :=
  fold_left
    (fun location_groups row =>
       let location := strip_slash (str (cell df_clean row object_prefix)) in
       let filename := str (cell df_clean row object_filename) in
       append_to location filename location_groups)
    (rows df_clean) [].

(** The three summary counters of the tagging phase. *)
Record Counters : Type := mkCounters {
  successful : nat;
  failed : nat;
  already_tagged : nat
}.

(** The page loop of [list_matching_objects]: [matching_objects] as it
    stands when the pages are exhausted or a page request raises, with
    the exception in the latter case. *)
Fixpoint scan_pages (compiled_pattern : regex) (pages : list PageEvent)
    (matching_objects : list string) : list string * option Exception :=
  match pages with
  | [] => (matching_objects, None)
  | Page Contents :: pages' =>
      scan_pages compiled_pattern pages'
        (matching_objects
           ++ List.filter (re_match compiled_pattern) (default [] Contents))
  | PageRaises e :: _ => (matching_objects, Some e)
  end.

Section Tagger.

Context (env : Env).

(** ** The S3 client *)

Definition NoSuchKey : Exception :=
  ClientError "NoSuchKey" "The specified key does not exist.".

(** [s3_client.get_object_tagging(Bucket=..., Key=...)] *)
Definition get_object_tagging (Bucket ObjectKey : string) : M TaggingResponse :=
  issue (GetObjectTagging Bucket ObjectKey) ;;;
  fun s =>
    match get_fault env ObjectKey with
    | Some e => (Raise e, s)
    | None =>
        match objects s !! ObjectKey with
        | Some tags => (Return {| TagSet := Some tags |}, s)
        | None => (Raise NoSuchKey, s)
        end
    end.

(** [s3_client.put_object_tagging(Bucket=..., Key=..., Tagging={'TagSet': ...})]:
    replaces the whole tag set of the object. *)
Definition put_object_tagging (Bucket ObjectKey : string) (Tagging : list Tag) : M unit :=
  issue (PutObjectTagging Bucket ObjectKey Tagging) ;;;
  fun s =>
    match put_fault env ObjectKey with
    | Some e => (Raise e, s)
    | None =>
        match objects s !! ObjectKey with
        | Some _ =>
            (Return tt, mkState (<[ObjectKey := Tagging]> (objects s)) (calls s) (log s))
        | None => (Raise NoSuchKey, s)
        end
    end.

(** ** [S3RegexTagger.tag_single_object] *)

Definition tag_single_object (bucket_name object_key tag_key tag_value : string)
  : M (string * bool * string) :=
  try_except
    (fetched <-
       try_except
         (response <- get_object_tagging bucket_name object_key ;;
          ret (inr (default [] (TagSet response))))
         (fun e =>
            match e with
            | ClientError code _ =>
                if String.eqb code "NoSuchKey"
                then ret (inl (object_key, false, "Object not found"))
                else ret (inr [])
            | OtherException _ => raise e
            end) ;;
     match fetched with
     | inl early => ret early
     | inr existing_tags =>
         let tag_exists :=
           existsb (fun tag => String.eqb (Key tag) tag_key) existing_tags in
         if tag_exists then ret (object_key, true, "Tag already exists")
         else
           let new_tags := existing_tags ++ [mkTag tag_key tag_value] in
           put_object_tagging bucket_name object_key new_tags ;;;
           ret (object_key, true, "Successfully tagged")
     end)
    (fun e =>
       match e with
       | ClientError code message =>
           ret (object_key, false, "AWS Error: " +:+ code +:+ " - " +:+ message)
       | OtherException text =>
           ret (object_key, false, "Unexpected error: " +:+ text)
       end).

(** ** [S3RegexTagger.list_matching_objects]

    [re.compile] is called before the [try]; [paginate] is one listing
    of the prefix, whatever number of pages it takes; only a
    [ClientError] is caught, and what was collected before it is
    returned.  [re_compile] reads the fragment of the syntax the code
    produces, and a pattern outside it is treated as one that does not
    compile: the method is only ever given a pattern [full_pattern]
    built, which is inside the fragment, and the properties below are
    stated for these patterns. *)
Definition list_matching_objects (bucket_name prefix pattern : string)
  : M (list string) :=
  match re_compile pattern with
  | None => raise (OtherException "re.error")
  | Some compiled_pattern =>
      issue (ListObjectsV2 bucket_name prefix) ;;;
      let (matching_objects, raised) :=
        scan_pages compiled_pattern (list_pages env prefix) [] in
      match raised with
      | None => ret matching_objects
      | Some (ClientError code message) =>
          logger (ErrorListing prefix (ClientError code message)) ;;;
          ret matching_objects
      | Some (OtherException text) => raise (OtherException text)
      end
  end.

(** ** [find_objects_for_location], the task of the discovery pool *)
Definition find_objects_for_location (bucket_name : string)
    (location_data : string * list string) : M (list string) :=
  logger (PrintLocationData (fst location_data) (snd location_data)) ;;;
  let (location, filenames) := location_data in
  let location_ := namespaced location in
  let pattern := full_pattern location_ filenames in
  try_except
    (matches_ <- list_matching_objects bucket_name location_ pattern ;;
     logger (InfoLocationFound location_ (length matches_) pattern) ;;;
     ret matches_)
    (fun err => logger (ErrorProcessingLocation location_ err) ;;; ret []).

(** The loop over [as_completed(future_to_location)]. *)
Fixpoint collect_matches (futures : list (Outcome (list string)))
    (all_matching_objects : gset string) : M (gset string) :=
  match futures with
  | [] => ret all_matching_objects
  | future :: futures' =>
      matches <- result future ;;
      collect_matches futures' (all_matching_objects ∪ list_to_set matches)
  end.

(** Phase 1 of [tag_objects_by_pattern]: one task per location group. *)
Definition discovery_phase (bucket_name : string) (max_list_workers : Z)
    (location_groups : list (string * list string)) : M (gset string) :=
  ThreadPoolExecutor max_list_workers ;;;
  futures <- submit_all (find_objects_for_location bucket_name) location_groups ;;
  collect_matches futures ∅.

(** The loop over [enumerate(as_completed(future_to_key), 1)];
    [i % batch_size] raises [ZeroDivisionError] when [batch_size] is 0. *)
Fixpoint count_results (batch_size : Z) (total i : nat)
    (futures : list (Outcome (string * bool * string))) (c : Counters) : M Counters :=
  match futures with
  | [] => ret c
  | future :: futures' =>
      r <- result future ;;
      let '(object_key, success, message) := r in
      c' <- (if success then
               if contains "already exists" message
               then ret (mkCounters (successful c) (failed c) (S (already_tagged c)))
               else ret (mkCounters (S (successful c)) (failed c) (already_tagged c))
             else
               logger (WarningFailedToTag object_key message) ;;;
               ret (mkCounters (successful c) (S (failed c)) (already_tagged c))) ;;
      report <- (if (batch_size =? 0)%Z
                 then raise (OtherException "integer modulo by zero")
                 else ret ((Z.of_nat i mod batch_size =? 0)%Z || (i =? total)%nat)) ;;
      (if report : bool then logger (InfoTaggingProgress i total) else ret tt) ;;;
      count_results batch_size total (S i) futures' c'
  end.

(** Phase 2 of [tag_objects_by_pattern]: one task per matched key. *)
Definition tagging_phase (bucket_name tag_key tag_value : string)
    (max_workers batch_size : Z) (matching_objects_list : list string)
  : M Counters :=
  ThreadPoolExecutor max_workers ;;;
  futures <- submit_all
               (fun key => tag_single_object bucket_name key tag_key tag_value)
               matching_objects_list ;;
  count_results batch_size (length matching_objects_list) 1 futures
    (mkCounters 0 0 0).

(** ** [S3RegexTagger.tag_objects_by_pattern]

    The only [try] of the method is the one around [read_csv]: an
    exception of a later statement leaves the method.
    [list(all_matching_objects)] enumerates the set in an order of its
    own; [elements] fixes one. *)
Definition tag_objects_by_pattern
    (csv_file_path bucket_name object_prefix object_filename tag_key tag_value : string)
    (max_workers batch_size max_list_workers : Z) : M unit :=
  logger (InfoReadingCsv csv_file_path) ;;;
  match read_csv env csv_file_path with
  | inl e => logger (ErrorReadingCsv e) ;;; ret tt
  | inr df =>
      if negb (has_column df object_prefix) || negb (has_column df object_filename)
      then
        logger (ErrorColumnsNotFound object_prefix object_filename) ;;;
        logger (InfoAvailableColumns (columns df)) ;;;
        ret tt
      else
        let df_clean := dropna [object_prefix; object_filename] df in
        logger (InfoProcessingRows (length (rows df_clean))) ;;;
        let location_groups := group_rows object_prefix object_filename df_clean in
        logger (InfoUniqueLocations (length location_groups)) ;;;
        logger InfoPhase1 ;;;
        all_matching_objects <-
          discovery_phase bucket_name max_list_workers location_groups ;;
        let matching_objects_list := elements all_matching_objects in
        logger (InfoPhase1Complete (length matching_objects_list)) ;;;
        match matching_objects_list with
        | [] => logger WarningNoMatchingObjects ;;; ret tt
        | _ :: _ =>
            logger InfoPhase2 ;;;
            c <- tagging_phase bucket_name tag_key tag_value max_workers batch_size
                   matching_objects_list ;;
            logger (InfoSummary (length (rows df_clean)) (length location_groups)
                      (length matching_objects_list)
                      (successful c) (already_tagged c) (failed c)) ;;;
            logger (InfoSample (take 5 matching_objects_list)
                      (if (5 <? length matching_objects_list)%nat
                       then Some (length matching_objects_list - 5)%nat
                       else None)) ;;;
            ret tt
        end
  end.

End Tagger.

(** [main()]: the configuration the script runs with. *)
Definition main (env : Env) : M unit :=
  tag_objects_by_pattern env
    "delete_data/Videos-Test.csv" "svodvideos"
    "location_folder" "location_file"
    "PERMANENT_DELETE" "CONFIRMED"
    50%Z 100%Z 10%Z.

(** ** Vocabulary of the properties *)

(** *** Configuration and traces *)

(** A configuration under which neither pool refuses to start and the
    progress check divides: both pool sizes are positive and the batch
    size is not 0. *)
Definition valid_config (max_workers batch_size max_list_workers : Z) : Prop :=
  (0 < max_workers)%Z /\ batch_size <> 0%Z /\ (0 < max_list_workers)%Z.

(** The tag sets a trace of calls wrote, with the key written to. *)
Definition tag_sets_written (cs : list Call) : list (string * list Tag) :=
  omap (fun c =>
          match c with
          | PutObjectTagging _ k tags => Some (k, tags)
          | _ => None
          end) cs.

(** The prefixes a trace of calls listed. *)
Definition prefixes_listed (cs : list Call) : list string :=
  omap (fun c =>
          match c with
          | ListObjectsV2 _ prefix => Some prefix
          | _ => None
          end) cs.

(** The get-tags and put-tags calls of a trace. *)
Definition tagging_calls (cs : list Call) : list Call :=
  List.filter (fun c =>
                 match c with
                 | ListObjectsV2 _ _ => false
                 | _ => true
                 end) cs.

(** The listing calls of the discovery phase. *)
Definition listing_calls (b : string) (location_groups : list (string * list string))
  : list Call :=
  map (fun ld => ListObjectsV2 b (namespaced ld.1)) location_groups.

(** *** Tagging *)

(** [any(tag['Key'] == tag_key for tag in tags)] *)
Definition has_tag_key (tag_key : string) (tags : list Tag) : bool :=
  existsb (fun tag => String.eqb (Key tag) tag_key) tags.

(** The get-tags call on [k] answers: it returns the tag set or reports
    that the key does not exist, rather than failing with another
    remote error. *)
Definition get_tags_answers (env : Env) (k : string) : Prop :=
  forall code message,
    get_fault env k = Some (ClientError code message) -> code = "NoSuchKey".

(** The triple a tagging attempt on [k] returns when the bucket holds
    the tag sets [o]. *)
Definition attempt (env : Env) (b tk tv : string) (o : gmap string (list Tag))
    (k : string) : string * bool * string :=
  match (tag_single_object env b k tk tv (mkState o [] [])).1 with
  | Return r => r
  | Raise _ => (k, false, "")
  end.

(** How the summary classifies a returned triple. *)
Definition is_failed (r : string * bool * string) : bool := negb r.1.2.

Definition is_already_tagged (r : string * bool * string) : bool :=
  r.1.2 && contains "already exists" r.2.

Definition is_newly_tagged (r : string * bool * string) : bool :=
  r.1.2 && negb (contains "already exists" r.2).

(** The log records the loop over the completed attempts writes for the
    triples [rs], the first of which is numbered [i]. *)
Fixpoint result_lines (bs : Z) (total i : nat)
    (rs : list (string * bool * string)) : list LogRecord :=
  match rs with
  | [] => []
  | r :: rs' =>
      (if is_failed r then [WarningFailedToTag r.1.1 r.2] else [])
      ++ (if (Z.of_nat i mod bs =? 0)%Z || (i =? total)%nat
          then [InfoTaggingProgress i total] else [])
      ++ result_lines bs total (S i) rs'
  end.

(** *** The compiled pattern *)

(** The tokens and the regex of the pattern of a location group, as
    [re.compile] reads it. *)
Definition extension_tokens : list token :=
  [TDot; TStar; TChar "."; TChar "m"; TChar "p"; TChar "4"]%char.

Definition branch_tokens (fn : string) : list token :=
  map TChar (list_ascii_of_string fn) ++ extension_tokens.

Fixpoint alternation_tokens (fns : list string) : list token :=
  match fns with
  | [] => []
  | fn :: fns' =>
      match fns' with
      | [] => branch_tokens fn
      | _ :: _ => branch_tokens fn ++ TBar :: alternation_tokens fns'
      end
  end.

Definition branch_items (fn : string) : list regex :=
  map Chr (list_ascii_of_string fn)
  ++ [Star Dot; Chr "."; Chr "m"; Chr "p"; Chr "4"]%char.

Fixpoint alternation (branches : list regex) : regex :=
  match branches with
  | [] => Eps
  | b :: branches' =>
      match branches' with
      | [] => b
      | _ :: _ => Alt b (alternation branches')
      end
  end.

Definition pattern_regex (location_ : string) (filenames : list string) : regex :=
  seq_of (Bol :: map Chr (list_ascii_of_string location_)
          ++ [alternation (map (fun fn => seq_of (branch_items fn)) filenames); Eol]).

(** No line feed occurs in [s]. *)
Fixpoint no_line_feed (s : string) : bool :=
  match s with
  | EmptyString => true
  | String c s' => negb (Ascii.eqb c line_feed) && no_line_feed s'
  end.

(** Whether the matcher is still at the start of the subject after
    [consumed]. *)
Definition start_after (start : bool) (consumed : string) : bool :=
  match consumed with
  | EmptyString => start
  | String _ _ => false
  end.

(** The loop of the matcher on [.*]. *)
Definition iterate_dot (k : bool -> string -> bool) : nat -> bool -> string -> bool :=
  fix iterate (fuel : nat) (start0 : bool) (s0 : string) {struct fuel} : bool :=
    k start0 s0
    || match fuel with
       | O => false
       | S fuel' =>
           match s0 with
           | String a s' =>
               negb (Ascii.eqb a line_feed)
               && ((String.length s' <? String.length s0)%nat && iterate fuel' false s')
           | EmptyString => false
           end
       end.

(** The keys the pattern of a group matches: the prefix, one of the
    filenames, any characters but the line feed, [.mp4], and then the
    end of the key or one final line feed. *)
Definition matched_form (location_ : string) (filenames : list string)
    (key : string) : Prop :=
  exists fn mid tail,
    fn ∈ filenames
    /\ key = location_ +:+ fn +:+ mid +:+ ".mp4" +:+ tail
    /\ no_line_feed mid = true
    /\ (tail = "" \/ tail = String line_feed "").

(** The wider form: the prefix, one of the filenames, any characters
    at all, [.mp4]. *)
Definition stated_form (location_ : string) (filenames : list string)
    (key : string) : Prop :=
  exists fn rest,
    fn ∈ filenames /\ key = location_ +:+ fn +:+ rest +:+ ".mp4".

(** Whether the compiled pattern of a group matches a key. *)
Definition pattern_matches (location_ : string) (filenames : list string)
    (key : string) : bool :=
  match re_compile (full_pattern location_ filenames) with
  | Some compiled_pattern => re_match compiled_pattern key
  | None => false
  end.

(** *** Discovery *)

(** The first exception iterating the pages raises, and the keys of the
    pages received before it. *)
Fixpoint first_failure (pages : list PageEvent) : option Exception :=
  match pages with
  | [] => None
  | Page _ :: pages' => first_failure pages'
  | PageRaises e :: _ => Some e
  end.

Fixpoint keys_before_failure (pages : list PageEvent) : list string :=
  match pages with
  | [] => []
  | Page Contents :: pages' => default [] Contents ++ keys_before_failure pages'
  | PageRaises _ :: _ => []
  end.

(** What a location group contributes to the match set: the matching
    keys of the pages received before the listing failed, if it did, and
    nothing when the failure is not a [ClientError]. *)
Definition location_matches (env : Env) (location_data : string * list string)
  : list string :=
  let location_ := namespaced location_data.1 in
  match first_failure (list_pages env location_) with
  | Some (OtherException _) => []
  | _ =>
      List.filter (pattern_matches location_ location_data.2)
        (keys_before_failure (list_pages env location_))
  end.

(** The log records of the task of a location group. *)
Definition location_lines (env : Env) (location_data : string * list string)
  : list LogRecord :=
  let location_ := namespaced location_data.1 in
  let found :=
    InfoLocationFound location_ (length (location_matches env location_data))
      (full_pattern location_ location_data.2) in
  PrintLocationData location_data.1 location_data.2
  :: match first_failure (list_pages env location_) with
     | None => [found]
     | Some (ClientError code message) =>
         [ErrorListing location_ (ClientError code message); found]
     | Some (OtherException text) =>
         [ErrorProcessingLocation location_ (OtherException text)]
     end.

(** The match set of the discovery phase. *)
Definition discovered (env : Env) (location_groups : list (string * list string))
  : gset string :=
  ⋃ (map (fun location_data => list_to_set (location_matches env location_data))
       location_groups).

(** The number of groups whose listing raises. *)
Definition failed_listings (env : Env) (location_groups : list (string * list string))
  : nat :=
  length (List.filter
            (fun ld =>
               match first_failure (list_pages env (namespaced ld.1)) with
               | Some _ => true
               | None => false
               end) location_groups).

(** *** Grouping *)

(** The location and the filename the grouping loop reads from a row,
    and whether the row has a value in both columns. *)
Definition row_location (df : DataFrame) (object_prefix : string)
    (row : list (option string)) : string :=
  strip_slash (str (cell df row object_prefix)).

Definition row_filename (df : DataFrame) (object_filename : string)
    (row : list (option string)) : string :=
  str (cell df row object_filename).

Definition complete (df : DataFrame) (object_prefix object_filename : string)
    (row : list (option string)) : bool :=
  present (cell df row object_prefix) && present (cell df row object_filename).

(** One step of the grouping loop. *)
Definition add_row (df : DataFrame) (object_prefix object_filename : string)
    (location_groups : list (string * list string)) (row : list (option string))
  : list (string * list string) :=
  append_to (row_location df object_prefix row)
    (row_filename df object_filename row) location_groups.

(** [location_groups.get(location)] *)
Fixpoint group_of (location : string) (groups : list (string * list string))
  : option (list string) :=
  match groups with
  | [] => None
  | (l, fs) :: groups' =>
      if String.eqb l location then Some fs else group_of location groups'
  end.

(** The filenames of the rows at a location, in row order. *)
Definition filenames_at (df : DataFrame) (object_prefix object_filename : string)
    (location : string) (rs : list (list (option string))) : list string :=
  map (row_filename df object_filename)
    (List.filter (fun row => String.eqb (row_location df object_prefix row) location)
       rs).

(** A group after more filenames were appended to it. *)
Definition extend (group : option (list string)) (fs : list string)
  : option (list string) :=
  match fs with
  | [] => group
  | _ :: _ => Some (default [] group ++ fs)
  end.

(** *** The log of a run *)

(** The log of a run up to the end of the discovery phase. *)
Definition discovery_log (env : Env) (csv_file_path : string) (nrows : nat)
    (location_groups : list (string * list string)) (nfound : nat)
  : list LogRecord :=
  [InfoReadingCsv csv_file_path; InfoProcessingRows nrows;
   InfoUniqueLocations (length location_groups); InfoPhase1]
  ++ concat (map (location_lines env) location_groups)
  ++ [InfoPhase1Complete nfound].

(** The two records that end a run that reached the tagging phase. *)
Definition summary_log (nrows nlocations : nat) (found : list string)
    (rs : list (string * bool * string)) : list LogRecord :=
  [InfoSummary nrows nlocations (length found)
     (length (List.filter is_newly_tagged rs))
     (length (List.filter is_already_tagged rs))
     (length (List.filter is_failed rs));
   InfoSample (take 5 found)
     (if (5 <? length found)%nat then Some (length found - 5)%nat else None)].

(** The summary record, and the records of the tagging phase and
    after: the summary is among them. *)
Definition is_summary (l : LogRecord) : bool :=
  match l with
  | InfoSummary _ _ _ _ _ _ => true
  | _ => false
  end.

Definition tagging_record (l : LogRecord) : bool :=
  match l with
  | InfoPhase2 | WarningFailedToTag _ _ | InfoTaggingProgress _ _
  | InfoSummary _ _ _ _ _ _ | InfoSample _ _ => true
  | _ => false
  end.

(** The input is fatal: the table cannot be read or lacks a column. *)
Definition fatal_input (env : Env) (csv_file_path p f : string) : Prop :=
  match read_csv env csv_file_path with
  | inl _ => True
  | inr df => has_column df p && has_column df f = false
  end.

(** *** Example tables, buckets and environments *)

(** A table with two complete rows at one location, written in two
    ways, and two rows with a missing value. *)
Definition incomplete_table : DataFrame :=
  {| columns := ["id"; "location_folder"; "location_file"];
     rows := [[Some "1"; Some "ShowA/S01"; Some "ep01"];
              [Some "2"; None; Some "ep02"];
              [Some "3"; Some "ShowA/S01"; None];
              [Some "4"; Some "/ShowA/S01/"; Some "ep04"]] |}.

(** The table of the scenario: three rows, two locations. *)
Definition scenario_table : DataFrame :=
  {| columns := ["location_folder"; "location_file"];
     rows := [[Some "ShowA/S01"; Some "ep01"];
              [Some "ShowA/S01"; Some "ep02"];
              [Some "ShowB/S01"; Some "ep01"]] |}.

(** A bucket holding one object with the given tags. *)
Definition one_object (tags : list Tag) : State :=
  mkState {[ "TvShows/ShowA/S01/ep01_1080p.mp4" := tags ]} [] [].

(** A bucket holding the first of the two objects the scenario lists. *)
Definition first_object_only : State :=
  mkState {[ "TvShows/ShowA/S01/ep01_1080p.mp4" := [] ]} [] [].

(** A bucket holding both. *)
Definition both_objects : State :=
  mkState {[ "TvShows/ShowA/S01/ep01_1080p.mp4" := [];
             "TvShows/ShowA/S01/ep01_720p.mp4" := [] ]} [] [].

(** An environment without faults, empty listings and no readable file. *)
Definition quiet_env : Env :=
  {| read_csv := fun _ => inl (OtherException "No such file or directory");
     list_pages := fun _ => [];
     get_fault := fun _ => None;
     put_fault := fun _ => None |}.

(** As [quiet_env], but the caller may put tags and not get them. *)
Definition get_denied_env : Env :=
  {| read_csv := read_csv quiet_env;
     list_pages := list_pages quiet_env;
     get_fault := fun _ => Some (ClientError "AccessDenied" "Access Denied");
     put_fault := fun _ => None |}.

(** A listing that delivers one page with two objects and is then
    throttled. *)
Definition throttled_env : Env :=
  {| read_csv := read_csv quiet_env;
     list_pages := fun _ =>
       [Page (Some ["TvShows/ShowA/S01/ep01_1080p.mp4";
                    "TvShows/ShowA/S01/ep01_720p.mp4"]);
        PageRaises (ClientError "SlowDown" "Please reduce your request rate.")];
     get_fault := fun _ => None;
     put_fault := fun _ => None |}.

(** The scenario: the table is read, the first location lists two
    objects and the second none. *)
Definition scenario_env : Env :=
  {| read_csv := fun _ => inr scenario_table;
     list_pages := fun prefix =>
       if String.eqb prefix "TvShows/ShowA/S01/"
       then [Page (Some ["TvShows/ShowA/S01/ep01_1080p.mp4";
                         "TvShows/ShowA/S01/ep01_720p.mp4"])]
       else [Page None];
     get_fault := fun _ => None;
     put_fault := fun _ => None |}.

(** The scenario with a bucket that lists no object. *)
Definition empty_listing_env : Env :=
  {| read_csv := fun _ => inr scenario_table;
     list_pages := fun _ => [Page None];
     get_fault := fun _ => None;
     put_fault := fun _ => None |}.

(** The scenario with the listing of the second location refused. *)
Definition second_listing_fails_env : Env :=
  {| read_csv := fun _ => inr scenario_table;
     list_pages := fun prefix =>
       if String.eqb prefix "TvShows/ShowA/S01/"
       then [Page (Some ["TvShows/ShowA/S01/ep01_1080p.mp4";
                         "TvShows/ShowA/S01/ep01_720p.mp4"])]
       else [PageRaises (ClientError "AccessDenied" "Access Denied")];
     get_fault := fun _ => None;
     put_fault := fun _ => None |}.

(** *** Further vocabulary: traces, slashes, orders *)

(** The keys a trace of calls fetched the tags of, and the keys it wrote
    a tag set to. *)
Definition keys_fetched (cs : list Call) : list string :=
  omap (fun c =>
          match c with
          | GetObjectTagging _ k => Some k
          | _ => None
          end) cs.

Definition keys_written (cs : list Call) : list string :=
  map fst (tag_sets_written cs).

(** A string of ['/'] only. *)
Fixpoint all_slashes (s : string) : bool :=
  match s with
  | EmptyString => true
  | String c s' => Ascii.eqb c "/" && all_slashes s'
  end.

(** The records that report the outcome of the tagging phase: the
    progress lines, the summary and the sample. *)
Definition reports_outcome (l : LogRecord) : bool :=
  match l with
  | InfoTaggingProgress _ _ | InfoSummary _ _ _ _ _ _ | InfoSample _ _ => true
  | _ => false
  end.

(** * S3LifecycleMonitor: [supporting_architecture/cloudtrail-monitor.py]

    The monitor lists the whole bucket, fetches the tags of every object
    and reports the objects tagged [TO_BE_DELETED = true] with the day
    their lifecycle rule deletes them.  Of the script the listing
    ([get_objects_to_be_deleted]), the extraction of the object key from
    a CloudTrail resource name, the grouping of the report by day and
    the count [main] compares with the alert threshold are modelled;
    the JSON of CloudTrail, the sizes in megabytes (floating point) and
    the calls to CloudTrail, CloudWatch and SNS are not. *)

(** ** Dates *)

(** A [datetime] is the number of microseconds since
    0001-01-01T00:00:00 ([datetime.min]), in UTC, the zone boto3
    delivers its timestamps in; [datetime.max] is the last microsecond
    of the year 9999. *)
Definition day_us : Z := 86400000000.

Definition datetime_max : Z := 315537897599999999.

(** [d + timedelta(days=n)] raises [OverflowError] outside
    [datetime.min .. datetime.max]. *)
Definition add_days (d n : Z) : Exception + Z :=
  let r := (d + n * day_us)%Z in
  if (r <? 0)%Z || (datetime_max <? r)%Z
  then inl (OtherException "date value out of range")
  else inr r.

(** [(a - b).days]: a [timedelta] is normalised with its seconds and
    microseconds not negative, so [days] rounds down. *)
Definition days_between (a b : Z) : Z := ((a - b) / day_us)%Z.

(** ** Python dicts with string keys, in insertion order *)

(** [d[k] = v] *)
Fixpoint dict_set (k v : string) (d : list (string * string)) : list (string * string) :=
  match d with
  | [] => [(k, v)]
  | (k', v') :: d' =>
      if String.eqb k' k then (k', v) :: d' else (k', v') :: dict_set k v d'
  end.

(** [d.get(k)] *)
Fixpoint dict_get (k : string) (d : list (string * string)) : option string :=
  match d with
  | [] => None
  | (k', v') :: d' => if String.eqb k' k then Some v' else dict_get k d'
  end.

(** [{tag['Key']: tag['Value'] for tag in tag_set}] *)
Definition tags_dict (tag_set : list Tag) : list (string * string) :=
  fold_left (fun d tag => dict_set (Key tag) (Value tag) d) tag_set [].

(** ** The listing of the bucket and the report entries *)

(** An entry of ['Contents'] as the monitor reads it: ['Key'], ['Size']
    and ['LastModified']. *)
Record ObjectSummary : Type := {
  obj_Key : string;
  obj_Size : Z;
  obj_LastModified : Z
}.

(** One step of iterating [paginator.paginate(Bucket=bucket_name)]. *)
Inductive BucketPageEvent : Type :=
| BucketPage (Contents : option (list ObjectSummary))
| BucketPageRaises (e : Exception).

(** The dict appended to [objects_to_delete]. *)
Record DeletionEntry : Type := {
  entry_Key : string;
  entry_Size : Z;
  entry_LastModified : Z;
  DeletionDate : Z;
  DaysUntilDeletion : Z;
  Tags : list (string * string)
}.

(** The two logger calls of [get_objects_to_be_deleted]. *)
Inductive MonitorLogRecord : Type :=
| WarningCouldNotGetTags (object_key : string) (e : Exception)
| ErrorListingObjects (e : Exception).

(** What the outside world decides for the monitor: the faults of the S3
    client, the pages the listing of the bucket yields and what the clock
    shows at its first, second, ... reading. *)
Record MonitorEnv : Type := {
  s3_env : Env;
  bucket_pages : list BucketPageEvent;
  datetime_now : nat -> Z
}.

(** The state of the monitor: the bucket and the trace of calls, the
    number of clock readings so far and the monitor's log. *)
Record MonitorState : Type := mkMonitorState {
  s3_state : State;
  clock_reads : nat;
  monitor_log : list MonitorLogRecord
}.

(** ** [S3LifecycleMonitor.get_objects_to_be_deleted] *)

(** The body of the loop over [page['Contents']], with its
    [try ... except Exception]. *)
Definition check_object (menv : MonitorEnv) (bucket_name : string)
    (obj : ObjectSummary) (objects_to_delete : list DeletionEntry)
    (st : MonitorState) : list DeletionEntry * MonitorState :=
  match get_object_tagging (s3_env menv) bucket_name (obj_Key obj) (s3_state st) with
  | (Return tags_response, s') =>
      let tags := tags_dict (default [] (TagSet tags_response)) in
      if match dict_get "TO_BE_DELETED" tags with
         | Some v => String.eqb v "true"
         | None => false
         end
      then
        match add_days (obj_LastModified obj) 2 with
        | inr deletion_date =>
            (objects_to_delete
             ++ [{| entry_Key := obj_Key obj;
                    entry_Size := obj_Size obj;
                    entry_LastModified := obj_LastModified obj;
                    DeletionDate := deletion_date;
                    DaysUntilDeletion :=
                      days_between deletion_date (datetime_now menv (clock_reads st));
                    Tags := tags |}],
             mkMonitorState s' (S (clock_reads st)) (monitor_log st))
        | inl e =>
            (objects_to_delete,
             mkMonitorState s' (clock_reads st)
               (monitor_log st ++ [WarningCouldNotGetTags (obj_Key obj) e]))
        end
      else (objects_to_delete, mkMonitorState s' (clock_reads st) (monitor_log st))
  | (Raise e, s') =>
      (objects_to_delete,
       mkMonitorState s' (clock_reads st)
         (monitor_log st ++ [WarningCouldNotGetTags (obj_Key obj) e]))
  end.

Fixpoint check_objects (menv : MonitorEnv) (bucket_name : string)
    (Contents : list ObjectSummary) (objects_to_delete : list DeletionEntry)
    (st : MonitorState) : list DeletionEntry * MonitorState :=
  match Contents with
  | [] => (objects_to_delete, st)
  | obj :: Contents' =>
      let (objects_to_delete', st') :=
        check_object menv bucket_name obj objects_to_delete st in
      check_objects menv bucket_name Contents' objects_to_delete' st'
  end.

(** The loop over [pages], with the outer [try ... except Exception]. *)
Fixpoint check_pages (menv : MonitorEnv) (bucket_name : string)
    (pages : list BucketPageEvent) (objects_to_delete : list DeletionEntry)
    (st : MonitorState) : list DeletionEntry * MonitorState :=
  match pages with
  | [] => (objects_to_delete, st)
  | BucketPage Contents :: pages' =>
      let (objects_to_delete', st') :=
        check_objects menv bucket_name (default [] Contents) objects_to_delete st in
      check_pages menv bucket_name pages' objects_to_delete' st'
  | BucketPageRaises e :: _ =>
      (objects_to_delete,
       mkMonitorState (s3_state st) (clock_reads st)
         (monitor_log st ++ [ErrorListingObjects e]))
  end.

(** [paginate(Bucket=bucket_name)] is one listing of the bucket with no
    prefix, recorded as a listing of the empty prefix. *)
Definition get_objects_to_be_deleted (menv : MonitorEnv) (bucket_name : string)
    (st : MonitorState) : list DeletionEntry * MonitorState :=
  let s := s3_state st in
  check_pages menv bucket_name (bucket_pages menv) []
    (mkMonitorState
       (mkState (objects s) (calls s ++ [ListObjectsV2 bucket_name ""]) (log s))
       (clock_reads st) (monitor_log st)).

(** ** The object key of a CloudTrail resource *)

(** [s.split('/')] *)
Fixpoint split_slash (s : string) : list string :=
  match s with
  | EmptyString => [""]
  | String c s' =>
      if Ascii.eqb c "/" then "" :: split_slash s'
      else match split_slash s' with
           | segment :: segments => String c segment :: segments
           | [] => [String c ""]
           end
  end.

(** [object_arn.split('/')[-1] if '/' in object_arn else object_arn] in
    [get_recent_deletions] *)
Definition object_key_of_arn (object_arn : string) : string :=
  if contains "/" object_arn then List.last (split_slash object_arn) ""
  else object_arn.

(** ** The deletion schedule and the alert *)

(** [deletion_schedule[days].append(obj)] on a [defaultdict(list)] *)
Fixpoint schedule_append (days : Z) (obj : DeletionEntry)
    (deletion_schedule : list (Z * list DeletionEntry)) : list (Z * list DeletionEntry) :=
  match deletion_schedule with
  | [] => [(days, [obj])]
  | (d, objs) :: schedule' =>
      if (d =? days)%Z then (d, objs ++ [obj]) :: schedule'
      else (d, objs) :: schedule_append days obj schedule'
  end.

(** The grouping loop of [create_monitoring_report]:
    [days = max(0, obj['DaysUntilDeletion'])]. *)
Definition deletion_schedule (to_be_deleted : list DeletionEntry)
  : list (Z * list DeletionEntry) :=
  fold_left
    (fun schedule obj =>
       let days := Z.max 0 (DaysUntilDeletion obj) in
       schedule_append days obj schedule)
    to_be_deleted [].

(** [deletion_schedule[day]] when [day] is a key. *)
Fixpoint schedule_get (day : Z) (schedule : list (Z * list DeletionEntry))
  : option (list DeletionEntry) :=
  match schedule with
  | [] => None
  | (d, objs) :: schedule' =>
      if (d =? day)%Z then Some objs else schedule_get day schedule'
  end.

(** [objects_today] of the monitor's [main]:
    [sum(1 for obj in report['objects_to_be_deleted'] if obj['DaysUntilDeletion'] <= 0)],
    and the condition under which the alert is sent, the topic being
    configured. *)
Definition ALERT_THRESHOLD : nat := 100.

Definition objects_today (objects_to_be_deleted : list DeletionEntry) : nat :=
  length (List.filter (fun obj => (DaysUntilDeletion obj <=? 0)%Z) objects_to_be_deleted).

Definition alert_sent (objects_to_be_deleted : list DeletionEntry) : bool :=
  (ALERT_THRESHOLD <? objects_today objects_to_be_deleted)%nat.

(** *** Vocabulary of the monitor's properties *)

(** The objects the listing delivers before it fails, if it does. *)
Fixpoint objects_before_failure (pages : list BucketPageEvent) : list ObjectSummary :=
  match pages with
  | [] => []
  | BucketPage Contents :: pages' => default [] Contents ++ objects_before_failure pages'
  | BucketPageRaises _ :: _ => []
  end.

Fixpoint listing_failure (pages : list BucketPageEvent) : option Exception :=
  match pages with
  | [] => None
  | BucketPage _ :: pages' => listing_failure pages'
  | BucketPageRaises e :: _ => Some e
  end.

(** The value of the last tag of a tag set with the given key. *)
Fixpoint last_value (k : string) (tag_set : list Tag) : option string :=
  match tag_set with
  | [] => None
  | tag :: tag_set' =>
      match last_value k tag_set' with
      | Some v => Some v
      | None => if String.eqb (Key tag) k then Some (Value tag) else None
      end
  end.

(** The tag set marks its object for deletion: its last
    [TO_BE_DELETED] tag has the value [true]. *)
Definition marked (tag_set : list Tag) : bool :=
  match last_value "TO_BE_DELETED" tag_set with
  | Some v => String.eqb v "true"
  | None => false
  end.

(** Two days after the object's last modification is a date. *)
Definition deletion_date_exists (obj : ObjectSummary) : bool :=
  (0 <=? obj_LastModified obj + 2 * day_us)%Z
  && (obj_LastModified obj + 2 * day_us <=? datetime_max)%Z.

(** The object is reported: get-tags answers with a tag set that marks
    it, and its deletion date exists. *)
Definition scheduled (env : Env) (o : gmap string (list Tag)) (obj : ObjectSummary)
  : bool :=
  match get_fault env (obj_Key obj), o !! obj_Key obj with
  | None, Some tag_set => marked tag_set && deletion_date_exists obj
  | _, _ => false
  end.

(** The entry reported for an object whose clock reading showed [now]. *)
Definition entry_of (o : gmap string (list Tag)) (obj : ObjectSummary) (now : Z)
  : DeletionEntry :=
  {| entry_Key := obj_Key obj;
     entry_Size := obj_Size obj;
     entry_LastModified := obj_LastModified obj;
     DeletionDate := (obj_LastModified obj + 2 * day_us)%Z;
     DaysUntilDeletion :=
       days_between (obj_LastModified obj + 2 * day_us)%Z now;
     Tags := tags_dict (default [] (o !! obj_Key obj)) |}.

(** The entries reported for a list of objects, the clock having been
    read [n] times before. *)
Fixpoint entries_of (env : Env) (o : gmap string (list Tag)) (clock : nat -> Z)
    (n : nat) (objs : list ObjectSummary) : list DeletionEntry :=
  match objs with
  | [] => []
  | obj :: objs' =>
      if scheduled env o obj
      then entry_of o obj (clock n) :: entries_of env o clock (S n) objs'
      else entries_of env o clock n objs'
  end.

(** The warning logged for an object, if any. *)
Definition object_warning (env : Env) (o : gmap string (list Tag)) (obj : ObjectSummary)
  : list MonitorLogRecord :=
  match get_fault env (obj_Key obj), o !! obj_Key obj with
  | Some e, _ => [WarningCouldNotGetTags (obj_Key obj) e]
  | None, None => [WarningCouldNotGetTags (obj_Key obj) NoSuchKey]
  | None, Some tag_set =>
      if marked tag_set && negb (deletion_date_exists obj)
      then [WarningCouldNotGetTags (obj_Key obj)
              (OtherException "date value out of range")]
      else []
  end.

(** * The cleanup script [clean_rds.py]

    Of the script the computation of the ids to delete is modelled: the
    ids read from the CSV are given, and the table of play activity is
    a list of rows of which the script reads [video_id], a foreign key
    that is [None] when it is NULL.  The CSV parsing and the Django
    models the script updates and deletes are not. *)

Record PlayActivity : Type := { video_id : option Z }.

(** [PlayActivity.objects.filter(video_id__in=ids)] *)
Definition video_id__in (ids : list Z) (table : list PlayActivity)
  : list PlayActivity :=
  List.filter
    (fun pa =>
       match video_id pa with
       | Some v => existsb (Z.eqb v) ids
       | None => false
       end) table.

(** The loop [for pa in ...: no_del_ids.append(pa.video_id)] *)
Definition no_del_ids (ids : list Z) (table : list PlayActivity) : list (option Z) :=
  map video_id (video_id__in ids table).

(** [safe2del = [id_ for id_ in ids if id_ not in no_del_ids]] *)
Definition safe2del (ids : list Z) (table : list PlayActivity) : list Z :=
  List.filter
    (fun id_ =>
       negb (existsb (fun v => match v with
                               | Some v' => (v' =? id_)%Z
                               | None => false
                               end) (no_del_ids ids table)))
    ids.

(** The match set of a run: empty when the run stops at its input. *)
Definition match_set (env : Env) (csv_file_path p f : string) : gset string :=
  match read_csv env csv_file_path with
  | inl _ => ∅
  | inr df =>
      if has_column df p && has_column df f
      then discovered env (group_rows p f (dropna [p; f] df))
      else ∅
  end.

(** * Properties of [tag_single_object] *)

Ltac run_tso :=
  unfold tag_single_object, put_object_tagging, get_object_tagging,
    try_except, bind, issue, ret, raise; simpl.

Ltac tso_cases env k s :=
  run_tso;
  destruct (get_fault env k) as [[code message | text] | ] eqn:Hget; simpl;
  [ destruct (String.eqb code "NoSuchKey") eqn:Hcode; simpl | | ];
  destruct (objects s !! k) as [tags | ] eqn:Hobj; simpl;
  try match goal with
      | |- context [existsb ?f ?l] => destruct (existsb f l) eqn:Hexists; simpl
      end;
  try (destruct (put_fault env k) as [[code' message' | text'] | ] eqn:Hput; simpl);
  try rewrite Hobj; simpl.

(** A tagging attempt always returns its triple: no exception leaves it. *)
Lemma tag_single_object_returns env b k tk tv s :
  exists r s', tag_single_object env b k tk tv s = (Return r, s').
Proof. tso_cases env k s; eauto. Qed.

(** It changes the tags of no other object, and writes no log record. *)
Lemma tag_single_object_frame env b k tk tv s k' :
  k' <> k ->
  objects (tag_single_object env b k tk tv s).2 !! k' = objects s !! k'.
Proof.
  intros Hne. tso_cases env k s; try reflexivity;
    rewrite lookup_insert_ne; auto.
Qed.

Lemma tag_single_object_log env b k tk tv s :
  log (tag_single_object env b k tk tv s).2 = log s.
Proof. tso_cases env k s; reflexivity. Qed.

(** Its result depends on the state through the tags of its key only. *)
Lemma tag_single_object_local env b k tk tv s1 s2 :
  objects s1 !! k = objects s2 !! k ->
  (tag_single_object env b k tk tv s1).1 = (tag_single_object env b k tk tv s2).1.
Proof.
  intros Heq. run_tso. rewrite <- Heq.
  destruct (get_fault env k) as [[code message | text] | ] eqn:Hget; simpl;
  [ destruct (String.eqb code "NoSuchKey") eqn:Hcode; simpl | | ];
  try reflexivity.
  - rewrite <- Heq.
    destruct (put_fault env k) as [[code' message' | text'] | ]; simpl;
      try reflexivity.
    destruct (objects s1 !! k); reflexivity.
  - destruct (objects s1 !! k) as [tags | ] eqn:Hobj; simpl; try reflexivity.
    destruct (existsb _ tags); simpl; try reflexivity.
    rewrite <- Heq, Hobj.
    destruct (put_fault env k) as [[code' message' | text'] | ]; reflexivity.
Qed.

Lemma tag_sets_written_app cs1 cs2 :
  tag_sets_written (cs1 ++ cs2) = tag_sets_written cs1 ++ tag_sets_written cs2.
Proof. apply omap_app. Qed.

Lemma has_tag_key_elem tk v tags :
  mkTag tk v ∈ tags -> has_tag_key tk tags = true.
Proof.
  intros Hin. apply existsb_exists. exists (mkTag tk v). split.
  - apply list_elem_of_In, Hin.
  - apply String.eqb_refl.
Qed.

(** An object that carries the target key is reported and left alone. *)
Lemma tag_single_object_already env b k tk tv s tags :
  get_fault env k = None -> objects s !! k = Some tags ->
  has_tag_key tk tags = true ->
  tag_single_object env b k tk tv s =
    (Return (k, true, "Tag already exists"),
     mkState (objects s) (calls s ++ [GetObjectTagging b k]) (log s)).
Proof.
  intros Hf Ho Hp. run_tso. rewrite Hf, Ho. simpl.
  unfold has_tag_key in Hp. rewrite Hp. reflexivity.
Qed.

(** C1 (as amended): provided the get-tags call does not fail with a
    remote error other than not-found, a tagging attempt removes and
    overwrites no existing tag: afterwards the object carries its old
    tag set, or that set followed by the one target entry; the tag set
    written, if any, is the fetched set followed by the target entry;
    no other object changes and a missing object is not created. *)
Theorem tag_single_object_keeps_existing_tags env b k tk tv s :
  get_tags_answers env k ->
  let s' := (tag_single_object env b k tk tv s).2 in
  (forall k', k' <> k -> objects s' !! k' = objects s !! k') /\
  (forall tags, objects s !! k = Some tags ->
     (exists tags', objects s' !! k = Some tags' /\
        (forall t, t ∈ tags -> t ∈ tags') /\
        (tags' = tags \/ tags' = tags ++ [mkTag tk tv])) /\
     (tag_sets_written (calls s') = tag_sets_written (calls s) \/
      tag_sets_written (calls s') =
        tag_sets_written (calls s) ++ [(k, tags ++ [mkTag tk tv])])) /\
  (objects s !! k = None ->
     objects s' !! k = None /\
     tag_sets_written (calls s') = tag_sets_written (calls s)).
Proof.
  intros Hans s'. split; [| split].
  - intros k' Hne. apply tag_single_object_frame; assumption.
  - intros tags0 Htags. subst s'. revert Htags.
    tso_cases env k s; intros Htags; simplify_eq;
      try (rewrite (Hans _ _ Hget) in Hcode; vm_compute in Hcode; discriminate);
      rewrite ?tag_sets_written_app; simpl; rewrite ?app_nil_r;
      rewrite ?lookup_insert_eq;
      (split; [ eexists; split; [eassumption || reflexivity |];
                split; [ intros t Ht; try assumption; apply elem_of_app; auto | auto ]
              | auto ]).
  - intros Hnone. subst s'. revert Hnone.
    tso_cases env k s; intros Hnone; simplify_eq;
      try (rewrite (Hans _ _ Hget) in Hcode; vm_compute in Hcode; discriminate);
      rewrite ?tag_sets_written_app; simpl; rewrite ?app_nil_r; auto.
Qed.

Lemma quiet_env_answers k : get_tags_answers quiet_env k.
Proof. intros code message H. discriminate H. Qed.

Lemma tag_single_object_keeps_existing_tags_witness :
  get_tags_answers quiet_env "TvShows/ShowA/S01/ep01_1080p.mp4" /\
  exists tags',
    objects
      (tag_single_object quiet_env "svodvideos" "TvShows/ShowA/S01/ep01_1080p.mp4"
         "PERMANENT_DELETE" "CONFIRMED"
         (one_object [mkTag "owner" "archive"])).2
      !! "TvShows/ShowA/S01/ep01_1080p.mp4" = Some tags' /\
    (forall t, t ∈ [mkTag "owner" "archive"] -> t ∈ tags') /\
    (tags' = [mkTag "owner" "archive"] \/
     tags' = [mkTag "owner" "archive"] ++ [mkTag "PERMANENT_DELETE" "CONFIRMED"]).
Proof.
  split; [apply quiet_env_answers |].
  apply (tag_single_object_keeps_existing_tags quiet_env "svodvideos"
           "TvShows/ShowA/S01/ep01_1080p.mp4" "PERMANENT_DELETE" "CONFIRMED"
           (one_object [mkTag "owner" "archive"]) (quiet_env_answers _)).
  reflexivity.
Defined.

(** C1 as stated fails: when get-tags is denied and put-tags is allowed,
    the attempt takes the existing tag set to be empty and replaces it by
    the target entry alone, which removes a tag with another key. *)
Lemma tag_single_object_get_error_drops_tags :
  ~ (forall env b k tk tv s tags t,
       objects s !! k = Some tags -> t ∈ tags -> Key t <> tk ->
       exists tags',
         objects (tag_single_object env b k tk tv s).2 !! k = Some tags' /\
         t ∈ tags').
Proof.
  intros H.
  destruct (H get_denied_env "svodvideos" "TvShows/ShowA/S01/ep01_1080p.mp4"
              "PERMANENT_DELETE" "CONFIRMED"
              (one_object [mkTag "owner" "archive"])
              [mkTag "owner" "archive"] (mkTag "owner" "archive"))
    as (tags' & Hlookup & Hin).
  - reflexivity.
  - apply list_elem_of_singleton. reflexivity.
  - discriminate.
  - vm_compute in Hlookup. injection Hlookup as <-.
    apply list_elem_of_singleton in Hin. discriminate Hin.
Qed.

(** C9 (as amended): the check compares tag keys only.  Provided the
    get-tags call answers with the object's tag set, when that set has
    an entry with the target key and another value, the attempt reports
    success with "Tag already exists", issues the get-tags call and no
    write, and leaves the tag set, with that entry's value, as it was. *)
Theorem tag_single_object_compares_keys_only env b k tk tv s tags v :
  get_fault env k = None ->
  objects s !! k = Some tags ->
  mkTag tk v ∈ tags ->
  v <> tv ->
  let (r, s') := tag_single_object env b k tk tv s in
  r = Return (k, true, "Tag already exists") /\
  calls s' = calls s ++ [GetObjectTagging b k] /\
  tag_sets_written (calls s') = tag_sets_written (calls s) /\
  objects s' = objects s /\
  (exists tags', objects s' !! k = Some tags' /\ mkTag tk v ∈ tags').
Proof.
  intros Hf Ho Hin _.
  rewrite (tag_single_object_already env b k tk tv s tags Hf Ho
             (has_tag_key_elem _ _ _ Hin)).
  simpl. rewrite tag_sets_written_app, app_nil_r. repeat split; eauto.
Qed.

Lemma tag_single_object_compares_keys_only_witness :
  let (r, s') :=
    tag_single_object quiet_env "svodvideos" "TvShows/ShowA/S01/ep01_1080p.mp4"
      "PERMANENT_DELETE" "CONFIRMED"
      (one_object [mkTag "PERMANENT_DELETE" "PENDING"]) in
  r = Return ("TvShows/ShowA/S01/ep01_1080p.mp4", true, "Tag already exists") /\
  calls s' = [] ++ [GetObjectTagging "svodvideos" "TvShows/ShowA/S01/ep01_1080p.mp4"] /\
  tag_sets_written (calls s') = tag_sets_written [] /\
  objects s' = objects (one_object [mkTag "PERMANENT_DELETE" "PENDING"]) /\
  (exists tags',
     objects s' !! "TvShows/ShowA/S01/ep01_1080p.mp4" = Some tags' /\
     mkTag "PERMANENT_DELETE" "PENDING" ∈ tags').
Proof.
  apply (tag_single_object_compares_keys_only quiet_env "svodvideos"
           "TvShows/ShowA/S01/ep01_1080p.mp4" "PERMANENT_DELETE" "CONFIRMED"
           (one_object [mkTag "PERMANENT_DELETE" "PENDING"])
           [mkTag "PERMANENT_DELETE" "PENDING"] "PENDING").
  - reflexivity.
  - reflexivity.
  - apply list_elem_of_singleton. reflexivity.
  - discriminate.
Defined.

(** C9 as stated fails when the get-tags call fails with a remote error
    other than not-found: the attempt does not see the entry, writes
    the target entry alone and so replaces the entry's value by the
    target value, reporting "Successfully tagged". *)
Lemma tagged_value_is_overwritten_when_get_fails :
  ~ (forall env b k tk tv s tags v,
       objects s !! k = Some tags -> mkTag tk v ∈ tags -> v <> tv ->
       exists s',
         tag_single_object env b k tk tv s
         = (Return (k, true, "Tag already exists"), s')
         /\ tag_sets_written (calls s') = tag_sets_written (calls s)
         /\ objects s' = objects s)
  /\ (let (r, s') :=
        tag_single_object get_denied_env "svodvideos"
          "TvShows/ShowA/S01/ep01_1080p.mp4" "PERMANENT_DELETE" "CONFIRMED"
          (one_object [mkTag "PERMANENT_DELETE" "PENDING"]) in
      r = Return ("TvShows/ShowA/S01/ep01_1080p.mp4", true, "Successfully tagged")
      /\ tag_sets_written (calls s')
         = [("TvShows/ShowA/S01/ep01_1080p.mp4",
             [mkTag "PERMANENT_DELETE" "CONFIRMED"])]
      /\ objects s' !! "TvShows/ShowA/S01/ep01_1080p.mp4"
         = Some [mkTag "PERMANENT_DELETE" "CONFIRMED"]).
Proof.
  split.
  - intros H.
    destruct (H get_denied_env "svodvideos" "TvShows/ShowA/S01/ep01_1080p.mp4"
                "PERMANENT_DELETE" "CONFIRMED"
                (one_object [mkTag "PERMANENT_DELETE" "PENDING"])
                [mkTag "PERMANENT_DELETE" "PENDING"] "PENDING" eq_refl)
      as (s' & Hrun & _).
    + apply list_elem_of_singleton. reflexivity.
    + discriminate.
    + vm_compute in Hrun. discriminate Hrun.
  - vm_compute. auto.
Qed.

(** * The tagging phase *)

Lemma tag_single_object_attempt env b k tk tv s :
  (tag_single_object env b k tk tv s).1 = Return (attempt env b tk tv (objects s) k).
Proof.
  unfold attempt.
  rewrite (tag_single_object_local env b k tk tv s (mkState (objects s) [] []))
    by reflexivity.
  destruct (tag_single_object_returns env b k tk tv (mkState (objects s) [] []))
    as (r & s' & ->).
  reflexivity.
Qed.

Lemma attempt_local env b tk tv o1 o2 k :
  o1 !! k = o2 !! k -> attempt env b tk tv o1 k = attempt env b tk tv o2 k.
Proof.
  intros Heq. unfold attempt.
  rewrite (tag_single_object_local env b k tk tv (mkState o1 [] []) (mkState o2 [] []))
    by exact Heq.
  reflexivity.
Qed.

Lemma tag_single_object_no_listing env b k tk tv s :
  prefixes_listed (calls (tag_single_object env b k tk tv s).2)
  = prefixes_listed (calls s).
Proof.
  unfold prefixes_listed.
  tso_cases env k s; rewrite ?omap_app; simpl; rewrite ?app_nil_r; reflexivity.
Qed.

(** The tasks of the tagging pool, over distinct keys: each returns what
    an attempt on the initial tag sets returns, none writes a log
    record or lists a prefix, and only the keys' own tag sets change. *)
Lemma submit_all_attempts env b tk tv keys :
  NoDup keys ->
  forall s, exists s',
    submit_all (fun key => tag_single_object env b key tk tv) keys s
    = (Return (map (fun k => Return (attempt env b tk tv (objects s) k)) keys), s')
    /\ log s' = log s
    /\ prefixes_listed (calls s') = prefixes_listed (calls s)
    /\ (forall k', k' ∉ keys -> objects s' !! k' = objects s !! k').
Proof.
  induction 1 as [| k keys Hnotin Hnodup IH]; intros s.
  - exists s. simpl. unfold ret. auto.
  - simpl. unfold bind, submit.
    pose proof (tag_single_object_attempt env b k tk tv s) as Hres.
    pose proof (tag_single_object_log env b k tk tv s) as Hlog.
    pose proof (tag_single_object_no_listing env b k tk tv s) as Hlist.
    pose proof (tag_single_object_frame env b k tk tv s) as Hframe.
    destruct (tag_single_object env b k tk tv s) as [r s1]. simpl in *. subst r.
    destruct (IH s1) as (s' & Hrun & Hlog' & Hlist' & Hframe').
    rewrite Hrun. unfold ret. exists s'. split; [| split; [| split]].
    + do 3 f_equal. apply map_ext_in. intros k' Hin. f_equal.
      apply attempt_local. apply Hframe. intros ->.
      apply Hnotin, list_elem_of_In, Hin.
    + congruence.
    + congruence.
    + intros k' Hk'. rewrite Hframe'.
      * apply Hframe. intros ->. apply Hk'. left.
      * intros Hin. apply Hk'. right. exact Hin.
Qed.

Lemma length_filter_partition (rs : list (string * bool * string)) :
  length (List.filter is_newly_tagged rs) + length (List.filter is_failed rs)
  + length (List.filter is_already_tagged rs) = length rs.
Proof.
  induction rs as [| [[k success] m] rs IH]; simpl; [lia |].
  unfold is_newly_tagged, is_failed, is_already_tagged in *; simpl.
  destruct success, (contains "already exists" m); simpl; lia.
Qed.

(** The loop over the completed attempts never raises: it adds to each
    counter the number of triples of its class, appends its log records
    and touches neither the bucket nor the trace of calls. *)
Lemma count_results_spec bs total rs :
  bs <> 0%Z ->
  forall i c s,
    count_results bs total i (map Return rs) c s
    = (Return (mkCounters
                 (successful c + length (List.filter is_newly_tagged rs))
                 (failed c + length (List.filter is_failed rs))
                 (already_tagged c + length (List.filter is_already_tagged rs))),
       mkState (objects s) (calls s) (log s ++ result_lines bs total i rs)).
Proof.
  intros Hbs. apply Z.eqb_neq in Hbs.
  induction rs as [| [[k success] m] rs IH]; intros i c s.
  - simpl. unfold ret. rewrite !Nat.add_0_r, app_nil_r. destruct c, s. reflexivity.
  - simpl. unfold bind, result, ret, logger. rewrite Hbs.
    unfold is_newly_tagged, is_failed, is_already_tagged in *. simpl.
    destruct success; simpl;
      [ destruct (contains "already exists" m); simpl | ];
      destruct ((Z.of_nat i mod bs =? 0)%Z || (i =? total)%nat); simpl;
      rewrite IH; simpl; rewrite <- ?app_assoc; simpl;
      do 3 f_equal; lia.
Qed.

Lemma result_lines_warning bs total rs k m :
  forall i, WarningFailedToTag k m ∈ result_lines bs total i rs <-> (k, false, m) ∈ rs.
Proof.
  induction rs as [| [[k' success] m'] rs IH]; intros i; simpl.
  - split; intros H; inversion H.
  - unfold is_failed. simpl.
    rewrite !elem_of_app, IH, elem_of_cons.
    destruct success, ((Z.of_nat i mod bs =? 0)%Z || (i =? total)%nat); simpl;
      rewrite ?list_elem_of_singleton, ?elem_of_nil; split; intros H;
      repeat match goal with
             | H : _ \/ _ |- _ => destruct H
             | H : False |- _ => destruct H
             end; simplify_eq; auto.
Qed.

Lemma ThreadPoolExecutor_starts max_workers s :
  (0 < max_workers)%Z -> ThreadPoolExecutor max_workers s = (Return tt, s).
Proof.
  intros Hpos. unfold ThreadPoolExecutor.
  destruct (Z.leb_spec max_workers 0); [lia | reflexivity].
Qed.

(** The tagging phase over distinct keys: it returns the three counts
    of the attempts on the initial tag sets. *)
Lemma tagging_phase_spec env b tk tv mw bs keys :
  (0 < mw)%Z -> bs <> 0%Z ->
  NoDup keys ->
  forall s,
    let rs := map (attempt env b tk tv (objects s)) keys in
    exists s',
      tagging_phase env b tk tv mw bs keys s
      = (Return (mkCounters (length (List.filter is_newly_tagged rs))
                   (length (List.filter is_failed rs))
                   (length (List.filter is_already_tagged rs))), s')
      /\ log s' = log s ++ result_lines bs (length keys) 1 rs
      /\ prefixes_listed (calls s') = prefixes_listed (calls s)
      /\ (forall k', k' ∉ keys -> objects s' !! k' = objects s !! k').
Proof.
  intros Hmw Hbs Hnodup s rs. unfold tagging_phase, bind.
  rewrite (ThreadPoolExecutor_starts mw s Hmw).
  destruct (submit_all_attempts env b tk tv keys Hnodup s)
    as (s1 & Hrun & Hlog & Hlist & Hframe).
  rewrite Hrun. rewrite <- (map_map (attempt env b tk tv (objects s)) Return).
  fold rs. rewrite count_results_spec by exact Hbs. simpl.
  eexists. split; [reflexivity |]. simpl. rewrite Hlog. auto.
Qed.

Lemma submit_all_already env b tk tv keys :
  forall s,
    (forall k, k ∈ keys ->
       get_fault env k = None /\
       exists tags, objects s !! k = Some tags /\ has_tag_key tk tags = true) ->
    submit_all (fun key => tag_single_object env b key tk tv) keys s
    = (Return (map (fun k => Return (k, true, "Tag already exists")) keys),
       mkState (objects s) (calls s ++ map (GetObjectTagging b) keys) (log s)).
Proof.
  induction keys as [| k keys IH]; intros s Hall.
  - simpl. unfold ret. rewrite app_nil_r. destruct s. reflexivity.
  - simpl. unfold bind, submit.
    destruct (Hall k) as (Hf & tags & Ho & Hp); [left |].
    rewrite (tag_single_object_already env b k tk tv s tags Hf Ho Hp).
    rewrite IH.
    + simpl. unfold ret. rewrite <- app_assoc. reflexivity.
    + intros k' Hin. simpl. apply Hall. right. exact Hin.
Qed.

Lemma filter_all_already (keys : list string) :
  let rs := map (fun k => (k, true, "Tag already exists")) keys in
  length (List.filter is_newly_tagged rs) = 0
  /\ length (List.filter is_failed rs) = 0
  /\ length (List.filter is_already_tagged rs) = length keys.
Proof.
  induction keys as [| k keys IH]; simpl; [auto |].
  destruct IH as (H1 & H2 & H3).
  change (is_newly_tagged (k, true, "Tag already exists")) with false.
  change (is_failed (k, true, "Tag already exists")) with false.
  change (is_already_tagged (k, true, "Tag already exists")) with true.
  simpl. auto.
Qed.

Lemma tag_sets_written_gets b keys :
  tag_sets_written (map (GetObjectTagging b) keys) = [].
Proof. induction keys; simpl; auto. Qed.

(** The tagging phase over keys that all carry the target key. *)
Lemma tagging_phase_already env b tk tv mw bs keys s :
  (0 < mw)%Z -> bs <> 0%Z ->
  (forall k, k ∈ keys ->
     get_fault env k = None /\
     exists tags, objects s !! k = Some tags /\ has_tag_key tk tags = true) ->
  exists s',
    tagging_phase env b tk tv mw bs keys s
    = (Return (mkCounters 0 0 (length keys)), s')
    /\ objects s' = objects s
    /\ tag_sets_written (calls s') = tag_sets_written (calls s).
Proof.
  intros Hmw Hbs Hall.
  unfold tagging_phase, bind. rewrite (ThreadPoolExecutor_starts mw s Hmw).
  rewrite (submit_all_already env b tk tv keys s Hall).
  rewrite <- (map_map (fun k => (k, true, "Tag already exists")) Return).
  rewrite count_results_spec by exact Hbs. simpl.
  destruct (filter_all_already keys) as (-> & -> & ->).
  eexists. split; [reflexivity |]. simpl.
  rewrite tag_sets_written_app, tag_sets_written_gets, app_nil_r. auto.
Qed.




Lemma has_tag_key_app tk tags1 tags2 :
  has_tag_key tk (tags1 ++ tags2) = has_tag_key tk tags1 || has_tag_key tk tags2.
Proof. apply existsb_app. Qed.

(** Without faults, an attempt on an existing object leaves it carrying
    the target key. *)
Lemma tag_single_object_tags env b k tk tv s :
  get_fault env k = None -> put_fault env k = None -> is_Some (objects s !! k) ->
  exists tags',
    objects (tag_single_object env b k tk tv s).2 !! k = Some tags'
    /\ has_tag_key tk tags' = true.
Proof.
  intros Hg Hp [tags Ho]. run_tso. rewrite Hg, Ho. simpl.
  destruct (existsb _ tags) eqn:He; simpl.
  - exists tags. auto.
  - rewrite Hp, Ho. simpl. rewrite lookup_insert_eq. eexists. split; [reflexivity |].
    rewrite has_tag_key_app. simpl. rewrite String.eqb_refl.
    apply orb_true_r.
Qed.

Lemma submit_all_tags_all env b tk tv keys :
  NoDup keys ->
  forall s,
    (forall k, k ∈ keys ->
       get_fault env k = None /\ put_fault env k = None /\ is_Some (objects s !! k)) ->
    forall k, k ∈ keys ->
      exists tags',
        objects (submit_all (fun key => tag_single_object env b key tk tv) keys s).2
          !! k = Some tags'
        /\ has_tag_key tk tags' = true.
Proof.
  induction 1 as [| k0 keys Hnotin Hnodup IH]; intros s Hall k Hin.
  - inversion Hin.
  - simpl. unfold bind, submit.
    destruct (Hall k0) as (Hg & Hp & Hsome); [left |].
    pose proof (tag_single_object_tags env b k0 tk tv s Hg Hp Hsome) as Htagged.
    pose proof (tag_single_object_frame env b k0 tk tv s) as Hframe.
    destruct (tag_single_object env b k0 tk tv s) as [r s1]. simpl in *.
    assert (Hall1 : forall k', k' ∈ keys ->
              get_fault env k' = None /\ put_fault env k' = None
              /\ is_Some (objects s1 !! k')).
    { intros k' Hk'. destruct (Hall k') as (? & ? & ?); [right; exact Hk' |].
      rewrite Hframe; [auto |]. intros ->. contradiction. }
    specialize (IH s1 Hall1).
    destruct (submit_all_attempts env b tk tv keys Hnodup s1)
      as (s2 & Hrun & _ & _ & Hframe2).
    rewrite Hrun in IH |- *. simpl in *. unfold ret. simpl.
    apply elem_of_cons in Hin as [-> | Hin].
    + rewrite Hframe2 by exact Hnotin. exact Htagged.
    + apply IH, Hin.
Qed.

(** Running the tagging phase twice over the same distinct, existing
    keys without faults: the second run counts every key as already
    tagged and changes no tag set. *)
Lemma tagging_phase_twice env b tk tv mw bs keys s :
  (0 < mw)%Z -> bs <> 0%Z ->
  NoDup keys ->
  (forall k, k ∈ keys ->
     get_fault env k = None /\ put_fault env k = None /\ is_Some (objects s !! k)) ->
  exists c1 s1 s2,
    tagging_phase env b tk tv mw bs keys s = (Return c1, s1)
    /\ tagging_phase env b tk tv mw bs keys s1
       = (Return (mkCounters 0 0 (length keys)), s2)
    /\ objects s2 = objects s1.
Proof.
  intros Hmw Hbs Hnodup Hall.
  pose proof (submit_all_tags_all env b tk tv keys Hnodup s Hall) as Htagged.
  assert (Hfirst : exists c1 s1,
            tagging_phase env b tk tv mw bs keys s = (Return c1, s1)
            /\ objects s1
               = objects (submit_all (fun key => tag_single_object env b key tk tv)
                            keys s).2).
  { unfold tagging_phase, bind. rewrite (ThreadPoolExecutor_starts mw s Hmw).
    destruct (submit_all_attempts env b tk tv keys Hnodup s) as (s1 & Hrun & _).
    rewrite Hrun. rewrite <- (map_map (attempt env b tk tv (objects s)) Return).
    rewrite count_results_spec by exact Hbs. simpl. eauto. }
  destruct Hfirst as (c1 & s1 & Hrun1 & Hobj1).
  destruct (tagging_phase_already env b tk tv mw bs keys s1 Hmw Hbs)
    as (s2 & Hrun2 & Hobj2 & _).
  { intros k Hin. destruct (Hall k Hin) as (Hg & _ & _). split; [exact Hg |].
    rewrite Hobj1. apply Htagged, Hin. }
  exists c1, s1, s2. auto.
Qed.

(** * The pattern of a location group *)

Lemma re_special_cases c :
  if re_special c then ascii_alnum c = false
  else Ascii.eqb c "\" = false /\ classify c = Some (TChar c).
Proof.
  destruct c as [[] [] [] [] [] [] [] []]; vm_compute; auto.
Qed.

Lemma append_empty_l s : "" +:+ s = s.
Proof. reflexivity. Qed.

Lemma append_String c s t : String c s +:+ t = String c (s +:+ t).
Proof. reflexivity. Qed.

Lemma append_assoc (s1 s2 s3 : string) : (s1 +:+ s2) +:+ s3 = s1 +:+ (s2 +:+ s3).
Proof.
  induction s1 as [| c s1 IH]; [reflexivity |].
  rewrite !append_String, IH. reflexivity.
Qed.

Lemma tokenize_escape s rest :
  tokenize (re_escape s +:+ rest)
  = option_map (app (map TChar (list_ascii_of_string s))) (tokenize rest).
Proof.
  induction s as [| c s IH]; simpl.
  - rewrite append_empty_l. destruct (tokenize rest); reflexivity.
  - pose proof (re_special_cases c) as Hc.
    destruct (re_special c); rewrite !append_String; simpl.
    + rewrite Hc, IH. destruct (tokenize rest); reflexivity.
    + destruct Hc as [-> ->]. rewrite IH. destruct (tokenize rest); reflexivity.
Qed.

Lemma tokenize_extension rest :
  tokenize (".*\.mp4" +:+ rest) = option_map (app extension_tokens) (tokenize rest).
Proof.
  rewrite !append_String, append_empty_l. simpl.
  destruct (tokenize rest); reflexivity.
Qed.

Lemma tokenize_branch fn rest :
  tokenize ((re_escape fn +:+ ".*\.mp4") +:+ rest)
  = option_map (app (branch_tokens fn)) (tokenize rest).
Proof.
  rewrite append_assoc, tokenize_escape, tokenize_extension.
  unfold branch_tokens. destruct (tokenize rest); simpl; [| reflexivity].
  rewrite <- app_assoc. reflexivity.
Qed.

Lemma tokenize_alternation fns rest :
  tokenize (filename_patterns fns +:+ rest)
  = option_map (app (alternation_tokens fns)) (tokenize rest).
Proof.
  unfold filename_patterns.
  induction fns as [| fn fns IH]; simpl.
  - rewrite append_empty_l. destruct (tokenize rest); reflexivity.
  - destruct fns as [| fn' fns].
    + simpl. apply tokenize_branch.
    + change (map (fun fn0 : string => fn0 +:+ ".*\.mp4") (map re_escape (fn' :: fns)))
        with ((re_escape fn' +:+ ".*\.mp4")
              :: map (fun fn0 : string => fn0 +:+ ".*\.mp4") (map re_escape fns)) in *.
      cbv beta iota.
      rewrite append_assoc, tokenize_branch.
      rewrite append_assoc, append_String, append_empty_l.
      change (tokenize (String "|" ?x)) with (option_map (cons TBar) (tokenize x)).
      rewrite IH. destruct (tokenize rest); simpl; [| reflexivity].
      rewrite <- app_assoc. reflexivity.
Qed.

Lemma tokenize_full_pattern location_ fns :
  tokenize (full_pattern location_ fns)
  = Some (TBol :: map TChar (list_ascii_of_string location_)
          ++ TOpen :: alternation_tokens fns ++ [TClose; TEol]).
Proof.
  unfold full_pattern.
  rewrite append_String, append_empty_l.
  change (tokenize (String "^" ?x)) with (option_map (cons TBol) (tokenize x)).
  rewrite tokenize_escape.
  rewrite append_String, append_empty_l.
  change (tokenize (String "(" ?x)) with (option_map (cons TOpen) (tokenize x)).
  rewrite tokenize_alternation. reflexivity.
Qed.

Lemma parse_chars cs ts done cur stack :
  parse (map TChar cs ++ ts) done cur stack
  = parse ts done (rev (map Chr cs) ++ cur) stack.
Proof.
  revert cur. induction cs as [| c cs IH]; intros cur; simpl; [reflexivity |].
  rewrite IH, <- app_assoc. reflexivity.
Qed.

Lemma parse_branch fn ts done cur stack :
  parse (branch_tokens fn ++ ts) done cur stack
  = parse ts done (rev (branch_items fn) ++ cur) stack.
Proof.
  unfold branch_tokens, branch_items.
  rewrite <- app_assoc, parse_chars. simpl.
  rewrite rev_app_distr. simpl. reflexivity.
Qed.

Lemma parse_alternation fns ts done frame stack :
  fns <> [] ->
  parse (alternation_tokens fns ++ TClose :: ts) done [] (frame :: stack)
  = parse ts frame.1
      (foldr Alt (alternation (map (fun fn => seq_of (branch_items fn)) fns)) (rev done)
       :: frame.2) stack.
Proof.
  revert done. induction fns as [| fn fns IH]; intros done Hne; [congruence |].
  destruct fns as [| fn' fns].
  - simpl. rewrite parse_branch. simpl. destruct frame as [done' cur']. simpl.
    unfold close_branches. rewrite app_nil_r, rev_involutive. reflexivity.
  - change (alternation_tokens (fn :: fn' :: fns))
      with (branch_tokens fn ++ TBar :: alternation_tokens (fn' :: fns)).
    rewrite <- app_assoc, parse_branch. simpl app at 1.
    change (parse (TBar :: ?x) ?d ?c ?s) with (parse x (seq_of (rev c) :: d) [] s).
    rewrite IH by discriminate.
    rewrite app_nil_r, rev_involutive.
    change (rev (seq_of (branch_items fn) :: done))
      with (rev done ++ [seq_of (branch_items fn)]).
    rewrite foldr_app. reflexivity.
Qed.

Lemma re_compile_full_pattern location_ fns :
  fns <> [] ->
  re_compile (full_pattern location_ fns) = Some (pattern_regex location_ fns).
Proof.
  intros Hne. unfold re_compile. rewrite tokenize_full_pattern.
  change (parse (TBol :: ?x) [] [] []) with (parse x [] [Bol] []).
  rewrite parse_chars.
  change (parse (TOpen :: ?x) ?d ?c ?s) with (parse x [] [] ((d, c) :: s)).
  rewrite parse_alternation by exact Hne. simpl.
  unfold close_branches, pattern_regex. simpl.
  rewrite rev_app_distr. simpl. rewrite rev_involutive, <- app_assoc. reflexivity.
Qed.

Lemma re_compile_no_filenames location_ :
  re_compile (full_pattern location_ [])
  = Some (seq_of (Bol :: map Chr (list_ascii_of_string location_) ++ [Eps; Eol])).
Proof.
  unfold re_compile. rewrite tokenize_full_pattern.
  change (parse (TBol :: ?x) [] [] []) with (parse x [] [Bol] []).
  rewrite parse_chars. simpl. unfold close_branches. simpl.
  rewrite rev_app_distr. simpl. rewrite rev_involutive, <- app_assoc. reflexivity.
Qed.

(** The pattern the code builds always compiles. *)
Lemma re_compile_succeeds location_ fns :
  exists r, re_compile (full_pattern location_ fns) = Some r.
Proof.
  destruct fns as [| fn fns].
  - eexists. apply re_compile_no_filenames.
  - eexists. apply re_compile_full_pattern. discriminate.
Qed.

Lemma accept_star_dot start s k :
  accept (Star Dot) start s k = iterate_dot k (String.length s) start s.
Proof. reflexivity. Qed.

Lemma accept_chars fn items k :
  forall start s,
    accept (seq_of (map Chr (list_ascii_of_string fn) ++ items)) start s k = true
    <-> exists s', s = fn +:+ s'
                   /\ accept (seq_of items) (start_after start fn) s' k = true.
Proof.
  induction fn as [| c fn IH]; intros start s; simpl.
  - split.
    + intros H. exists s. auto.
    + intros (s' & -> & H). exact H.
  - destruct s as [| a s].
    + split; [discriminate |]. intros (s' & Heq & _). discriminate Heq.
    + rewrite andb_true_iff, IH. split.
      * intros (Hc & s' & -> & H). apply Ascii.eqb_eq in Hc as ->.
        exists s'. split; [reflexivity |]. destruct fn; exact H.
      * intros (s' & Heq & H). rewrite append_String in Heq.
        injection Heq as -> ->. split; [apply Ascii.eqb_refl |].
        exists s'. split; [reflexivity |]. destruct fn; exact H.
Qed.

Lemma iterate_dot_spec k :
  forall fuel start s,
    String.length s <= fuel ->
    iterate_dot k fuel start s = true
    <-> exists mid s', s = mid +:+ s' /\ no_line_feed mid = true
                       /\ k (start_after start mid) s' = true.
Proof.
  induction fuel as [| fuel IH]; intros start s Hlen.
  - destruct s; [| simpl in Hlen; lia]. simpl. rewrite orb_false_r. split.
    + intros H. exists "", "". auto.
    + intros (mid & s' & Heq & _ & H).
      destruct mid; [| discriminate Heq]. rewrite append_empty_l in Heq.
      subst s'. exact H.
  - simpl. rewrite orb_true_iff. split.
    + intros [H | H].
      * exists "", s. auto.
      * destruct s as [| a s]; [discriminate |].
        apply andb_true_iff in H as [Ha H]. apply andb_true_iff in H as [_ H].
        apply IH in H; [| simpl in Hlen; lia].
        destruct H as (mid & s' & -> & Hmid & H).
        exists (String a mid), s'. rewrite append_String. simpl. rewrite Ha, Hmid.
        split; [reflexivity |]. split; [reflexivity |]. destruct mid; exact H.
    + intros (mid & s' & -> & Hmid & H). destruct mid as [| a mid].
      * left. exact H.
      * right. rewrite append_String. simpl in Hmid.
        apply andb_true_iff in Hmid as [Ha Hmid]. rewrite Ha. simpl.
        apply andb_true_iff. split; [apply Nat.ltb_lt; simpl; lia |].
        apply IH; [rewrite append_String in Hlen; simpl in Hlen; lia |].
        exists mid, s'. split; [reflexivity |]. split; [exact Hmid |].
        destruct mid; exact H.
Qed.

Lemma accept_seq_cons r items start s k :
  accept (seq_of (r :: items)) start s k
  = accept r start s (fun start' s' => accept (seq_of items) start' s' k).
Proof. reflexivity. Qed.

Lemma accept_extension k start s :
  accept (seq_of [Chr "."; Chr "m"; Chr "p"; Chr "4"]%char) start s k = true
  <-> exists s', s = ".mp4" +:+ s' /\ k false s' = true.
Proof. apply (accept_chars ".mp4" [] k start s). Qed.

Lemma accept_branch fn k start s :
  accept (seq_of (branch_items fn)) start s k = true
  <-> exists mid s', s = fn +:+ mid +:+ ".mp4" +:+ s'
                     /\ no_line_feed mid = true /\ k false s' = true.
Proof.
  unfold branch_items. rewrite accept_chars. split.
  - intros (s1 & -> & H).
    rewrite accept_seq_cons, accept_star_dot in H.
    apply iterate_dot_spec in H; [| lia].
    destruct H as (mid & s2 & -> & Hmid & H).
    apply accept_extension in H as (s' & -> & H).
    exists mid, s'. auto.
  - intros (mid & s' & -> & Hmid & H).
    exists (mid +:+ ".mp4" +:+ s'). split; [reflexivity |].
    rewrite accept_seq_cons, accept_star_dot.
    apply iterate_dot_spec; [lia |].
    exists mid, (".mp4" +:+ s'). split; [reflexivity |]. split; [exact Hmid |].
    apply accept_extension. exists s'. auto.
Qed.

Lemma accept_alternation branches start s k :
  branches <> [] ->
  accept (alternation branches) start s k = true
  <-> exists b, b ∈ branches /\ accept b start s k = true.
Proof.
  induction branches as [| b branches IH]; intros Hne; [congruence |].
  destruct branches as [| b' branches].
  - simpl. split.
    + intros H. exists b. split; [left | exact H].
    + intros (b0 & Hin & H). apply list_elem_of_singleton in Hin as ->. exact H.
  - change (alternation (b :: b' :: branches))
      with (Alt b (alternation (b' :: branches))).
    simpl accept. rewrite orb_true_iff, IH by discriminate. split.
    + intros [H | (b0 & Hin & H)].
      * exists b. split; [left | exact H].
      * exists b0. split; [right; exact Hin | exact H].
    + intros (b0 & Hin & H). apply elem_of_cons in Hin as [-> | Hin].
      * left. exact H.
      * right. exists b0. auto.
Qed.

Lemma at_end_spec s :
  at_end s = true <-> s = "" \/ s = String line_feed "".
Proof.
  destruct s as [| c [| c' s]]; simpl.
  - split; auto.
  - rewrite Ascii.eqb_eq. split.
    + intros ->. auto.
    + intros [H | H]; [discriminate | congruence].
  - split; [discriminate |]. intros [H | H]; discriminate.
Qed.

Lemma re_match_pattern_regex location_ filenames key :
  filenames <> [] ->
  re_match (pattern_regex location_ filenames) key = true
  <-> matched_form location_ filenames key.
Proof.
  intros Hne. unfold re_match, pattern_regex, matched_form.
  rewrite accept_seq_cons. simpl accept at 1.
  rewrite accept_chars. split.
  - intros (s1 & -> & H).
    rewrite accept_seq_cons in H.
    apply accept_alternation in H; [| destruct filenames; [congruence | discriminate]].
    destruct H as (b & Hin & H).
    apply list_elem_of_fmap in Hin as (fn & -> & Hin).
    apply accept_branch in H as (mid & tail & -> & Hmid & H).
    simpl in H. rewrite andb_true_r in H. apply at_end_spec in H.
    exists fn, mid, tail. auto.
  - intros (fn & mid & tail & Hin & -> & Hmid & Htail).
    exists (fn +:+ mid +:+ ".mp4" +:+ tail). split; [reflexivity |].
    rewrite accept_seq_cons.
    apply accept_alternation; [destruct filenames; [congruence | discriminate] |].
    exists (seq_of (branch_items fn)). split.
    + apply list_elem_of_fmap. exists fn. auto.
    + apply accept_branch. exists mid, tail. split; [reflexivity |].
      split; [exact Hmid |]. simpl. rewrite andb_true_r. apply at_end_spec, Htail.
Qed.

(** * The discovery phase *)

Lemma scan_pages_spec compiled pages :
  forall acc,
    scan_pages compiled pages acc
    = (acc ++ List.filter (re_match compiled) (keys_before_failure pages),
       first_failure pages).
Proof.
  induction pages as [| [Contents | e] pages IH]; intros acc; simpl.
  - rewrite app_nil_r. reflexivity.
  - rewrite IH, List.filter_app, app_assoc. reflexivity.
  - rewrite app_nil_r. reflexivity.
Qed.

(** The task of a location group never raises: it lists its prefix
    once, returns the group's contribution and leaves the bucket as it
    was. *)
Lemma find_objects_for_location_spec env b location_data s :
  find_objects_for_location env b location_data s
  = (Return (location_matches env location_data),
     mkState (objects s)
       (calls s ++ [ListObjectsV2 b (namespaced location_data.1)])
       (log s ++ location_lines env location_data)).
Proof.
  destruct location_data as [location filenames].
  unfold find_objects_for_location, location_lines, location_matches,
    list_matching_objects, pattern_matches. simpl.
  destruct (re_compile_succeeds (namespaced location) filenames) as [compiled ->].
  unfold try_except, bind, logger, issue, ret, raise. simpl.
  rewrite scan_pages_spec. simpl.
  destruct (first_failure (list_pages env (namespaced location)))
    as [[code message | text] |]; simpl;
    rewrite <- ?app_assoc; reflexivity.
Qed.

Lemma submit_all_locations env b groups :
  forall s,
    submit_all (find_objects_for_location env b) groups s
    = (Return (map (fun ld => Return (location_matches env ld)) groups),
       mkState (objects s)
         (calls s ++ map (fun ld => ListObjectsV2 b (namespaced ld.1)) groups)
         (log s ++ concat (map (location_lines env) groups))).
Proof.
  induction groups as [| ld groups IH]; intros s; simpl.
  - unfold ret. rewrite !app_nil_r. destruct s. reflexivity.
  - unfold bind, submit. rewrite find_objects_for_location_spec, IH. simpl.
    unfold ret. rewrite <- !app_assoc. reflexivity.
Qed.

Lemma collect_matches_spec (ms : list (list string)) :
  forall acc s,
    collect_matches (map Return ms) acc s
    = (Return (acc ∪ ⋃ (map list_to_set ms)), s).
Proof.
  induction ms as [| m ms IH]; intros acc s; simpl.
  - unfold ret. rewrite union_empty_r_L. reflexivity.
  - unfold bind, result, ret. rewrite IH, (assoc_L (∪)). reflexivity.
Qed.

Lemma discovery_phase_spec env b w groups s :
  (0 < w)%Z ->
  discovery_phase env b w groups s
  = (Return (discovered env groups),
     mkState (objects s)
       (calls s ++ map (fun ld => ListObjectsV2 b (namespaced ld.1)) groups)
       (log s ++ concat (map (location_lines env) groups))).
Proof.
  intros Hw. unfold discovery_phase, bind.
  rewrite (ThreadPoolExecutor_starts w s Hw), submit_all_locations.
  rewrite <- (map_map (location_matches env) Return).
  rewrite collect_matches_spec. unfold discovered.
  rewrite map_map, union_empty_l_L. reflexivity.
Qed.

Lemma elem_of_discovered env groups key :
  key ∈ discovered env groups
  <-> exists ld, ld ∈ groups /\ key ∈ location_matches env ld.
Proof.
  unfold discovered. rewrite elem_of_union_list. split.
  - intros (X & HX & Hkey). apply list_elem_of_fmap in HX as (ld & -> & Hld).
    exists ld. split; [exact Hld |]. apply elem_of_list_to_set in Hkey. exact Hkey.
  - intros (ld & Hld & Hkey). exists (list_to_set (location_matches env ld)).
    split.
    + apply list_elem_of_fmap. exists ld. auto.
    + apply elem_of_list_to_set. exact Hkey.
Qed.

Lemma prefixes_listed_app cs1 cs2 :
  prefixes_listed (cs1 ++ cs2) = prefixes_listed cs1 ++ prefixes_listed cs2.
Proof. apply omap_app. Qed.

Lemma prefixes_listed_listings b (groups : list (string * list string)) :
  prefixes_listed (map (fun ld => ListObjectsV2 b (namespaced ld.1)) groups)
  = map (fun ld => namespaced ld.1) groups.
Proof. induction groups as [| ld groups IH]; simpl; [| rewrite IH]; reflexivity. Qed.

Lemma pattern_matches_form location_ filenames key :
  filenames <> [] ->
  pattern_matches location_ filenames key = true
  <-> matched_form location_ filenames key.
Proof.
  intros Hne. unfold pattern_matches.
  rewrite re_compile_full_pattern by exact Hne.
  apply re_match_pattern_regex, Hne.
Qed.

(** C4 (as amended): the pattern built for a location group compiles,
    and it matches a key exactly when the key is the namespaced location
    followed by one of the group's filenames (read literally), by any
    characters other than a line feed and by [.mp4], where one line feed
    may still follow at the very end of the key. *)
Theorem discovery_pattern_matches location filenames :
  filenames <> [] ->
  exists compiled_pattern,
    re_compile (full_pattern (namespaced location) filenames) = Some compiled_pattern
    /\ forall key,
         re_match compiled_pattern key = true
         <-> matched_form (namespaced location) filenames key.
Proof.
  intros Hne. exists (pattern_regex (namespaced location) filenames). split.
  - apply re_compile_full_pattern, Hne.
  - intros key. apply re_match_pattern_regex, Hne.
Qed.

Lemma discovery_pattern_matches_witness :
  ["ep01"] <> [] /\
  exists compiled_pattern,
    re_compile (full_pattern (namespaced "ShowA/S01") ["ep01"]) = Some compiled_pattern
    /\ re_match compiled_pattern "TvShows/ShowA/S01/ep01_1080p.mp4" = true
    /\ re_match compiled_pattern "TvShows/ShowA/S01/ep01_720p.mp4" = true.
Proof.
  split; [discriminate |].
  destruct (discovery_pattern_matches "ShowA/S01" ["ep01"]) as (r & Hr & Hmatch);
    [discriminate |].
  exists r. split; [exact Hr |]. split; apply Hmatch.
  - exists "ep01", "_1080p", "". split; [left |]. split; [reflexivity |].
    split; [reflexivity | left; reflexivity].
  - exists "ep01", "_720p", "". split; [left |]. split; [reflexivity |].
    split; [reflexivity | left; reflexivity].
Defined.

(** C4 as stated fails twice over.  "Any characters" is too wide: a key
    of the stated form with a line feed after the filename is not
    matched.  And the keys of the example, which lack the [TvShows/]
    namespace, are not matched by the pattern of their group. *)
Lemma discovery_pattern_not_any_characters :
  ~ (forall location filenames compiled_pattern key,
       filenames <> [] ->
       re_compile (full_pattern (namespaced location) filenames)
       = Some compiled_pattern ->
       (re_match compiled_pattern key = true
        <-> stated_form (namespaced location) filenames key))
  /\ pattern_matches (namespaced "ShowA/S01") ["ep01"] "ShowA/S01/ep01_1080p.mp4"
     = false
  /\ pattern_matches (namespaced "ShowA/S01") ["ep01"] "ShowA/S01/ep01_720p.mp4"
     = false.
Proof.
  split; [| split; reflexivity].
  intros H.
  specialize (H "ShowA/S01" ["ep01"] (pattern_regex (namespaced "ShowA/S01") ["ep01"])
                ("TvShows/ShowA/S01/ep01" +:+ String line_feed "x.mp4")).
  destruct H as [_ H]; [discriminate | reflexivity |].
  assert (Hmatch : re_match (pattern_regex (namespaced "ShowA/S01") ["ep01"])
                     ("TvShows/ShowA/S01/ep01" +:+ String line_feed "x.mp4") = true).
  { apply H. exists "ep01", (String line_feed "x"). split; [left | reflexivity]. }
  vm_compute in Hmatch. discriminate Hmatch.
Qed.

(** C5 (as amended): the discovery phase (with a pool that starts)
    never raises and lists every group, and its match set is the union
    of the groups' contributions.
    A group whose listing does not fail contributes every matching key
    of its pages.  A failed listing is logged; its group contributes the
    matching keys of the pages received before the failure when the
    failure is a [ClientError], and nothing otherwise.  The bucket is not
    changed. *)
Theorem discovery_isolates_failures env b w groups s :
  (0 < w)%Z ->
  exists s',
    discovery_phase env b w groups s = (Return (discovered env groups), s')
    /\ objects s' = objects s
    /\ prefixes_listed (calls s')
       = prefixes_listed (calls s) ++ map (fun ld => namespaced ld.1) groups
    /\ (forall key,
          key ∈ discovered env groups
          <-> exists ld, ld ∈ groups /\ key ∈ location_matches env ld)
    /\ (forall ld, ld ∈ groups ->
          let location_ := namespaced ld.1 in
          match first_failure (list_pages env location_) with
          | None =>
              forall key,
                key ∈ location_matches env ld
                <-> key ∈ keys_before_failure (list_pages env location_)
                    /\ pattern_matches location_ ld.2 key = true
          | Some (ClientError code message) =>
              ErrorListing location_ (ClientError code message) ∈ log s'
              /\ forall key,
                   key ∈ location_matches env ld
                   <-> key ∈ keys_before_failure (list_pages env location_)
                       /\ pattern_matches location_ ld.2 key = true
          | Some (OtherException text) =>
              ErrorProcessingLocation location_ (OtherException text) ∈ log s'
              /\ location_matches env ld = []
          end).
Proof.
  intros Hw.
  rewrite discovery_phase_spec by exact Hw. eexists. split; [reflexivity |]. simpl.
  split; [reflexivity |]. split.
  { rewrite prefixes_listed_app, prefixes_listed_listings. reflexivity. }
  split; [apply elem_of_discovered |].
  intros ld Hld. cbv zeta. set (location_ := namespaced ld.1).
  assert (Hlines : forall l, l ∈ location_lines env ld ->
                     l ∈ log s ++ concat (map (location_lines env) groups)).
  { intros l Hl. apply elem_of_app. right.
    apply list_elem_of_In, in_concat. exists (location_lines env ld). split.
    - apply in_map, list_elem_of_In, Hld.
    - apply list_elem_of_In, Hl. }
  assert (Hfilter : forall key,
            key ∈ List.filter (pattern_matches location_ ld.2)
                    (keys_before_failure (list_pages env location_))
            <-> key ∈ keys_before_failure (list_pages env location_)
                /\ pattern_matches location_ ld.2 key = true).
  { intros key. rewrite !list_elem_of_In. apply filter_In. }
  unfold location_matches. unfold location_lines in Hlines.
  fold location_ in Hlines |- *.
  destruct (first_failure (list_pages env location_)) as [[code message | text] |].
  - split; [| exact Hfilter]. apply Hlines. right. left.
  - split; [| reflexivity]. apply Hlines. right. left.
  - exact Hfilter.
Qed.

Lemma discovery_isolates_failures_witness :
  (0 < 10)%Z /\
  exists s',
    discovery_phase throttled_env "svodvideos" 10 [("ShowA/S01", ["ep01"])]
      (mkState ∅ [] [])
    = (Return (discovered throttled_env [("ShowA/S01", ["ep01"])]), s')
    /\ prefixes_listed (calls s') = ["TvShows/ShowA/S01/"]
    /\ ErrorListing "TvShows/ShowA/S01/"
         (ClientError "SlowDown" "Please reduce your request rate.") ∈ log s'.
Proof.
  split; [lia |].
  destruct (discovery_isolates_failures throttled_env "svodvideos" 10
              [("ShowA/S01", ["ep01"])] (mkState ∅ [] []) ltac:(lia))
    as (s' & Hrun & _ & Hlisted & _ & Hgroups).
  exists s'. split; [exact Hrun |]. split; [exact Hlisted |].
  destruct (Hgroups ("ShowA/S01", ["ep01"])) as [Hlogged _]; [left |].
  exact Hlogged.
Defined.

(** C5 as stated fails: a listing that is throttled after its first
    page still contributes the matches of that page, so the match set
    holds keys that come from no group whose listing succeeded. *)
Lemma discovery_keeps_matches_before_failure :
  ~ (forall env b w groups s found,
       (0 < w)%Z ->
       (discovery_phase env b w groups s).1 = Return found ->
       forall key, key ∈ found ->
         exists ld, ld ∈ groups
                    /\ first_failure (list_pages env (namespaced ld.1)) = None).
Proof.
  intros H.
  destruct (H throttled_env "svodvideos" 10%Z [("ShowA/S01", ["ep01"])]
              (mkState ∅ [] []) (discovered throttled_env [("ShowA/S01", ["ep01"])])
              ltac:(lia) ltac:(rewrite discovery_phase_spec by lia; reflexivity)
              "TvShows/ShowA/S01/ep01_1080p.mp4")
    as (ld & Hld & Hnone).
  - apply elem_of_discovered. exists ("ShowA/S01", ["ep01"]). split; [left |].
    vm_compute. left.
  - discriminate Hnone.
Qed.

(** * The location groups *)

Lemma group_of_append_to location filename groups location' :
  group_of location' (append_to location filename groups)
  = if String.eqb location location'
    then Some (default [] (group_of location groups) ++ [filename])
    else group_of location' groups.
Proof.
  induction groups as [| [l fs] groups IH]; simpl.
  - reflexivity.
  - destruct (String.eqb l location) eqn:Hl; simpl.
    + apply String.eqb_eq in Hl as ->.
      destruct (String.eqb location location'); reflexivity.
    + destruct (String.eqb l location') eqn:Hl'; simpl.
      * apply String.eqb_eq in Hl' as ->. rewrite String.eqb_sym, Hl. reflexivity.
      * exact IH.
Qed.

Lemma append_to_locations location filename groups location' :
  location' ∈ map fst (append_to location filename groups)
  <-> location' = location \/ location' ∈ map fst groups.
Proof.
  induction groups as [| [l fs] groups IH]; simpl.
  - rewrite list_elem_of_singleton, elem_of_nil. tauto.
  - destruct (String.eqb l location) eqn:Hl; simpl.
    + apply String.eqb_eq in Hl as ->. rewrite elem_of_cons. tauto.
    + rewrite !elem_of_cons, IH. tauto.
Qed.

Lemma append_to_NoDup location filename groups :
  NoDup (map fst groups) -> NoDup (map fst (append_to location filename groups)).
Proof.
  induction groups as [| [l fs] groups IH]; simpl; intros Hnd.
  - apply NoDup_singleton.
  - apply NoDup_cons in Hnd as [Hnotin Hnd].
    destruct (String.eqb l location) eqn:Hl; simpl.
    + apply NoDup_cons. auto.
    + apply NoDup_cons. split; [| auto].
      rewrite append_to_locations. intros [-> | Hin]; [| contradiction].
      rewrite String.eqb_refl in Hl. discriminate Hl.
Qed.

Lemma append_to_total location filename groups :
  length (concat (map snd (append_to location filename groups)))
  = S (length (concat (map snd groups))).
Proof.
  induction groups as [| [l fs] groups IH]; simpl.
  - reflexivity.
  - destruct (String.eqb l location); simpl.
    + rewrite !length_app. simpl. lia.
    + rewrite !length_app, IH. lia.
Qed.

Lemma group_of_elem location fs groups :
  NoDup (map fst groups) ->
  (location, fs) ∈ groups <-> group_of location groups = Some fs.
Proof.
  induction groups as [| [l fs'] groups IH]; simpl; intros Hnd.
  - rewrite elem_of_nil. split; [tauto | discriminate].
  - apply NoDup_cons in Hnd as [Hnotin Hnd]. rewrite elem_of_cons, IH by exact Hnd.
    destruct (String.eqb l location) eqn:Hl.
    + apply String.eqb_eq in Hl as ->. split.
      * intros [H | H]; [congruence |]. exfalso. apply Hnotin.
        apply IH in H; [| exact Hnd]. apply list_elem_of_fmap. exists (location, fs). auto.
      * intros H. left. congruence.
    + split.
      * intros [H | H]; [| exact H]. injection H as -> ->.
        rewrite String.eqb_refl in Hl. discriminate Hl.
      * auto.
Qed.

Section Grouping.

Context (df : DataFrame) (object_prefix object_filename : string).

Lemma fold_rows_group_of rs :
  forall groups location,
    group_of location (fold_left (add_row df object_prefix object_filename) rs groups)
    = extend (group_of location groups)
        (filenames_at df object_prefix object_filename location rs).
Proof.
  induction rs as [| row rs IH]; intros groups location; simpl.
  - reflexivity.
  - rewrite IH. unfold add_row at 1. rewrite group_of_append_to.
    unfold filenames_at. simpl.
    destruct (String.eqb (row_location df object_prefix row) location) eqn:Hl; simpl.
    + apply String.eqb_eq in Hl. subst location.
      destruct (map _ (List.filter _ rs)); simpl; [reflexivity |].
      rewrite <- app_assoc. reflexivity.
    + reflexivity.
Qed.

Lemma fold_rows_NoDup rs :
  forall groups,
    NoDup (map fst groups) -> NoDup (map fst (fold_left (add_row df object_prefix object_filename) rs groups)).
Proof.
  induction rs as [| row rs IH]; intros groups Hnd; simpl; [exact Hnd |].
  apply IH, append_to_NoDup, Hnd.
Qed.

Lemma fold_rows_total rs :
  forall groups,
    length (concat (map snd (fold_left (add_row df object_prefix object_filename) rs groups)))
    = length (concat (map snd groups)) + length rs.
Proof.
  induction rs as [| row rs IH]; intros groups; simpl; [lia |].
  rewrite IH. unfold add_row. rewrite append_to_total. lia.
Qed.

End Grouping.
Lemma dropna_rows df p f :
  rows (dropna [p; f] df) = List.filter (complete df p f) (rows df).
Proof.
  unfold dropna, complete. simpl. apply filter_ext. intros row.
  rewrite andb_true_r. reflexivity.
Qed.

Lemma group_rows_fold df p f :
  group_rows p f (dropna [p; f] df)
  = fold_left (add_row df p f) (List.filter (complete df p f) (rows df)) [].
Proof. unfold group_rows. rewrite dropna_rows. reflexivity. Qed.

Lemma group_rows_group_of df p f location :
  group_of location (group_rows p f (dropna [p; f] df))
  = extend None
      (filenames_at df p f location (List.filter (complete df p f) (rows df))).
Proof. rewrite group_rows_fold. apply (fold_rows_group_of df p f). Qed.

Lemma group_rows_NoDup df p f :
  NoDup (map fst (group_rows p f (dropna [p; f] df))).
Proof.
  rewrite group_rows_fold. apply (fold_rows_NoDup df p f). apply NoDup_nil_2.
Qed.

Lemma group_rows_total df p f :
  length (concat (map snd (group_rows p f (dropna [p; f] df))))
  = length (List.filter (complete df p f) (rows df)).
Proof. rewrite group_rows_fold. apply (fold_rows_total df p f). Qed.

Lemma filenames_at_elem df p f row rs :
  row ∈ rs ->
  row_filename df f row ∈ filenames_at df p f (row_location df p row) rs.
Proof.
  intros Hin. unfold filenames_at. apply list_elem_of_fmap. exists row.
  split; [reflexivity |]. apply list_elem_of_In, filter_In. split.
  - apply list_elem_of_In, Hin.
  - apply String.eqb_refl.
Qed.

(** No group is empty. *)
Lemma group_rows_nonempty df p f location fs :
  (location, fs) ∈ group_rows p f (dropna [p; f] df) -> fs <> [].
Proof.
  intros Hin. apply group_of_elem in Hin; [| apply group_rows_NoDup].
  rewrite group_rows_group_of in Hin.
  destruct (filenames_at df p f location _); [discriminate Hin |].
  simpl in Hin. injection Hin as <-. discriminate.
Qed.

(** The locations of the groups are those of the complete rows. *)
Lemma group_rows_locations df p f location :
  location ∈ map fst (group_rows p f (dropna [p; f] df))
  <-> exists row, row ∈ rows df /\ complete df p f row = true
                  /\ row_location df p row = location.
Proof.
  split.
  - intros Hin. apply list_elem_of_fmap in Hin as ([l fs] & -> & Hin). simpl.
    apply group_of_elem in Hin; [| apply group_rows_NoDup].
    rewrite group_rows_group_of in Hin. unfold filenames_at in Hin.
    destruct (List.filter _ (List.filter _ _)) as [| row rs] eqn:Hf;
      [discriminate Hin |].
    assert (Hrow : In row (List.filter
                             (fun row => String.eqb (row_location df p row) l)
                             (List.filter (complete df p f) (rows df)))).
    { rewrite Hf. left. reflexivity. }
    apply filter_In in Hrow as [Hrow Hl]. apply filter_In in Hrow as [Hrow Hc].
    exists row. split; [apply list_elem_of_In, Hrow |]. split; [exact Hc |].
    apply String.eqb_eq, Hl.
  - intros (row & Hin & Hc & <-).
    assert (Hf : row_filename df f row
                 ∈ filenames_at df p f (row_location df p row)
                     (List.filter (complete df p f) (rows df))).
    { apply filenames_at_elem, list_elem_of_In, filter_In. split; [| exact Hc].
      apply list_elem_of_In, Hin. }
    pose proof (group_rows_group_of df p f (row_location df p row)) as Hg.
    destruct (filenames_at df p f (row_location df p row) _) as [| fn fns];
      [inversion Hf |].
    simpl in Hg. apply group_of_elem in Hg; [| apply group_rows_NoDup].
    apply list_elem_of_fmap. eexists. split; [| exact Hg]. reflexivity.
Qed.

(** * The whole run *)

Section Run.

Context (env : Env).
Context (csv_file_path b p f tk tv : string) (mw bs mlw : Z).

Lemma run_unreadable e s :
  read_csv env csv_file_path = inl e ->
  tag_objects_by_pattern env csv_file_path b p f tk tv mw bs mlw s
  = (Return tt,
     mkState (objects s) (calls s)
       (log s ++ [InfoReadingCsv csv_file_path; ErrorReadingCsv e])).
Proof.
  intros Hread. unfold tag_objects_by_pattern, bind, logger, ret. simpl.
  rewrite Hread. simpl. rewrite <- app_assoc. reflexivity.
Qed.

Lemma run_missing_column df s :
  read_csv env csv_file_path = inr df ->
  has_column df p && has_column df f = false ->
  tag_objects_by_pattern env csv_file_path b p f tk tv mw bs mlw s
  = (Return tt,
     mkState (objects s) (calls s)
       (log s ++ [InfoReadingCsv csv_file_path; ErrorColumnsNotFound p f;
                  InfoAvailableColumns (columns df)])).
Proof.
  intros Hread Hcols. unfold tag_objects_by_pattern, bind, logger, ret. simpl.
  rewrite Hread. rewrite <- negb_andb, Hcols. simpl.
  rewrite <- !app_assoc. reflexivity.
Qed.

Lemma run_no_matches df s :
  (0 < mlw)%Z ->
  read_csv env csv_file_path = inr df ->
  has_column df p && has_column df f = true ->
  let df_clean := dropna [p; f] df in
  let groups := group_rows p f df_clean in
  elements (discovered env groups) = [] ->
  tag_objects_by_pattern env csv_file_path b p f tk tv mw bs mlw s
  = (Return tt,
     mkState (objects s) (calls s ++ listing_calls b groups)
       (log s ++ discovery_log env csv_file_path (length (rows df_clean)) groups 0
        ++ [WarningNoMatchingObjects])).
Proof.
  intros Hmlw Hread Hcols df_clean groups Hnone.
  unfold tag_objects_by_pattern, bind, logger, ret. simpl.
  rewrite Hread. rewrite <- negb_andb, Hcols. simpl.
  fold df_clean. fold groups. rewrite discovery_phase_spec by exact Hmlw. simpl.
  rewrite Hnone. simpl. unfold discovery_log, listing_calls.
  rewrite <- !app_assoc. reflexivity.
Qed.

Lemma run_tagging df s :
  valid_config mw bs mlw ->
  read_csv env csv_file_path = inr df ->
  has_column df p && has_column df f = true ->
  let df_clean := dropna [p; f] df in
  let groups := group_rows p f df_clean in
  let found := elements (discovered env groups) in
  let rs := map (attempt env b tk tv (objects s)) found in
  found <> [] ->
  exists s',
    tag_objects_by_pattern env csv_file_path b p f tk tv mw bs mlw s = (Return tt, s')
    /\ log s' = log s
                ++ discovery_log env csv_file_path (length (rows df_clean)) groups
                     (length found)
                ++ [InfoPhase2] ++ result_lines bs (length found) 1 rs
                ++ summary_log (length (rows df_clean)) (length groups) found rs
    /\ prefixes_listed (calls s')
       = prefixes_listed (calls s) ++ map (fun ld => namespaced ld.1) groups
    /\ (forall k, k ∉ found -> objects s' !! k = objects s !! k).
Proof.
  intros (Hmw & Hbs & Hmlw) Hread Hcols. cbv zeta.
  set (df_clean := dropna [p; f] df). set (groups := group_rows p f df_clean).
  remember (elements (discovered env groups)) as found eqn:Hfound.
  intros Hsome.
  assert (Hnd : NoDup found) by (subst found; apply NoDup_elements).
  unfold tag_objects_by_pattern, bind, logger, ret. simpl.
  rewrite Hread. rewrite <- negb_andb, Hcols. simpl.
  fold df_clean. fold groups. rewrite discovery_phase_spec by exact Hmlw. simpl.
  rewrite <- Hfound. destruct found as [| key keys]; [congruence |].
  match goal with
  | |- context [tagging_phase env b tk tv mw bs (key :: keys) ?s1] =>
      destruct (tagging_phase_spec env b tk tv mw bs (key :: keys) Hmw Hbs Hnd s1)
        as (s2 & Hrun & Hlog & Hlist & Hframe)
  end.
  rewrite Hrun. eexists. split; [reflexivity |]. split; [| split].
  - cbn [log]. rewrite Hlog. cbn [log objects]. unfold discovery_log, summary_log.
    rewrite <- !app_assoc. reflexivity.
  - cbn [calls]. rewrite Hlist. cbn [calls].
    rewrite prefixes_listed_app, prefixes_listed_listings. reflexivity.
  - cbn [objects]. exact Hframe.
Qed.

End Run.




Lemma location_lines_not_tagging env ld l :
  l ∈ location_lines env ld -> tagging_record l = false.
Proof.
  unfold location_lines.
  destruct (first_failure _) as [[code message | text] |]; intros Hin;
    repeat (apply elem_of_cons in Hin as [-> | Hin]; [reflexivity |]);
    inversion Hin.
Qed.

Lemma discovery_log_not_tagging env path nrows groups nfound l :
  l ∈ discovery_log env path nrows groups nfound -> tagging_record l = false.
Proof.
  unfold discovery_log. rewrite !elem_of_app. intros [Hin | [Hin | Hin]].
  - repeat (apply elem_of_cons in Hin as [-> | Hin]; [reflexivity |]). inversion Hin.
  - apply list_elem_of_In, in_concat in Hin as (lines & Hlines & Hin).
    apply in_map_iff in Hlines as (ld & <- & _).
    apply (location_lines_not_tagging env ld), list_elem_of_In, Hin.
  - apply list_elem_of_singleton in Hin as ->. reflexivity.
Qed.

Lemma tagging_calls_app cs1 cs2 :
  tagging_calls (cs1 ++ cs2) = tagging_calls cs1 ++ tagging_calls cs2.
Proof. apply List.filter_app. Qed.

Lemma tagging_calls_listing b groups : tagging_calls (listing_calls b groups) = [].
Proof. induction groups as [| ld groups IH]; simpl; auto. Qed.

Lemma tag_sets_written_listing b groups :
  tag_sets_written (listing_calls b groups) = [].
Proof. induction groups as [| ld groups IH]; simpl; auto. Qed.

(** C10: a run whose discovery phase finds no object returns after the
    warning that nothing matched: it issues no get-tags and no put-tags
    call, leaves every tag set as it was, and logs no record of the
    tagging phase, in particular no summary. *)
Theorem run_without_matches_skips_tagging
    env csv_file_path b p f tk tv mw bs mlw df s :
  (0 < mlw)%Z ->
  read_csv env csv_file_path = inr df ->
  has_column df p && has_column df f = true ->
  discovered env (group_rows p f (dropna [p; f] df)) = ∅ ->
  let (r, s') := tag_objects_by_pattern env csv_file_path b p f tk tv mw bs mlw s in
  r = Return tt
  /\ objects s' = objects s
  /\ tagging_calls (calls s') = tagging_calls (calls s)
  /\ tag_sets_written (calls s') = tag_sets_written (calls s)
  /\ exists lines,
       log s' = log s ++ lines ++ [WarningNoMatchingObjects]
       /\ forall l, l ∈ lines -> tagging_record l = false /\ is_summary l = false.
Proof.
  intros Hmlw Hread Hcols Hempty.
  rewrite (run_no_matches env csv_file_path b p f tk tv mw bs mlw df s
             Hmlw Hread Hcols)
    by (rewrite Hempty; apply elements_empty).
  cbn [objects calls log]. split; [reflexivity |]. split; [reflexivity |].
  split; [rewrite tagging_calls_app, tagging_calls_listing, app_nil_r; reflexivity |].
  split.
  { rewrite tag_sets_written_app, tag_sets_written_listing, app_nil_r.
    reflexivity. }
  eexists. split; [reflexivity |]. intros l Hl.
  apply discovery_log_not_tagging in Hl. destruct l; try discriminate Hl; auto.
Qed.

Lemma run_without_matches_skips_tagging_witness :
  let (r, s') := main empty_listing_env both_objects in
  r = Return tt
  /\ objects s' = objects both_objects
  /\ tagging_calls (calls s') = tagging_calls (calls both_objects)
  /\ tag_sets_written (calls s') = tag_sets_written (calls both_objects)
  /\ exists lines,
       log s' = log both_objects ++ lines ++ [WarningNoMatchingObjects]
       /\ forall l, l ∈ lines -> tagging_record l = false /\ is_summary l = false.
Proof.
  apply (run_without_matches_skips_tagging empty_listing_env
           "delete_data/Videos-Test.csv" "svodvideos" "location_folder" "location_file"
           "PERMANENT_DELETE" "CONFIRMED" 50 100 10 scenario_table both_objects).
  - lia.
  - reflexivity.
  - reflexivity.
  - vm_compute. reflexivity.
Defined.
(** A run under a valid configuration never raises. *)
Lemma tag_objects_by_pattern_returns env csv_file_path b p f tk tv mw bs mlw s :
  valid_config mw bs mlw ->
  exists s',
    tag_objects_by_pattern env csv_file_path b p f tk tv mw bs mlw s = (Return tt, s').
Proof.
  intros Hvalid.
  destruct (read_csv env csv_file_path) as [e | df] eqn:Hread.
  - eexists. apply run_unreadable, Hread.
  - destruct (has_column df p && has_column df f) eqn:Hcols.
    + destruct (elements (discovered env (group_rows p f (dropna [p; f] df))))
        as [| key keys] eqn:Hfound.
      * eexists.
        apply (run_no_matches _ _ _ _ _ _ _ _ _ _ df s (proj2 (proj2 Hvalid))
                 Hread Hcols Hfound).
      * destruct (run_tagging env csv_file_path b p f tk tv mw bs mlw df s
                    Hvalid Hread Hcols)
          as (s' & Hrun & _); [rewrite Hfound; discriminate |].
        exists s'. exact Hrun.
    + eexists. apply (run_missing_column _ _ _ _ _ _ _ _ _ _ df s Hread Hcols).
Qed.

(** C6: the groups are built from the rows that have a value in both
    columns and from no other row.  A row with a missing value is not
    among the rows grouped; the locations are pairwise distinct; the
    group of a location holds exactly the filenames of the complete rows
    at that location, in row order, so that a complete row is in the
    group of its own location and in no other, and the groups together
    hold one entry per complete row.  Whatever the table holds, a run
    over it under a valid configuration returns normally. *)
Theorem group_rows_drops_incomplete_rows df p f :
  let df_clean := dropna [p; f] df in
  let location_groups := group_rows p f df_clean in
  rows df_clean = List.filter (complete df p f) (rows df)
  /\ (forall row,
        cell df row p = None \/ cell df row f = None -> row ∉ rows df_clean)
  /\ NoDup (map fst location_groups)
  /\ (forall location,
        group_of location location_groups
        = match filenames_at df p f location (rows df_clean) with
          | [] => None
          | fs => Some fs
          end)
  /\ (forall row,
        row ∈ rows df -> complete df p f row = true ->
        exists fs,
          (row_location df p row, fs) ∈ location_groups
          /\ row_filename df f row ∈ fs
          /\ forall location' fs',
               (location', fs') ∈ location_groups ->
               (location', fs') <> (row_location df p row, fs) ->
               location' <> row_location df p row)
  /\ length (concat (map snd location_groups)) = length (rows df_clean)
  /\ (forall env csv_file_path b tk tv mw bs mlw s,
        valid_config mw bs mlw ->
        read_csv env csv_file_path = inr df ->
        exists s',
          tag_objects_by_pattern env csv_file_path b p f tk tv mw bs mlw s
          = (Return tt, s')).
Proof.
  intros df_clean location_groups. subst df_clean location_groups.
  pose proof (group_rows_NoDup df p f) as Hnd.
  split; [apply dropna_rows |]. split.
  { intros row Hmissing Hin. rewrite dropna_rows in Hin.
    apply list_elem_of_In, filter_In in Hin as [_ Hc]. unfold complete in Hc.
    destruct Hmissing as [H | H]; rewrite H in Hc; simpl in Hc;
      [discriminate | rewrite andb_false_r in Hc; discriminate]. }
  split; [exact Hnd |]. split.
  { intros location. rewrite group_rows_group_of, dropna_rows.
    destruct (filenames_at df p f location _); reflexivity. }
  split.
  { intros row Hin Hc.
    assert (Hf : row_filename df f row
                 ∈ filenames_at df p f (row_location df p row)
                     (List.filter (complete df p f) (rows df))).
    { apply filenames_at_elem, list_elem_of_In, filter_In. split; [| exact Hc].
      apply list_elem_of_In, Hin. }
    pose proof (group_rows_group_of df p f (row_location df p row)) as Hg.
    destruct (filenames_at df p f (row_location df p row) _) as [| fn fns] eqn:Hfs;
      [inversion Hf |].
    simpl in Hg. exists (fn :: fns). split; [apply group_of_elem; assumption |].
    split; [exact Hf |].
    intros location' fs' Hin' Hne Heq. subst location'. apply Hne. f_equal.
    apply group_of_elem in Hin'; [| exact Hnd]. congruence. }
  split; [rewrite group_rows_total, dropna_rows; reflexivity |].
  intros env csv_file_path b tk tv mw bs mlw s Hvalid _.
  apply tag_objects_by_pattern_returns, Hvalid.
Qed.

Lemma group_rows_drops_incomplete_rows_witness :
  rows (dropna ["location_folder"; "location_file"] incomplete_table)
  = [[Some "1"; Some "ShowA/S01"; Some "ep01"];
     [Some "4"; Some "/ShowA/S01/"; Some "ep04"]]
  /\ group_of "ShowA/S01"
       (group_rows "location_folder" "location_file"
          (dropna ["location_folder"; "location_file"] incomplete_table))
     = Some ["ep01"; "ep04"]
  /\ length (concat (map snd
               (group_rows "location_folder" "location_file"
                  (dropna ["location_folder"; "location_file"] incomplete_table))))
     = 2.
Proof.
  destruct (group_rows_drops_incomplete_rows incomplete_table
              "location_folder" "location_file")
    as (Hrows & _ & _ & Hgroup & _ & Htotal & _).
  split; [rewrite Hrows; reflexivity |].
  split; [rewrite Hgroup; reflexivity |].
  rewrite Htotal, Hrows. reflexivity.
Defined.

(** The listings of a run that read its table: one per group. *)
Lemma run_listings env csv_file_path b p f tk tv mw bs mlw df s :
  valid_config mw bs mlw ->
  read_csv env csv_file_path = inr df ->
  has_column df p && has_column df f = true ->
  prefixes_listed
    (calls (tag_objects_by_pattern env csv_file_path b p f tk tv mw bs mlw s).2)
  = prefixes_listed (calls s)
    ++ map (fun ld => namespaced ld.1) (group_rows p f (dropna [p; f] df)).
Proof.
  intros Hvalid Hread Hcols.
  destruct (elements (discovered env (group_rows p f (dropna [p; f] df))))
    as [| key keys] eqn:Hfound.
  - rewrite (run_no_matches _ _ _ _ _ _ _ _ _ _ df s (proj2 (proj2 Hvalid))
               Hread Hcols Hfound).
    cbn [snd calls]. unfold listing_calls.
    rewrite prefixes_listed_app, prefixes_listed_listings. reflexivity.
  - destruct (run_tagging env csv_file_path b p f tk tv mw bs mlw df s
                Hvalid Hread Hcols)
      as (s' & Hrun & _ & Hlist & _); [rewrite Hfound; discriminate |].
    rewrite Hrun. exact Hlist.
Qed.


Lemma main_config_valid : valid_config 50 100 10.
Proof. unfold valid_config. lia. Qed.






Lemma discovery_log_phase1 env path nrows groups nfound :
  InfoPhase1 ∈ discovery_log env path nrows groups nfound.
Proof. unfold discovery_log. apply elem_of_app. left. do 3 right. left. Qed.

Lemma location_lines_failure env ld e :
  first_failure (list_pages env (namespaced ld.1)) = Some e ->
  ErrorListing (namespaced ld.1) e ∈ location_lines env ld
  \/ ErrorProcessingLocation (namespaced ld.1) e ∈ location_lines env ld.
Proof.
  intros He. unfold location_lines. rewrite He.
  destruct e as [code message | text]; [left | right]; right; left.
Qed.

Lemma discovery_log_failure env path nrows groups nfound ld e :
  ld ∈ groups ->
  first_failure (list_pages env (namespaced ld.1)) = Some e ->
  ErrorListing (namespaced ld.1) e ∈ discovery_log env path nrows groups nfound
  \/ ErrorProcessingLocation (namespaced ld.1) e
     ∈ discovery_log env path nrows groups nfound.
Proof.
  intros Hld He.
  assert (Hsub : forall l, l ∈ location_lines env ld ->
                   l ∈ discovery_log env path nrows groups nfound).
  { intros l Hl. unfold discovery_log. rewrite !elem_of_app. right. left.
    apply list_elem_of_In, in_concat. exists (location_lines env ld). split.
    - apply in_map, list_elem_of_In, Hld.
    - apply list_elem_of_In, Hl. }
  destruct (location_lines_failure env ld e He); [left | right]; auto.
Qed.

(** C8 (as amended): a run under a valid configuration never raises.
    It stops before the discovery phase exactly when the table cannot be
    read or lacks a required column, and then issues no remote call.  Otherwise every failed
    listing is logged as an error; and when objects were found, the
    summary counts every attempt once, its failed count is the number of
    attempts that returned success=false, and each of these is logged as
    a warning. *)
Theorem only_fatal_input_stops_the_run env csv_file_path b p f tk tv mw bs mlw s :
  valid_config mw bs mlw ->
  exists s' lines,
    tag_objects_by_pattern env csv_file_path b p f tk tv mw bs mlw s = (Return tt, s')
    /\ log s' = log s ++ lines
    /\ (InfoPhase1 ∉ lines <-> fatal_input env csv_file_path p f)
    /\ (fatal_input env csv_file_path p f ->
          calls s' = calls s /\ objects s' = objects s)
    /\ forall df,
         read_csv env csv_file_path = inr df ->
         has_column df p && has_column df f = true ->
         let location_groups := group_rows p f (dropna [p; f] df) in
         let found := elements (discovered env location_groups) in
         let rs := map (attempt env b tk tv (objects s)) found in
         (forall ld e,
            ld ∈ location_groups ->
            first_failure (list_pages env (namespaced ld.1)) = Some e ->
            ErrorListing (namespaced ld.1) e ∈ lines
            \/ ErrorProcessingLocation (namespaced ld.1) e ∈ lines)
         /\ (found <> [] ->
               InfoSummary (length (rows (dropna [p; f] df))) (length location_groups)
                 (length found)
                 (length (List.filter is_newly_tagged rs))
                 (length (List.filter is_already_tagged rs))
                 (length (List.filter is_failed rs)) ∈ lines
               /\ length (List.filter is_newly_tagged rs)
                  + length (List.filter is_failed rs)
                  + length (List.filter is_already_tagged rs) = length found
               /\ forall k m, (k, false, m) ∈ rs -> WarningFailedToTag k m ∈ lines).
Proof.
  intros Hvalid.
  destruct (read_csv env csv_file_path) as [e | df] eqn:Hread.
  { eexists. eexists. split; [apply run_unreadable, Hread |].
    cbn [log calls objects]. split; [reflexivity |].
    unfold fatal_input. rewrite Hread. split; [| split].
    - split; [auto |]. intros _ Hin.
      repeat (apply elem_of_cons in Hin as [Hin | Hin]; [discriminate Hin |]).
      inversion Hin.
    - auto.
    - intros df Hdf. discriminate Hdf. }
  destruct (has_column df p && has_column df f) eqn:Hcols.
  2: { eexists. eexists.
       split; [apply (run_missing_column _ _ _ _ _ _ _ _ _ _ df s Hread Hcols) |].
       cbn [log calls objects]. split; [reflexivity |].
       unfold fatal_input. rewrite Hread, Hcols. split; [| split].
       - split; [auto |]. intros _ Hin.
         repeat (apply elem_of_cons in Hin as [Hin | Hin]; [discriminate Hin |]).
         inversion Hin.
       - auto.
       - intros df' Hdf' Hcols'. injection Hdf' as <-. congruence. }
  assert (Hnot : ~ fatal_input env csv_file_path p f).
  { unfold fatal_input. rewrite Hread, Hcols. discriminate. }
  destruct (elements (discovered env (group_rows p f (dropna [p; f] df))))
    as [| key keys] eqn:Hfound.
  - eexists. eexists.
    split; [apply (run_no_matches _ _ _ _ _ _ _ _ _ _ df s (proj2 (proj2 Hvalid))
                     Hread Hcols Hfound) |].
    cbn [log calls objects]. split; [reflexivity |]. split; [| split].
    + split; [| tauto]. intros Hnotin. exfalso. apply Hnotin.
      apply elem_of_app. left. apply discovery_log_phase1.
    + tauto.
    + intros df' Hdf' _. injection Hdf' as <-. cbv zeta. rewrite Hfound. split.
      * intros ld e0 Hld He.
        destruct (discovery_log_failure env csv_file_path
                    (length (rows (dropna [p; f] df)))
                    (group_rows p f (dropna [p; f] df)) 0 ld e0 Hld He);
          [left | right]; apply elem_of_app; left; assumption.
      * congruence.
  - destruct (run_tagging env csv_file_path b p f tk tv mw bs mlw df s
                Hvalid Hread Hcols)
      as (s' & Hrun & Hlog & _); [rewrite Hfound; discriminate |].
    exists s'. eexists. split; [exact Hrun |]. split; [exact Hlog |].
    split; [| split].
    + split; [| tauto]. intros Hnotin. exfalso. apply Hnotin.
      apply elem_of_app. left. apply discovery_log_phase1.
    + tauto.
    + intros df' Hdf' _. injection Hdf' as <-. cbv zeta. split.
      * intros ld e0 Hld He.
        destruct (discovery_log_failure env csv_file_path
                    (length (rows (dropna [p; f] df)))
                    (group_rows p f (dropna [p; f] df))
                    (length (elements
                               (discovered env (group_rows p f (dropna [p; f] df)))))
                    ld e0 Hld He);
          [left | right]; apply elem_of_app; left; assumption.
      * intros _. split; [| split].
        -- rewrite !elem_of_app. do 3 right. left.
        -- rewrite length_filter_partition. apply length_map.
        -- intros k m Hin. rewrite !elem_of_app. right. right. left.
           apply result_lines_warning, Hin.
Qed.

Lemma only_fatal_input_stops_the_run_witness :
  valid_config 50 100 10 /\
  exists s' lines,
    main scenario_env first_object_only = (Return tt, s')
    /\ log s' = log first_object_only ++ lines
    /\ (InfoPhase1 ∉ lines
        <-> fatal_input scenario_env "delete_data/Videos-Test.csv"
              "location_folder" "location_file")
    /\ WarningFailedToTag "TvShows/ShowA/S01/ep01_720p.mp4" "Object not found"
       ∈ lines.
Proof.
  split; [exact main_config_valid |].
  destruct (only_fatal_input_stops_the_run scenario_env
              "delete_data/Videos-Test.csv" "svodvideos" "location_folder"
              "location_file" "PERMANENT_DELETE" "CONFIRMED" 50 100 10
              first_object_only main_config_valid)
    as (s' & lines & Hrun & Hlog & Hfatal & _ & Hrest).
  exists s', lines. split; [exact Hrun |]. split; [exact Hlog |].
  split; [exact Hfatal |].
  destruct (Hrest scenario_table eq_refl eq_refl) as (_ & Hcount).
  apply Hcount; [vm_compute; discriminate |].
  vm_compute. first [left | right; left].
Defined.

(** C8 as stated fails on "counted" for the errors of a group: no
    counter records a failed listing.  Two runs over the same table and
    bucket, in one of which the listing of the second location is
    refused, log the same summary.  It also fails on "if and only if"
    when the discovery pool is given no worker: the table is read and
    has both columns, and the run raises before any listing. *)
Lemma listing_failures_are_not_counted :
  ~ (forall env1 env2 s location_groups,
       List.filter is_summary (log (main env1 s).2)
       = List.filter is_summary (log (main env2 s).2) ->
       failed_listings env1 location_groups = failed_listings env2 location_groups)
  /\ List.filter is_summary (log (main scenario_env both_objects).2)
     = [InfoSummary 3 2 2 2 0 0]
  /\ List.filter is_summary (log (main second_listing_fails_env both_objects).2)
     = [InfoSummary 3 2 2 2 0 0]
  /\ (let (r, s') :=
         tag_objects_by_pattern scenario_env "delete_data/Videos-Test.csv"
           "svodvideos" "location_folder" "location_file"
           "PERMANENT_DELETE" "CONFIRMED" 50 100 0 both_objects in
       r = Raise (OtherException "max_workers must be greater than 0")
       /\ calls s' = []
       /\ ~ fatal_input scenario_env "delete_data/Videos-Test.csv"
             "location_folder" "location_file").
Proof.
  split; [| split; [| split]]; try (vm_compute; reflexivity).
  2: { vm_compute. split; [reflexivity |]. split; [reflexivity |]. discriminate. }
  intros H.
  specialize (H scenario_env second_listing_fails_env both_objects
                [("ShowA/S01", ["ep01"; "ep02"]); ("ShowB/S01", ["ep01"])]
                ltac:(vm_compute; reflexivity)).
  vm_compute in H. discriminate H.
Qed.

(** * Further properties of [tag_single_object] *)

(** X1: every exception is caught: an attempt returns a triple that carries
    its own key, writes no log record, and issues the get-tags call on
    its key followed by at most one put-tags call on the same key. *)
Theorem tag_single_object_catches_everything env b k tk tv s :
  exists success message s',
    tag_single_object env b k tk tv s = (Return (k, success, message), s')
    /\ log s' = log s
    /\ (calls s' = calls s ++ [GetObjectTagging b k]
        \/ exists tags,
             calls s' = calls s ++ [GetObjectTagging b k; PutObjectTagging b k tags]).
Proof.
  tso_cases env k s; do 3 eexists; (split; [reflexivity |]); simpl;
    (split; [reflexivity |]); rewrite <- ?app_assoc; simpl; eauto.
Qed.

(** X2: a reported success is one of the two success messages and leaves the
    object carrying the target key; a reported failure leaves every tag
    set of the bucket as it was. *)
Theorem tag_single_object_success_means_tagged env b k tk tv s :
  let (r, s') := tag_single_object env b k tk tv s in
  match r with
  | Return (_, true, message) =>
      (message = "Tag already exists" \/ message = "Successfully tagged")
      /\ exists tags', objects s' !! k = Some tags' /\ has_tag_key tk tags' = true
  | Return (_, false, _) => objects s' = objects s
  | Raise _ => False
  end.
Proof.
  unfold has_tag_key.
  tso_cases env k s; try reflexivity;
    (split; [auto |]); rewrite ?lookup_insert_eq; eexists; (split; [eauto |]);
    rewrite ?existsb_app; simpl; rewrite ?String.eqb_refl, ?orb_true_r; auto.
Qed.

(** X3: when an attempt issues a put-tags call: exactly when get-tags
    answered with a tag set that lacks the target key, or failed with a
    remote error other than not-found. *)
Theorem tag_single_object_writes_exactly_when env b k tk tv s :
  let s' := (tag_single_object env b k tk tv s).2 in
  tag_sets_written (calls s') <> tag_sets_written (calls s)
  <-> (get_fault env k = None
       /\ exists tags, objects s !! k = Some tags /\ has_tag_key tk tags = false)
      \/ (exists code message,
            get_fault env k = Some (ClientError code message) /\ code <> "NoSuchKey").
Proof.
  unfold has_tag_key.
  assert (Hgrow : forall (l : list (string * list Tag)) x, l ++ [x] <> l).
  { intros l x H. apply (f_equal length) in H. rewrite length_app in H. simpl in H. lia. }
  tso_cases env k s; rewrite ?tag_sets_written_app; simpl; rewrite ?app_nil_r;
    (split;
     [ intros Hw; try (exfalso; apply Hw; reflexivity);
       first [ left; split; [reflexivity |]; eexists; split; [reflexivity | assumption]
             | right; do 2 eexists; split; [reflexivity |];
               intros ->; vm_compute in Hcode; discriminate ]
     | intros [[Hg (tags0 & Ht & Hk)] | (c0 & m0 & Hg & Hne)];
       try discriminate; simplify_eq; try congruence;
       try apply Hgrow;
       try (apply String.eqb_eq in Hcode; congruence) ]).
Qed.

(** An attempt on a key whose get-tags call answers (with the tag set,
    with not-found, or not at all for a reason that is not a remote
    error) and whose object, if it exists, carries the target key,
    changes no tag set and writes nothing. *)
Lemma tag_single_object_settled env b k tk tv s :
  get_tags_answers env k ->
  (forall tags, objects s !! k = Some tags -> has_tag_key tk tags = true) ->
  objects (tag_single_object env b k tk tv s).2 = objects s
  /\ tag_sets_written (calls (tag_single_object env b k tk tv s).2)
     = tag_sets_written (calls s).
Proof.
  intros Hanswers Htagged. unfold has_tag_key in Htagged.
  tso_cases env k s; rewrite ?tag_sets_written_app; simpl; rewrite ?app_nil_r;
    try (split; reflexivity);
    try (apply Hanswers in Hget; subst code; vm_compute in Hcode;
         discriminate Hcode);
    specialize (Htagged _ eq_refl); congruence.
Qed.

Lemma tag_single_object_success_tagged env b k tk tv s k' msg :
  (tag_single_object env b k tk tv s).1 = Return (k', true, msg) ->
  exists tags',
    objects (tag_single_object env b k tk tv s).2 !! k = Some tags'
    /\ has_tag_key tk tags' = true.
Proof.
  unfold has_tag_key.
  tso_cases env k s; intros Hr; try discriminate Hr;
    rewrite ?lookup_insert_eq; eexists; (split; [eauto |]);
    rewrite ?existsb_app; simpl; rewrite ?String.eqb_refl, ?orb_true_r; auto.
Qed.

(** X4: repeating an attempt on the same key, the faults of the second
    attempt being its own: when the first attempt reported success and
    the get-tags call of the second does not fail with a remote error
    other than not-found, the second attempt changes no tag set and
    writes none; and when that call answers, it finds the tag, reports
    "Tag already exists" and issues no other call. *)
Theorem tag_single_object_twice env1 env2 b k tk tv s :
  (exists message,
     (tag_single_object env1 b k tk tv s).1 = Return (k, true, message)) ->
  get_tags_answers env2 k ->
  let s1 := (tag_single_object env1 b k tk tv s).2 in
  let (r2, s2) := tag_single_object env2 b k tk tv s1 in
  objects s2 = objects s1
  /\ tag_sets_written (calls s2) = tag_sets_written (calls s1)
  /\ (get_fault env2 k = None ->
      r2 = Return (k, true, "Tag already exists")
      /\ calls s2 = calls s1 ++ [GetObjectTagging b k]).
Proof.
  intros (message & Hfirst) Hanswers s1.
  destruct (tag_single_object_success_tagged env1 b k tk tv s k message Hfirst)
    as (tags' & Hobj & Hkey).
  fold s1 in Hobj.
  destruct (tag_single_object_settled env2 b k tk tv s1 Hanswers) as [Hsame Hwritten].
  { intros tags Htags. congruence. }
  destruct (tag_single_object env2 b k tk tv s1) as [r2 s2] eqn:Hrun2.
  simpl in Hsame, Hwritten. split; [exact Hsame |]. split; [exact Hwritten |].
  intros Hget.
  rewrite (tag_single_object_already env2 b k tk tv s1 tags' Hget Hobj Hkey) in Hrun2.
  injection Hrun2 as <- <-. auto.
Qed.

Lemma tag_single_object_twice_witness :
  let s1 :=
    (tag_single_object quiet_env "svodvideos" "TvShows/ShowA/S01/ep01_1080p.mp4"
       "PERMANENT_DELETE" "CONFIRMED" (one_object [mkTag "owner" "archive"])).2 in
  let (r2, s2) :=
    tag_single_object quiet_env "svodvideos" "TvShows/ShowA/S01/ep01_1080p.mp4"
      "PERMANENT_DELETE" "CONFIRMED" s1 in
  objects s2 = objects s1
  /\ tag_sets_written (calls s2) = tag_sets_written (calls s1)
  /\ (get_fault quiet_env "TvShows/ShowA/S01/ep01_1080p.mp4" = None ->
      r2 = Return ("TvShows/ShowA/S01/ep01_1080p.mp4", true, "Tag already exists")
      /\ calls s2
         = calls s1
           ++ [GetObjectTagging "svodvideos" "TvShows/ShowA/S01/ep01_1080p.mp4"]).
Proof.
  apply (tag_single_object_twice quiet_env quiet_env "svodvideos"
           "TvShows/ShowA/S01/ep01_1080p.mp4" "PERMANENT_DELETE" "CONFIRMED"
           (one_object [mkTag "owner" "archive"])).
  - eexists. reflexivity.
  - apply quiet_env_answers.
Defined.

(** * The calls of a run *)

Lemma keys_fetched_app cs1 cs2 :
  keys_fetched (cs1 ++ cs2) = keys_fetched cs1 ++ keys_fetched cs2.
Proof. apply omap_app. Qed.

Lemma keys_written_app cs1 cs2 :
  keys_written (cs1 ++ cs2) = keys_written cs1 ++ keys_written cs2.
Proof. unfold keys_written. rewrite tag_sets_written_app. apply map_app. Qed.

Lemma keys_fetched_listing b groups : keys_fetched (listing_calls b groups) = [].
Proof. induction groups; simpl; auto. Qed.

Lemma keys_written_listing b groups : keys_written (listing_calls b groups) = [].
Proof. induction groups; simpl; auto. Qed.

(** The calls of an attempt: they extend the trace by the get-tags call
    and at most one put-tags call, both on the attempt's key. *)
Lemma tag_single_object_calls env b k tk tv s :
  exists cs,
    calls (tag_single_object env b k tk tv s).2 = calls s ++ cs
    /\ keys_fetched cs = [k]
    /\ prefixes_listed cs = []
    /\ (keys_written cs = [] \/ keys_written cs = [k]).
Proof.
  tso_cases env k s; rewrite <- ?app_assoc; eexists; (split; [reflexivity |]);
    simpl; auto.
Qed.

(** The tasks of the tagging pool, over any keys: every task returns,
    and together they fetch the tags of the keys in order and write to
    none but them. *)
Lemma submit_all_calls env b tk tv keys :
  forall s, exists rs s' cs,
    submit_all (fun key => tag_single_object env b key tk tv) keys s
    = (Return (map Return rs), s')
    /\ length rs = length keys
    /\ log s' = log s
    /\ calls s' = calls s ++ cs
    /\ keys_fetched cs = keys
    /\ prefixes_listed cs = []
    /\ (forall k, k ∈ keys_written cs -> k ∈ keys).
Proof.
  induction keys as [| k keys IH]; intros s; simpl.
  - exists [], s, []. unfold ret. rewrite app_nil_r. repeat split; auto.
  - unfold bind, submit.
    destruct (tag_single_object_returns env b k tk tv s) as (r & s1 & Hrun).
    destruct (tag_single_object_calls env b k tk tv s) as (cs1 & Hc1 & Hf1 & Hl1 & Hw1).
    pose proof (tag_single_object_log env b k tk tv s) as Hlog1.
    rewrite Hrun in Hc1, Hlog1 |- *. simpl in Hc1, Hlog1.
    destruct (IH s1) as (rs & s' & cs & Hrun' & Hlen & Hlog & Hc & Hf & Hl & Hw).
    rewrite Hrun'. unfold ret.
    exists (r :: rs), s', (cs1 ++ cs). split; [reflexivity |].
    split; [simpl; congruence |].
    split; [congruence |].
    split; [rewrite Hc, Hc1, app_assoc; reflexivity |].
    split; [rewrite keys_fetched_app, Hf1, Hf; reflexivity |].
    split; [rewrite prefixes_listed_app, Hl1, Hl; reflexivity |].
    intros k' Hk'. rewrite keys_written_app in Hk'.
    apply elem_of_app in Hk' as [Hk' | Hk'].
    + destruct Hw1 as [Hw1 | Hw1]; rewrite Hw1 in Hk'; [inversion Hk' |].
      apply list_elem_of_singleton in Hk' as ->. left.
    + right. apply Hw, Hk'.
Qed.

(** The calls and the log of the tagging phase. *)
Lemma tagging_phase_calls env b tk tv mw bs keys s :
  (0 < mw)%Z -> bs <> 0%Z ->
  exists rs c s' cs,
    tagging_phase env b tk tv mw bs keys s = (Return c, s')
    /\ length rs = length keys
    /\ log s' = log s ++ result_lines bs (length keys) 1 rs
    /\ calls s' = calls s ++ cs
    /\ keys_fetched cs = keys
    /\ prefixes_listed cs = []
    /\ (forall k, k ∈ keys_written cs -> k ∈ keys).
Proof.
  intros Hmw Hbs. unfold tagging_phase, bind.
  rewrite (ThreadPoolExecutor_starts mw s Hmw).
  destruct (submit_all_calls env b tk tv keys s)
    as (rs & s1 & cs & Hrun & Hlen & Hlog & Hc & Hrest).
  rewrite Hrun, count_results_spec by exact Hbs.
  exists rs. do 3 eexists. split; [reflexivity |]. simpl.
  split; [exact Hlen |]. split; [rewrite Hlog; reflexivity |].
  split; [exact Hc | exact Hrest].
Qed.

Section RunCalls.

Context (env : Env).
Context (csv_file_path b p f tk tv : string) (mw bs mlw : Z).

(** The calls of a run that read its table: the listings of the groups,
    then the tagging calls, which fetch the tags of the matched keys and
    write to none but them. *)
Lemma run_calls df s :
  valid_config mw bs mlw ->
  read_csv env csv_file_path = inr df ->
  has_column df p && has_column df f = true ->
  exists cs,
    calls (tag_objects_by_pattern env csv_file_path b p f tk tv mw bs mlw s).2
    = calls s ++ listing_calls b (group_rows p f (dropna [p; f] df)) ++ cs
    /\ keys_fetched cs = elements (discovered env (group_rows p f (dropna [p; f] df)))
    /\ prefixes_listed cs = []
    /\ (forall k, k ∈ keys_written cs ->
          k ∈ discovered env (group_rows p f (dropna [p; f] df))).
Proof.
  intros (Hmw & Hbs & Hmlw) Hread Hcols.
  set (groups := group_rows p f (dropna [p; f] df)).
  destruct (elements (discovered env groups)) as [| key keys] eqn:Hfound.
  - rewrite (run_no_matches env csv_file_path b p f tk tv mw bs mlw df s
               Hmlw Hread Hcols Hfound).
    exists []. cbn [snd calls]. rewrite app_nil_r. repeat split; auto.
    intros k Hk. inversion Hk.
  - unfold tag_objects_by_pattern, bind, logger, ret. simpl.
    rewrite Hread. rewrite <- negb_andb, Hcols. simpl.
    fold groups. rewrite discovery_phase_spec by exact Hmlw. simpl.
    rewrite Hfound.
    match goal with
    | |- context [tagging_phase env b tk tv mw bs (key :: keys) ?s1] =>
        destruct (tagging_phase_calls env b tk tv mw bs (key :: keys) s1 Hmw Hbs)
          as (rs & c & s2 & cs & Hrun & _ & _ & Hc & Hf & Hl & Hw)
    end.
    rewrite Hrun. cbn [snd calls]. cbn [calls] in Hc. exists cs.
    split; [rewrite Hc, <- app_assoc; reflexivity |].
    split; [exact Hf |]. split; [exact Hl |].
    intros k Hk. apply elem_of_elements. rewrite Hfound. apply Hw, Hk.
Qed.

End RunCalls.

(** The matched keys of a group were delivered by the listing of the
    group's prefix and have the form its pattern matches. *)
Lemma location_matches_form env location filenames key :
  filenames <> [] ->
  key ∈ location_matches env (location, filenames) ->
  key ∈ keys_before_failure (list_pages env (namespaced location))
  /\ matched_form (namespaced location) filenames key.
Proof.
  intros Hne Hin. unfold location_matches in Hin. simpl in Hin.
  assert (Hfilter : key ∈ List.filter (pattern_matches (namespaced location) filenames)
                      (keys_before_failure (list_pages env (namespaced location)))).
  { destruct (first_failure _) as [[c m | t] | ]; auto. inversion Hin. }
  apply list_elem_of_In, filter_In in Hfilter as [Hkey Hmatch].
  split; [apply list_elem_of_In, Hkey |].
  apply pattern_matches_form; assumption.
Qed.

(** X5: the tagging phase of a run fetches the tags of every key of the
    match set once: the same key is not fetched twice, however many
    groups or pages delivered it, and a key is fetched exactly when
    some group's task matched it. *)
Theorem run_fetches_each_match_once
    env csv_file_path b p f tk tv mw bs mlw df s :
  valid_config mw bs mlw ->
  read_csv env csv_file_path = inr df ->
  has_column df p && has_column df f = true ->
  let location_groups := group_rows p f (dropna [p; f] df) in
  let s' := (tag_objects_by_pattern env csv_file_path b p f tk tv mw bs mlw s).2 in
  exists fetched,
    keys_fetched (calls s') = keys_fetched (calls s) ++ fetched
    /\ NoDup fetched
    /\ (forall key,
          key ∈ fetched
          <-> exists location_data,
                location_data ∈ location_groups
                /\ key ∈ location_matches env location_data).
Proof.
  intros Hvalid Hread Hcols location_groups s'. subst s'.
  destruct (run_calls env csv_file_path b p f tk tv mw bs mlw df s Hvalid Hread Hcols)
    as (cs & Hc & Hf & _).
  exists (elements (discovered env location_groups)). split; [| split].
  - rewrite Hc, !keys_fetched_app, keys_fetched_listing, Hf. reflexivity.
  - apply NoDup_elements.
  - intros key. rewrite elem_of_elements. apply elem_of_discovered.
Qed.

Lemma run_fetches_each_match_once_witness :
  exists fetched,
    keys_fetched (calls (main scenario_env both_objects).2)
    = keys_fetched (calls both_objects) ++ fetched
    /\ NoDup fetched
    /\ (forall key,
          key ∈ fetched
          <-> exists location_data,
                location_data
                ∈ group_rows "location_folder" "location_file"
                    (dropna ["location_folder"; "location_file"] scenario_table)
                /\ key ∈ location_matches scenario_env location_data).
Proof.
  exact (run_fetches_each_match_once scenario_env
           "delete_data/Videos-Test.csv" "svodvideos" "location_folder"
           "location_file" "PERMANENT_DELETE" "CONFIRMED" 50 100 10
           scenario_table both_objects main_config_valid eq_refl eq_refl).
Defined.

(** X6: a run touches the tags of matched keys only: every key whose tags it
    fetches or writes was delivered by the listing of the prefix of one
    of the location groups and has the form that group's pattern
    matches, so that it lies under the namespaced location. *)
Theorem run_touches_only_matched_keys
    env csv_file_path b p f tk tv mw bs mlw df s :
  valid_config mw bs mlw ->
  read_csv env csv_file_path = inr df ->
  has_column df p && has_column df f = true ->
  let location_groups := group_rows p f (dropna [p; f] df) in
  let s' := (tag_objects_by_pattern env csv_file_path b p f tk tv mw bs mlw s).2 in
  exists cs,
    calls s' = calls s ++ cs
    /\ forall key,
         key ∈ keys_fetched cs \/ key ∈ keys_written cs ->
         exists location filenames,
           (location, filenames) ∈ location_groups
           /\ key ∈ keys_before_failure (list_pages env (namespaced location))
           /\ matched_form (namespaced location) filenames key.
Proof.
  intros Hvalid Hread Hcols location_groups s'. subst s'.
  destruct (run_calls env csv_file_path b p f tk tv mw bs mlw df s Hvalid Hread Hcols)
    as (cs & Hc & Hf & _ & Hw).
  fold location_groups in Hc, Hf, Hw.
  exists (listing_calls b location_groups ++ cs). split; [exact Hc |].
  intros key Hkey.
  assert (Hfound : key ∈ discovered env location_groups).
  { rewrite keys_fetched_app, keys_written_app,
      keys_fetched_listing, keys_written_listing in Hkey. simpl in Hkey.
    destruct Hkey as [Hkey | Hkey]; [| apply Hw, Hkey].
    rewrite Hf in Hkey. apply elem_of_elements, Hkey. }
  apply elem_of_discovered in Hfound as ([location filenames] & Hin & Hmatch).
  exists location, filenames. split; [exact Hin |].
  apply location_matches_form; [| exact Hmatch].
  apply (group_rows_nonempty df p f location), Hin.
Qed.

Lemma run_touches_only_matched_keys_witness :
  exists cs,
    calls (main scenario_env both_objects).2 = calls both_objects ++ cs
    /\ forall key,
         key ∈ keys_fetched cs \/ key ∈ keys_written cs ->
         exists location filenames,
           (location, filenames)
           ∈ group_rows "location_folder" "location_file"
               (dropna ["location_folder"; "location_file"] scenario_table)
           /\ key ∈ keys_before_failure (list_pages scenario_env (namespaced location))
           /\ matched_form (namespaced location) filenames key.
Proof.
  exact (run_touches_only_matched_keys scenario_env
           "delete_data/Videos-Test.csv" "svodvideos" "location_folder"
           "location_file" "PERMANENT_DELETE" "CONFIRMED" 50 100 10
           scenario_table both_objects main_config_valid eq_refl eq_refl).
Defined.
(** * The order and the form of the locations *)

Lemma lstrip_slash_split s :
  exists a, s = a +:+ lstrip_slash s /\ all_slashes a = true.
Proof.
  induction s as [| c s (a & IH & Ha)]; simpl.
  - exists "". auto.
  - destruct (Ascii.eqb c "/") eqn:Hc.
    + exists (String c a). rewrite append_String, <- IH. simpl. rewrite Hc, Ha. auto.
    + exists "". auto.
Qed.

Lemma lstrip_slash_head s t : lstrip_slash s <> "/" +:+ t.
Proof.
  induction s as [| c s IH]; simpl.
  - discriminate.
  - destruct (Ascii.eqb c "/") eqn:Hc; [exact IH |].
    intros H. rewrite append_String in H. injection H as -> _. discriminate Hc.
Qed.

Lemma rstrip_slash_split s :
  exists b, s = rstrip_slash s +:+ b /\ all_slashes b = true.
Proof.
  induction s as [| c s (b & IH & Hb)]; simpl.
  - exists "". auto.
  - destruct (Ascii.eqb c "/" && String.eqb (rstrip_slash s) "") eqn:Hc.
    + apply andb_true_iff in Hc as [Hc Hr]. apply String.eqb_eq in Hr.
      rewrite Hr, append_empty_l in IH. subst b.
      exists (String c s). rewrite append_empty_l. simpl. rewrite Hc, Hb. auto.
    + exists b. rewrite append_String, <- IH. auto.
Qed.

Lemma rstrip_slash_last s t : rstrip_slash s <> t +:+ "/".
Proof.
  revert t. induction s as [| c s IH]; intros t; simpl.
  - destruct t; discriminate.
  - destruct (Ascii.eqb c "/" && String.eqb (rstrip_slash s) "") eqn:Hc.
    + destruct t; discriminate.
    + destruct t as [| c' t].
      * rewrite append_empty_l. intros H. injection H as -> Hr.
        rewrite Hr in Hc. discriminate Hc.
      * rewrite append_String. intros H. injection H as _ Hr. exact (IH t Hr).
Qed.

Lemma rstrip_slash_head s t :
  (forall t', s <> "/" +:+ t') -> rstrip_slash s <> "/" +:+ t.
Proof.
  destruct s as [| c s]; simpl; [discriminate |]. intros Hs.
  destruct (Ascii.eqb c "/" && String.eqb (rstrip_slash s) "") eqn:Hc;
    [discriminate |].
  intros H. rewrite append_String in H. injection H as -> _.
  apply (Hs s). reflexivity.
Qed.

(** [s.strip('/')] is [s] without a run of slashes at either end, and
    neither begins nor ends with a slash. *)
Lemma strip_slash_split s :
  exists a b,
    s = a +:+ strip_slash s +:+ b
    /\ all_slashes a = true /\ all_slashes b = true.
Proof.
  unfold strip_slash.
  destruct (lstrip_slash_split s) as (a & Ha & Hsa).
  destruct (rstrip_slash_split (lstrip_slash s)) as (b & Hb & Hsb).
  exists a, b. split; [| auto]. rewrite <- Hb. exact Ha.
Qed.

Lemma strip_slash_ends s :
  (forall t, strip_slash s <> "/" +:+ t) /\ (forall t, strip_slash s <> t +:+ "/").
Proof.
  unfold strip_slash. split; intros t.
  - apply rstrip_slash_head. intros t'. apply lstrip_slash_head.
  - apply rstrip_slash_last.
Qed.

(** X7: the location of every group is a cell of the location column of a
    complete row without the slashes at its two ends: it neither begins
    nor ends with a slash, so that its listing prefix has exactly the
    one slash the namespace adds at either side. *)
Theorem group_locations_are_stripped df p f location filenames :
  (location, filenames) ∈ group_rows p f (dropna [p; f] df) ->
  (forall rest, location <> "/" +:+ rest)
  /\ (forall rest, location <> rest +:+ "/")
  /\ exists row a b,
       row ∈ rows df
       /\ cell df row p = Some (a +:+ location +:+ b)
       /\ all_slashes a = true /\ all_slashes b = true.
Proof.
  intros Hin.
  assert (Hloc : location ∈ map fst (group_rows p f (dropna [p; f] df))).
  { apply list_elem_of_fmap. exists (location, filenames). auto. }
  apply group_rows_locations in Hloc as (row & Hrow & Hc & <-).
  unfold row_location. destruct (strip_slash_ends (str (cell df row p))) as [Hh Hl].
  split; [exact Hh |]. split; [exact Hl |].
  destruct (strip_slash_split (str (cell df row p))) as (a & b & Hs & Ha & Hb).
  exists row, a, b. split; [exact Hrow |]. split; [| auto].
  unfold complete in Hc. destruct (cell df row p) as [v |]; [| discriminate Hc].
  simpl in Hs |- *. congruence.
Qed.

Lemma group_locations_are_stripped_witness :
  (forall rest, "ShowA/S01" <> "/" +:+ rest)
  /\ (forall rest, "ShowA/S01" <> rest +:+ "/")
  /\ exists row a b,
       row ∈ rows incomplete_table
       /\ cell incomplete_table row "location_folder" = Some (a +:+ "ShowA/S01" +:+ b)
       /\ all_slashes a = true /\ all_slashes b = true.
Proof.
  apply (group_locations_are_stripped incomplete_table
           "location_folder" "location_file" "ShowA/S01" ["ep01"; "ep04"]).
  vm_compute. left.
Defined.

Lemma append_to_fst_old location filename groups :
  location ∈ map fst groups ->
  map fst (append_to location filename groups) = map fst groups.
Proof.
  induction groups as [| [l fs] groups IH]; simpl; intros Hin; [inversion Hin |].
  destruct (String.eqb l location) eqn:Hl; simpl; [reflexivity |].
  apply String.eqb_neq in Hl. f_equal. apply IH.
  apply elem_of_cons in Hin as [-> | Hin]; [contradiction Hl; reflexivity | exact Hin].
Qed.

Lemma append_to_fst_new location filename groups :
  location ∉ map fst groups ->
  map fst (append_to location filename groups) = map fst groups ++ [location].
Proof.
  induction groups as [| [l fs] groups IH]; simpl; intros Hnin; [reflexivity |].
  destruct (String.eqb l location) eqn:Hl; simpl.
  - apply String.eqb_eq in Hl as ->. exfalso. apply Hnin. left.
  - f_equal. apply IH. intros Hin. apply Hnin. right. exact Hin.
Qed.

(** The groups are in the order in which their locations first occur
    among the rows grouped. *)
Lemma fold_rows_order df p f rs :
  map fst (fold_left (add_row df p f) rs [])
  = reverse (remove_dups (reverse (map (row_location df p) rs))).
Proof.
  induction rs as [| row rs IH] using rev_ind; [reflexivity |].
  rewrite fold_left_app, map_app, reverse_app. simpl.
  unfold add_row at 1.
  destruct (decide_rel elem_of (row_location df p row)
              (reverse (map (row_location df p) rs))) as [Hin | Hnin].
  - rewrite append_to_fst_old; [exact IH |].
    rewrite IH, elem_of_reverse, elem_of_remove_dups. exact Hin.
  - rewrite append_to_fst_new.
    + rewrite IH, reverse_cons. reflexivity.
    + rewrite IH. intros Hin. apply Hnin.
      rewrite elem_of_reverse, elem_of_remove_dups in Hin. exact Hin.
Qed.

(** X8: the location groups are in the order in which the locations first
    occur among the complete rows of the table: that is the order
    [items()] yields the groups in, and so the order in which a run
    submits the listing tasks. *)
Theorem listings_follow_first_occurrence
    env csv_file_path b p f tk tv mw bs mlw df s :
  valid_config mw bs mlw ->
  read_csv env csv_file_path = inr df ->
  has_column df p && has_column df f = true ->
  let locations := map (row_location df p) (rows (dropna [p; f] df)) in
  let s' := (tag_objects_by_pattern env csv_file_path b p f tk tv mw bs mlw s).2 in
  map fst (group_rows p f (dropna [p; f] df))
  = reverse (remove_dups (reverse locations))
  /\ prefixes_listed (calls s')
     = prefixes_listed (calls s)
       ++ map namespaced (reverse (remove_dups (reverse locations))).
Proof.
  intros Hvalid Hread Hcols locations s'. subst locations s'.
  assert (Horder : map fst (group_rows p f (dropna [p; f] df))
                   = reverse (remove_dups (reverse
                       (map (row_location df p) (rows (dropna [p; f] df)))))).
  { rewrite group_rows_fold, dropna_rows. apply fold_rows_order. }
  split; [exact Horder |].
  rewrite (run_listings env csv_file_path b p f tk tv mw bs mlw df s Hvalid Hread Hcols).
  rewrite <- Horder, map_map. reflexivity.
Qed.

Lemma listings_follow_first_occurrence_witness :
  prefixes_listed (calls (main scenario_env both_objects).2)
  = map namespaced
      (reverse (remove_dups (reverse ["ShowA/S01"; "ShowA/S01"; "ShowB/S01"]))).
Proof.
  apply (listings_follow_first_occurrence scenario_env
           "delete_data/Videos-Test.csv" "svodvideos" "location_folder"
           "location_file" "PERMANENT_DELETE" "CONFIRMED" 50 100 10
           scenario_table both_objects main_config_valid eq_refl eq_refl).
Defined.
(** * Listing one prefix *)

(** X9: given the pattern the code builds for a location group,
    [list_matching_objects] issues one listing of the prefix and
    collects, in listing order, the keys of the pages received that
    have the form the pattern matches.  When a page request raises a
    [ClientError] the error is logged and what was collected is
    returned; any other exception is raised to the caller.  The tag
    sets are never touched. *)
Theorem list_matching_objects_outcome env b prefix location filenames s :
  filenames <> [] ->
  let location_ := namespaced location in
  let collected :=
    List.filter (pattern_matches location_ filenames)
      (keys_before_failure (list_pages env prefix)) in
  let (r, s') :=
    list_matching_objects env b prefix (full_pattern location_ filenames) s in
  objects s' = objects s
  /\ calls s' = calls s ++ [ListObjectsV2 b prefix]
  /\ (forall key,
        key ∈ collected
        <-> key ∈ keys_before_failure (list_pages env prefix)
            /\ matched_form location_ filenames key)
  /\ match first_failure (list_pages env prefix) with
     | None => r = Return collected /\ log s' = log s
     | Some (ClientError code message) =>
         r = Return collected
         /\ log s' = log s ++ [ErrorListing prefix (ClientError code message)]
     | Some (OtherException text) =>
         r = Raise (OtherException text) /\ log s' = log s
     end.
Proof.
  intros Hne location_ collected. subst collected.
  unfold list_matching_objects, pattern_matches.
  rewrite (re_compile_full_pattern location_ filenames Hne).
  unfold bind, issue, logger, ret, raise. rewrite scan_pages_spec. simpl.
  assert (Hform : forall key,
            key ∈ List.filter (re_match (pattern_regex location_ filenames))
                    (keys_before_failure (list_pages env prefix))
            <-> key ∈ keys_before_failure (list_pages env prefix)
                /\ matched_form location_ filenames key).
  { intros key. rewrite list_elem_of_In, filter_In, <- list_elem_of_In.
    rewrite (re_match_pattern_regex location_ filenames key Hne). reflexivity. }
  destruct (first_failure (list_pages env prefix)) as [[code message | text] |];
    simpl; auto.
Qed.

Lemma list_matching_objects_outcome_witness :
  (list_matching_objects throttled_env "svodvideos" "TvShows/ShowA/S01/"
     (full_pattern (namespaced "ShowA/S01") ["ep01"]) both_objects).1
  = Return ["TvShows/ShowA/S01/ep01_1080p.mp4"; "TvShows/ShowA/S01/ep01_720p.mp4"].
Proof.
  pose proof (list_matching_objects_outcome throttled_env "svodvideos"
                "TvShows/ShowA/S01/" "ShowA/S01" ["ep01"] both_objects
                ltac:(discriminate)) as H.
  cbv zeta in H.
  destruct (list_matching_objects throttled_env "svodvideos" "TvShows/ShowA/S01/"
              (full_pattern (namespaced "ShowA/S01") ["ep01"]) both_objects)
    as [r s'].
  destruct H as (_ & _ & _ & H). simpl in H. destruct H as [-> _].
  vm_compute. reflexivity.
Defined.

(** * The progress lines and the summary *)

Lemma result_lines_progress bs total rs j n :
  forall i,
    InfoTaggingProgress j n ∈ result_lines bs total i rs
    <-> n = total /\ (i <= j < i + length rs)%nat
        /\ ((Z.of_nat j mod bs = 0)%Z \/ j = total).
Proof.
  induction rs as [| r rs IH]; intros i; simpl.
  - split; [intros H; inversion H | lia].
  - rewrite !elem_of_app, IH.
    assert (Hwarn : InfoTaggingProgress j n
                    ∈ (if is_failed r then [WarningFailedToTag r.1.1 r.2] else [])
                    <-> False).
    { destruct (is_failed r); split; intros H; try contradiction.
      - apply list_elem_of_singleton in H. discriminate H.
      - inversion H. }
    rewrite Hwarn.
    destruct ((Z.of_nat i mod bs =? 0)%Z || (i =? total)%nat) eqn:Hrep.
    + rewrite list_elem_of_singleton. apply orb_true_iff in Hrep.
      rewrite Z.eqb_eq, Nat.eqb_eq in Hrep. split.
      * intros [[] | [Heq | (-> & Hj & Hmod)]].
        -- injection Heq as -> ->. split; [reflexivity |]. split; [lia | exact Hrep].
        -- split; [reflexivity |]. split; [lia | exact Hmod].
      * intros (-> & Hj & Hmod).
        destruct (decide (j = i)) as [-> | Hne]; [right; left; reflexivity |].
        right. right. split; [reflexivity |]. split; [lia | exact Hmod].
    + apply orb_false_iff in Hrep as [Hmod Htot].
      apply Z.eqb_neq in Hmod. apply Nat.eqb_neq in Htot.
      rewrite elem_of_nil. split.
      * intros [[] | [[] | (-> & Hj & Hrep)]].
        split; [reflexivity |]. split; [lia | exact Hrep].
      * intros (-> & Hj & Hrep).
        destruct (decide (j = i)) as [-> | Hne]; [exfalso; tauto |].
        right. right. split; [reflexivity |]. split; [lia | exact Hrep].
Qed.

(** X10: the progress lines of the tagging phase: the [i]-th completed
    attempt is reported exactly when [i] is a multiple of the batch size
    or the last one, always against the number of matched objects; so
    the last attempt is reported whatever the batch size. *)
Theorem tagging_progress_lines env b tk tv mw bs keys s :
  (0 < mw)%Z -> bs <> 0%Z ->
  exists lines,
    log (tagging_phase env b tk tv mw bs keys s).2 = log s ++ lines
    /\ forall i n,
         InfoTaggingProgress i n ∈ lines
         <-> n = length keys /\ (1 <= i <= length keys)%nat
             /\ ((Z.of_nat i mod bs = 0)%Z \/ i = length keys).
Proof.
  intros Hmw Hbs.
  destruct (tagging_phase_calls env b tk tv mw bs keys s Hmw Hbs)
    as (rs & c & s' & cs & Hrun & Hlen & Hlog & _).
  rewrite Hrun. eexists. split; [exact Hlog |].
  intros i n. rewrite result_lines_progress, Hlen. split.
  - intros (-> & Hi & Hmod). split; [reflexivity |]. split; [lia | exact Hmod].
  - intros (-> & Hi & Hmod). split; [reflexivity |]. split; [lia | exact Hmod].
Qed.

Lemma tagging_progress_lines_witness :
  exists lines,
    log (tagging_phase scenario_env "svodvideos" "PERMANENT_DELETE" "CONFIRMED" 50 2
           ["a"; "b"; "c"] both_objects).2 = log both_objects ++ lines
    /\ InfoTaggingProgress 2 3 ∈ lines
    /\ InfoTaggingProgress 3 3 ∈ lines
    /\ InfoTaggingProgress 1 3 ∉ lines.
Proof.
  destruct (tagging_progress_lines scenario_env "svodvideos" "PERMANENT_DELETE"
              "CONFIRMED" 50 2 ["a"; "b"; "c"] both_objects)
    as (lines & Hlog & Hlines); [lia | lia |].
  exists lines. split; [exact Hlog |].
  split; [apply Hlines; simpl; split; [reflexivity |]; split; [lia | left; reflexivity] |].
  split; [apply Hlines; simpl; split; [reflexivity |]; split; [lia | right; reflexivity] |].
  intros Hin. apply Hlines in Hin as (_ & _ & [Hmod | Heq]); [| discriminate Heq].
  vm_compute in Hmod. discriminate Hmod.
Defined.

Lemma result_lines_not_summary bs total rs l :
  forall i, l ∈ result_lines bs total i rs -> is_summary l = false.
Proof.
  induction rs as [| r rs IH]; intros i; simpl; [intros H; inversion H |].
  rewrite !elem_of_app. intros [H | [H | H]].
  - destruct (is_failed r); [| inversion H].
    apply list_elem_of_singleton in H as ->. reflexivity.
  - destruct (_ || _); [| inversion H].
    apply list_elem_of_singleton in H as ->. reflexivity.
  - exact (IH _ H).
Qed.

Lemma length_concat_nonempty {A} (ls : list (list A)) :
  (forall l, l ∈ ls -> l <> []) -> (length ls <= length (concat ls))%nat.
Proof.
  induction ls as [| l ls IH]; intros Hne; simpl; [lia |].
  rewrite length_app.
  assert (Hl : l <> []) by (apply Hne; left).
  assert (Hrest : (length ls <= length (concat ls))%nat).
  { apply IH. intros l' Hl'. apply Hne. right. exact Hl'. }
  destruct l; [congruence | simpl; lia].
Qed.

(** There are at most as many groups as complete rows. *)
Lemma group_rows_length df p f :
  (length (group_rows p f (dropna [p; f] df))
   <= length (rows (dropna [p; f] df)))%nat.
Proof.
  rewrite dropna_rows, <- group_rows_total.
  rewrite <- (length_map snd (group_rows p f (dropna [p; f] df))).
  apply length_concat_nonempty.
  intros fs Hin. apply list_elem_of_fmap in Hin as ([location fs'] & -> & Hin).
  simpl. apply (group_rows_nonempty df p f location), Hin.
Qed.

(** X11: a run under a valid configuration logs at most one summary, and the
    numbers of a summary are consistent: at least one object was
    matched, the three outcome counts add up to the number of matched
    objects, and there are at least one and at most as many locations
    as rows processed. *)
Theorem summary_is_consistent env csv_file_path b p f tk tv mw bs mlw s :
  valid_config mw bs mlw ->
  exists lines,
    log (tag_objects_by_pattern env csv_file_path b p f tk tv mw bs mlw s).2
    = log s ++ lines
    /\ (length (List.filter is_summary lines) <= 1)%nat
    /\ forall csv_rows locations matched newly already failures,
         InfoSummary csv_rows locations matched newly already failures ∈ lines ->
         (1 <= locations <= csv_rows)%nat
         /\ (1 <= matched)%nat
         /\ (newly + already + failures = matched)%nat.
Proof.
  intros Hvalid.
  assert (Hnone : forall lines : list LogRecord,
            (forall l, l ∈ lines -> is_summary l = false) ->
            List.filter is_summary lines = []).
  { intros lines Hall. induction lines as [| l lines IH]; simpl; [reflexivity |].
    rewrite (Hall l) by left. apply IH. intros l' Hl'. apply Hall. right. exact Hl'. }
  destruct (read_csv env csv_file_path) as [e | df] eqn:Hread.
  { rewrite (run_unreadable _ _ _ _ _ _ _ _ _ _ e s Hread). eexists.
    split; [reflexivity |]. split; [simpl; lia |].
    intros n l m a c x Hin.
    repeat (apply elem_of_cons in Hin as [Hin | Hin]; [discriminate Hin |]).
    inversion Hin. }
  destruct (has_column df p && has_column df f) eqn:Hcols.
  2: { rewrite (run_missing_column _ _ _ _ _ _ _ _ _ _ df s Hread Hcols). eexists.
       split; [reflexivity |]. split; [simpl; lia |].
       intros n l m a c x Hin.
       repeat (apply elem_of_cons in Hin as [Hin | Hin]; [discriminate Hin |]).
       inversion Hin. }
  set (groups := group_rows p f (dropna [p; f] df)).
  destruct (elements (discovered env groups)) as [| key keys] eqn:Hfound.
  - rewrite (run_no_matches _ _ _ _ _ _ _ _ _ _ df s (proj2 (proj2 Hvalid))
               Hread Hcols Hfound).
    exists (discovery_log env csv_file_path (length (rows (dropna [p; f] df)))
              groups 0 ++ [WarningNoMatchingObjects]).
    split; [reflexivity |].
    assert (Hall : forall l,
              l ∈ discovery_log env csv_file_path (length (rows (dropna [p; f] df)))
                    groups 0 ++ [WarningNoMatchingObjects] ->
              is_summary l = false).
    { intros l Hin. apply elem_of_app in Hin as [Hin | Hin].
      - apply discovery_log_not_tagging in Hin. destruct l; simpl in *; congruence.
      - apply list_elem_of_singleton in Hin as ->. reflexivity. }
    split; [rewrite (Hnone _ Hall); simpl; lia |].
    intros n l m a c x Hin. apply Hall in Hin. discriminate Hin.
  - destruct (run_tagging env csv_file_path b p f tk tv mw bs mlw df s
                Hvalid Hread Hcols)
      as (s' & Hrun & Hlog & _); [fold groups; rewrite Hfound; discriminate |].
    fold groups in Hlog. rewrite Hrun. eexists. split; [exact Hlog |].
    set (rs := map (attempt env b tk tv (objects s)) (elements (discovered env groups))).
    fold rs in Hlog |- *.
    assert (Hhead : forall l,
              l ∈ discovery_log env csv_file_path (length (rows (dropna [p; f] df)))
                    groups (length (elements (discovered env groups))) ->
              is_summary l = false).
    { intros l Hin. apply discovery_log_not_tagging in Hin.
      destruct l; simpl in *; congruence. }
    assert (Hlines : forall l,
              l ∈ result_lines bs (length (elements (discovered env groups))) 1 rs ->
              is_summary l = false).
    { intros l. apply result_lines_not_summary. }
    split.
    + rewrite !List.filter_app, (Hnone _ Hhead), (Hnone _ Hlines). simpl. lia.
    + intros n l m a c x Hin. rewrite !elem_of_app in Hin.
      destruct Hin as [Hin | [Hin | [Hin | Hin]]].
      * apply Hhead in Hin. discriminate Hin.
      * apply list_elem_of_singleton in Hin. discriminate Hin.
      * apply Hlines in Hin. discriminate Hin.
      * unfold summary_log in Hin.
        apply elem_of_cons in Hin as [Hin | Hin].
        2: { apply list_elem_of_singleton in Hin. discriminate Hin. }
        injection Hin as -> -> -> -> -> ->.
        assert (Hkey : key ∈ discovered env groups).
        { apply elem_of_elements. rewrite Hfound. left. }
        apply elem_of_discovered in Hkey as (ld & Hld & _).
        pose proof (group_rows_length df p f) as Hlen. fold groups in Hlen.
        split; [| split].
        -- split; [| exact Hlen]. destruct groups; [inversion Hld | simpl; lia].
        -- rewrite Hfound. simpl. lia.
        -- pose proof (length_filter_partition rs) as Hpart.
           unfold rs in Hpart at 4. rewrite length_map in Hpart. lia.
Qed.

Lemma summary_is_consistent_witness :
  exists lines,
    log (main scenario_env both_objects).2 = log both_objects ++ lines
    /\ (length (List.filter is_summary lines) <= 1)%nat
    /\ forall csv_rows locations matched newly already failures,
         InfoSummary csv_rows locations matched newly already failures ∈ lines ->
         (1 <= locations <= csv_rows)%nat
         /\ (1 <= matched)%nat
         /\ (newly + already + failures = matched)%nat.
Proof.
  exact (summary_is_consistent scenario_env
           "delete_data/Videos-Test.csv" "svodvideos" "location_folder"
           "location_file" "PERMANENT_DELETE" "CONFIRMED" 50 100 10
           both_objects main_config_valid).
Defined.
(** * Configurations that raise *)

(** The loop over the completed attempts touches neither the bucket nor
    the trace of calls, whatever the batch size. *)
Lemma count_results_frame bs total rs :
  forall i c s,
    objects (count_results bs total i (map Return rs) c s).2 = objects s
    /\ calls (count_results bs total i (map Return rs) c s).2 = calls s.
Proof.
  induction rs as [| [[k success] m] rs IH]; intros i c s; simpl; [auto |].
  unfold bind, result, ret, raise, logger.
  destruct success; simpl;
    [ destruct (contains "already exists" m); simpl | ];
    (destruct (bs =? 0)%Z; simpl; [auto |]);
    destruct ((Z.of_nat i mod bs =? 0)%Z || (i =? total)%nat); simpl;
    match goal with
    | |- context [count_results bs total (S i) (map Return rs) ?c' ?s'] =>
        destruct (IH (S i) c' s') as [Ho Hc]; rewrite Ho, Hc; auto
    end.
Qed.

(** With a batch size of 0 the loop raises at its first progress check,
    after the warning of the first attempt if that one failed. *)
Lemma count_results_zero total r rs i c s :
  exists s',
    count_results 0 total i (map Return (r :: rs)) c s
    = (Raise (OtherException "integer modulo by zero"), s')
    /\ objects s' = objects s /\ calls s' = calls s
    /\ exists lines,
         log s' = log s ++ lines
         /\ forall l, l ∈ lines -> reports_outcome l = false.
Proof.
  destruct r as [[k success] m]. simpl.
  unfold bind, result, ret, raise, logger.
  destruct success; simpl; [destruct (contains "already exists" m); simpl |];
    eexists; (split; [reflexivity |]); simpl; (split; [reflexivity |]);
    (split; [reflexivity |]).
  - exists []. rewrite app_nil_r. split; [reflexivity |]. intros l H. inversion H.
  - exists []. rewrite app_nil_r. split; [reflexivity |]. intros l H. inversion H.
  - eexists. split; [reflexivity |]. intros l H.
    apply list_elem_of_singleton in H as ->. reflexivity.
Qed.

Section RunShape.

Context (env : Env).
Context (csv_file_path b p f tk tv : string) (mw bs mlw : Z).

(** A run that found objects is the tagging phase, started where the
    discovery phase ended, followed by the summary. *)
Lemma run_unfold df s key keys :
  (0 < mlw)%Z ->
  read_csv env csv_file_path = inr df ->
  has_column df p && has_column df f = true ->
  elements (discovered env (group_rows p f (dropna [p; f] df))) = key :: keys ->
  tag_objects_by_pattern env csv_file_path b p f tk tv mw bs mlw s
  = match
      tagging_phase env b tk tv mw bs (key :: keys)
        (mkState (objects s)
           (calls s ++ listing_calls b (group_rows p f (dropna [p; f] df)))
           (log s
            ++ discovery_log env csv_file_path (length (rows (dropna [p; f] df)))
                 (group_rows p f (dropna [p; f] df)) (length (key :: keys))
            ++ [InfoPhase2]))
    with
    | (Return c, s2) =>
        (Return tt,
         mkState (objects s2) (calls s2)
           (log s2
            ++ [InfoSummary (length (rows (dropna [p; f] df)))
                  (length (group_rows p f (dropna [p; f] df)))
                  (length (key :: keys))
                  (successful c) (already_tagged c) (failed c);
                InfoSample (take 5 (key :: keys))
                  (if (5 <? length (key :: keys))%nat
                   then Some (length (key :: keys) - 5)%nat else None)]))
    | (Raise e, s2) => (Raise e, s2)
    end.
Proof.
  intros Hmlw Hread Hcols.
  unfold tag_objects_by_pattern.
  rewrite Hread. rewrite <- negb_andb, Hcols.
  remember (dropna [p; f] df) as df_clean eqn:Hclean.
  remember (group_rows p f df_clean) as groups eqn:Hgroups.
  intros Hfound. unfold bind, logger, ret. simpl.
  rewrite discovery_phase_spec by exact Hmlw. simpl.
  rewrite Hfound. unfold discovery_log, listing_calls.
  rewrite <- !app_assoc. simpl.
  match goal with
  | |- _ = match tagging_phase _ _ _ _ _ _ _ ?s1' with _ => _ end =>
      match goal with
      | |- (let (_, _) := tagging_phase _ _ _ _ _ _ _ ?s1 in _) = _ =>
          replace s1' with s1 by (f_equal; repeat (rewrite <- app_assoc; simpl); reflexivity)
      end
  end.
  destruct (tagging_phase _ _ _ _ _ _ _ _) as [[c | e] s2]; [| reflexivity].
  simpl. rewrite <- !app_assoc. reflexivity.
Qed.

End RunShape.

(** The tagging phase leaves the bucket and the trace of calls as its
    pool tasks left them, whatever the batch size. *)
Lemma tagging_phase_state env b tk tv mw bs keys s :
  (0 < mw)%Z ->
  objects (tagging_phase env b tk tv mw bs keys s).2
  = objects (submit_all (fun key => tag_single_object env b key tk tv) keys s).2
  /\ calls (tagging_phase env b tk tv mw bs keys s).2
     = calls (submit_all (fun key => tag_single_object env b key tk tv) keys s).2.
Proof.
  intros Hmw. unfold tagging_phase, bind.
  rewrite (ThreadPoolExecutor_starts mw s Hmw).
  destruct (submit_all_calls env b tk tv keys s) as (rs & s1 & cs & Hrun & _).
  rewrite Hrun. simpl. apply count_results_frame.
Qed.

Lemma tagging_phase_zero env b tk tv mw key keys s :
  (0 < mw)%Z ->
  exists s' lines,
    tagging_phase env b tk tv mw 0 (key :: keys) s
    = (Raise (OtherException "integer modulo by zero"), s')
    /\ log s' = log s ++ lines
    /\ forall l, l ∈ lines -> reports_outcome l = false.
Proof.
  intros Hmw. unfold tagging_phase, bind.
  rewrite (ThreadPoolExecutor_starts mw s Hmw).
  destruct (submit_all_calls env b tk tv (key :: keys) s)
    as (rs & s1 & cs & Hrun & Hlen & Hlog & _).
  rewrite Hrun. destruct rs as [| r rs]; [discriminate Hlen |].
  destruct (count_results_zero (length (key :: keys)) r rs 1 (mkCounters 0 0 0) s1)
    as (s' & Hcount & _ & _ & lines & Hlog' & Hlines).
  rewrite Hcount. exists s', lines. split; [reflexivity |].
  split; [congruence | exact Hlines].
Qed.

Lemma discovery_log_not_outcome env path nrows groups nfound l :
  l ∈ discovery_log env path nrows groups nfound -> reports_outcome l = false.
Proof.
  intros Hin. apply discovery_log_not_tagging in Hin.
  destruct l; simpl in *; congruence.
Qed.

(** X12: a batch size of 0 is not rejected up front.  The run lists and
    attempts every tag exactly as a run with another batch size does:
    it issues the same calls and leaves the same tag sets.  When
    nothing was found it returns as usual; otherwise the first progress
    check raises a division error when all attempts are done, and the
    run ends without a progress line, a summary or a sample. *)
Theorem zero_batch_size_fails_after_tagging
    env csv_file_path b p f tk tv mw mlw df s :
  (0 < mw)%Z -> (0 < mlw)%Z ->
  read_csv env csv_file_path = inr df ->
  has_column df p && has_column df f = true ->
  let found := elements (discovered env (group_rows p f (dropna [p; f] df))) in
  let (r0, s0) := tag_objects_by_pattern env csv_file_path b p f tk tv mw 0 mlw s in
  let (r1, s1) := tag_objects_by_pattern env csv_file_path b p f tk tv mw 1 mlw s in
  objects s0 = objects s1
  /\ calls s0 = calls s1
  /\ r1 = Return tt
  /\ (found = [] -> r0 = Return tt /\ log s0 = log s1)
  /\ (found <> [] ->
        r0 = Raise (OtherException "integer modulo by zero")
        /\ exists lines,
             log s0 = log s ++ lines
             /\ forall l, l ∈ lines -> reports_outcome l = false).
Proof.
  intros Hmw Hmlw Hread Hcols found. subst found.
  destruct (elements (discovered env (group_rows p f (dropna [p; f] df))))
    as [| key keys] eqn:Hfound.
  - rewrite !(run_no_matches env csv_file_path b p f tk tv mw _ mlw df s
                Hmlw Hread Hcols Hfound).
    split; [reflexivity |]. split; [reflexivity |]. split; [reflexivity |].
    split; [auto |]. intros Hne. contradiction Hne. reflexivity.
  - rewrite !(run_unfold env csv_file_path b p f tk tv mw _ mlw df s key keys
                Hmlw Hread Hcols Hfound).
    match goal with
    | |- context [tagging_phase env b tk tv mw 0 (key :: keys) ?sd] =>
        set (s_d := sd);
        destruct (tagging_phase_state env b tk tv mw 0 (key :: keys) s_d Hmw)
          as [Ho0 Hc0];
        destruct (tagging_phase_state env b tk tv mw 1 (key :: keys) s_d Hmw)
          as [Ho1 Hc1];
        destruct (tagging_phase_zero env b tk tv mw key keys s_d Hmw)
          as (s0 & lines & Hrun0 & Hlog0 & Hlines);
        destruct (tagging_phase_calls env b tk tv mw 1 (key :: keys) s_d Hmw)
          as (rs & c & s1 & cs & Hrun1 & _); [lia |]
    end.
    rewrite Hrun0 in Ho0, Hc0 |- *. rewrite Hrun1 in Ho1, Hc1 |- *.
    cbn [snd objects calls] in *.
    split; [congruence |]. split; [congruence |]. split; [reflexivity |].
    split; [discriminate |]. intros _. split; [reflexivity |].
    eexists. split; [rewrite Hlog0; subst s_d; cbn [log]; rewrite <- app_assoc; reflexivity |].
    intros l Hin. rewrite !elem_of_app in Hin. destruct Hin as [[Hin | Hin] | Hin].
    + apply discovery_log_not_outcome in Hin. exact Hin.
    + apply list_elem_of_singleton in Hin as ->. reflexivity.
    + apply Hlines, Hin.
Qed.

Lemma zero_batch_size_fails_after_tagging_witness :
  (tag_objects_by_pattern scenario_env "delete_data/Videos-Test.csv" "svodvideos"
     "location_folder" "location_file" "PERMANENT_DELETE" "CONFIRMED" 50 0 10
     both_objects).1
  = Raise (OtherException "integer modulo by zero")
  /\ keys_written
       (calls (tag_objects_by_pattern scenario_env "delete_data/Videos-Test.csv"
                 "svodvideos" "location_folder" "location_file"
                 "PERMANENT_DELETE" "CONFIRMED" 50 0 10 both_objects).2)
     <> [].
Proof.
  pose proof (zero_batch_size_fails_after_tagging scenario_env
                "delete_data/Videos-Test.csv" "svodvideos" "location_folder"
                "location_file" "PERMANENT_DELETE" "CONFIRMED" 50 10
                scenario_table both_objects eq_refl eq_refl eq_refl eq_refl) as H.
  cbv zeta in H.
  destruct (tag_objects_by_pattern scenario_env "delete_data/Videos-Test.csv"
              "svodvideos" "location_folder" "location_file"
              "PERMANENT_DELETE" "CONFIRMED" 50 0 10 both_objects) as [r0 s0] eqn:H0.
  destruct (tag_objects_by_pattern scenario_env "delete_data/Videos-Test.csv"
              "svodvideos" "location_folder" "location_file"
              "PERMANENT_DELETE" "CONFIRMED" 50 1 10 both_objects) as [r1 s1] eqn:H1.
  destruct H as (_ & Hcalls & _ & _ & Hraise).
  split.
  - apply Hraise. vm_compute. discriminate.
  - simpl. rewrite Hcalls. apply (f_equal snd) in H1. simpl in H1. subst s1.
    vm_compute. discriminate.
Defined.

(** X13: a pool size that is not positive is not rejected up front either.
    The discovery pool is created after the table was read and grouped:
    with no worker for it the run raises before any remote call.  The
    tagging pool is created only when objects were found: with no
    worker for it the run lists every group and then raises without a
    get-tags or put-tags call, or returns as usual when nothing was
    found.  In either case no tag set changes. *)
Theorem empty_pool_raises env csv_file_path b p f tk tv mw bs mlw df s :
  read_csv env csv_file_path = inr df ->
  has_column df p && has_column df f = true ->
  let location_groups := group_rows p f (dropna [p; f] df) in
  let (r, s') := tag_objects_by_pattern env csv_file_path b p f tk tv mw bs mlw s in
  ((mlw <= 0)%Z ->
     r = Raise (OtherException "max_workers must be greater than 0")
     /\ calls s' = calls s /\ objects s' = objects s)
  /\ ((0 < mlw)%Z -> (mw <= 0)%Z ->
        calls s' = calls s ++ listing_calls b location_groups
        /\ objects s' = objects s
        /\ (discovered env location_groups = ∅ -> r = Return tt)
        /\ (discovered env location_groups <> ∅ ->
              r = Raise (OtherException "max_workers must be greater than 0"))).
Proof.
  intros Hread Hcols location_groups. subst location_groups.
  destruct (tag_objects_by_pattern env csv_file_path b p f tk tv mw bs mlw s)
    as [r s'] eqn:Hrun.
  split.
  - intros Hmlw. unfold tag_objects_by_pattern in Hrun.
    rewrite Hread in Hrun. rewrite <- negb_andb, Hcols in Hrun.
    unfold bind, logger, ret, discovery_phase, ThreadPoolExecutor, raise, bind in Hrun.
    simpl in Hrun.
    destruct (mlw <=? 0)%Z eqn:Hle; [| lia]. simpl in Hrun.
    injection Hrun as <- <-. auto.
  - intros Hmlw Hmw.
    destruct (elements (discovered env (group_rows p f (dropna [p; f] df))))
      as [| key keys] eqn:Hfound.
    + rewrite (run_no_matches env csv_file_path b p f tk tv mw bs mlw df s
                 Hmlw Hread Hcols Hfound) in Hrun.
      injection Hrun as <- <-. cbn [calls objects].
      split; [reflexivity |]. split; [reflexivity |]. split; [reflexivity |].
      intros Hne. exfalso. apply Hne. apply elements_empty_inv in Hfound.
      apply leibniz_equiv. exact Hfound.
    + rewrite (run_unfold env csv_file_path b p f tk tv mw bs mlw df s key keys
                 Hmlw Hread Hcols Hfound) in Hrun.
      unfold tagging_phase, bind, ThreadPoolExecutor, raise in Hrun.
      destruct (mw <=? 0)%Z eqn:Hle; [| lia].
      injection Hrun as <- <-. cbn [calls objects].
      split; [reflexivity |]. split; [reflexivity |]. split; [| reflexivity].
      intros Hempty. rewrite Hempty, elements_empty in Hfound. discriminate Hfound.
Qed.

Lemma empty_pool_raises_witness :
  (tag_objects_by_pattern scenario_env "delete_data/Videos-Test.csv" "svodvideos"
     "location_folder" "location_file" "PERMANENT_DELETE" "CONFIRMED" 0 100 10
     both_objects).1
  = Raise (OtherException "max_workers must be greater than 0").
Proof.
  pose proof (empty_pool_raises scenario_env
                "delete_data/Videos-Test.csv" "svodvideos" "location_folder"
                "location_file" "PERMANENT_DELETE" "CONFIRMED" 0 100 10
                scenario_table both_objects eq_refl eq_refl) as H.
  cbv zeta in H.
  destruct (tag_objects_by_pattern scenario_env "delete_data/Videos-Test.csv"
              "svodvideos" "location_folder" "location_file"
              "PERMANENT_DELETE" "CONFIRMED" 0 100 10 both_objects) as [r s'].
  destruct H as [_ H]. destruct H as (_ & _ & _ & Hraise); [lia | lia |].
  apply Hraise. vm_compute. discriminate.
Defined.
(** * The effect of a run on the bucket *)

(** What an attempt does to the tags of its key depends on the state
    through these tags only. *)
Lemma tag_single_object_lookup_local env b k tk tv s1 s2 :
  objects s1 !! k = objects s2 !! k ->
  objects (tag_single_object env b k tk tv s1).2 !! k
  = objects (tag_single_object env b k tk tv s2).2 !! k.
Proof.
  intros Heq.
  destruct (get_fault env k) as [[code message | text] | ] eqn:Hget;
    [ destruct (String.eqb code "NoSuchKey") eqn:Hcode | | ];
    destruct (put_fault env k) as [[code' message' | text'] | ] eqn:Hput;
    destruct (objects s1 !! k) as [tags | ] eqn:Hobj;
    try (destruct (existsb (fun tag => String.eqb (Key tag) tk) tags) eqn:Hex);
    run_tso;
    repeat (first [ rewrite Hget | rewrite Hput | rewrite Hobj | rewrite <- Heq
                  | rewrite Hcode | rewrite Hex | rewrite lookup_insert_eq ]; simpl);
    reflexivity.
Qed.

(** The pool tasks over distinct keys change the tags of each key as one
    attempt on the initial state would, and no other tags. *)
Lemma submit_all_lookup env b tk tv keys :
  NoDup keys ->
  forall s k,
    (k ∈ keys ->
     objects (submit_all (fun key => tag_single_object env b key tk tv) keys s).2 !! k
     = objects (tag_single_object env b k tk tv s).2 !! k)
    /\ (k ∉ keys ->
        objects (submit_all (fun key => tag_single_object env b key tk tv) keys s).2 !! k
        = objects s !! k).
Proof.
  induction 1 as [| k0 keys Hnotin Hnodup IH]; intros s k.
  - split; [intros H; inversion H | reflexivity].
  - simpl. unfold bind, submit.
    pose proof (tag_single_object_frame env b k0 tk tv s) as Hframe.
    destruct (tag_single_object env b k0 tk tv s) as [r s1] eqn:Hrun1.
    simpl in Hframe.
    destruct (IH s1 k) as [IHin IHout].
    destruct (submit_all _ keys s1) as [[rs | e] s2]; simpl in *.
    + split.
      * intros Hin. apply elem_of_cons in Hin as [-> | Hin].
        -- rewrite IHout by exact Hnotin. rewrite Hrun1. reflexivity.
        -- rewrite IHin by exact Hin.
           apply tag_single_object_lookup_local, Hframe.
           intros ->. contradiction.
      * intros Hout. rewrite IHout.
        -- apply Hframe. intros ->. apply Hout. left.
        -- intros Hin. apply Hout. right. exact Hin.
    + split.
      * intros Hin. apply elem_of_cons in Hin as [-> | Hin].
        -- rewrite IHout by exact Hnotin. rewrite Hrun1. reflexivity.
        -- rewrite IHin by exact Hin.
           apply tag_single_object_lookup_local, Hframe.
           intros ->. contradiction.
      * intros Hout. rewrite IHout.
        -- apply Hframe. intros ->. apply Hout. left.
        -- intros Hin. apply Hout. right. exact Hin.
Qed.

Section RunEffect.

Context (env : Env).
Context (csv_file_path b p f tk tv : string) (mw bs mlw : Z).

(** The tags of a key after a run that read its table. *)
Lemma run_lookup df s k :
  valid_config mw bs mlw ->
  read_csv env csv_file_path = inr df ->
  has_column df p && has_column df f = true ->
  (k ∈ discovered env (group_rows p f (dropna [p; f] df)) ->
   objects (tag_objects_by_pattern env csv_file_path b p f tk tv mw bs mlw s).2 !! k
   = objects (tag_single_object env b k tk tv s).2 !! k)
  /\ (k ∉ discovered env (group_rows p f (dropna [p; f] df)) ->
      objects (tag_objects_by_pattern env csv_file_path b p f tk tv mw bs mlw s).2 !! k
      = objects s !! k).
Proof.
  intros (Hmw & Hbs & Hmlw) Hread Hcols.
  destruct (elements (discovered env (group_rows p f (dropna [p; f] df))))
    as [| key keys] eqn:Hfound.
  - rewrite (run_no_matches env csv_file_path b p f tk tv mw bs mlw df s
               Hmlw Hread Hcols Hfound).
    split; [| reflexivity]. intros Hin.
    apply elem_of_elements in Hin. rewrite Hfound in Hin. inversion Hin.
  - rewrite (run_unfold env csv_file_path b p f tk tv mw bs mlw df s key keys
               Hmlw Hread Hcols Hfound).
    match goal with
    | |- context [tagging_phase env b tk tv mw bs (key :: keys) ?sd] =>
        set (s_d := sd);
        destruct (tagging_phase_state env b tk tv mw bs (key :: keys) s_d Hmw)
          as [Ho _];
        destruct (tagging_phase_calls env b tk tv mw bs (key :: keys) s_d Hmw Hbs)
          as (rs & c & s2 & cs & Hrun & _)
    end.
    rewrite Hrun in Ho |- *. cbn [snd objects] in *. rewrite Ho.
    assert (Hnd : NoDup (key :: keys)) by (rewrite <- Hfound; apply NoDup_elements).
    destruct (submit_all_lookup env b tk tv (key :: keys) Hnd s_d k) as [Hin Hout].
    split.
    + intros Hk. rewrite Hin by (rewrite <- Hfound; apply elem_of_elements, Hk).
      apply tag_single_object_lookup_local. reflexivity.
    + intros Hk. rewrite Hout; [reflexivity |].
      rewrite <- Hfound. intros Hk'. apply Hk, elem_of_elements, Hk'.
Qed.

End RunEffect.

(** X14: a run changes the tags of every key of the match set as one
    attempt on the bucket it started from would, and the tags of no
    other key: the attempts do not influence one another, so the order
    in which the pool runs them does not show in the bucket. *)
Theorem run_tags_each_match_independently
    env csv_file_path b p f tk tv mw bs mlw df s :
  valid_config mw bs mlw ->
  read_csv env csv_file_path = inr df ->
  has_column df p && has_column df f = true ->
  let matched := discovered env (group_rows p f (dropna [p; f] df)) in
  let s' := (tag_objects_by_pattern env csv_file_path b p f tk tv mw bs mlw s).2 in
  forall key,
    (key ∈ matched ->
     objects s' !! key = objects (tag_single_object env b key tk tv s).2 !! key)
    /\ (key ∉ matched -> objects s' !! key = objects s !! key).
Proof.
  intros Hvalid Hread Hcols matched s' key.
  apply run_lookup; assumption.
Qed.

Lemma run_tags_each_match_independently_witness :
  objects (main scenario_env both_objects).2 !! "TvShows/ShowA/S01/ep01_720p.mp4"
  = Some [mkTag "PERMANENT_DELETE" "CONFIRMED"].
Proof.
  destruct (run_tags_each_match_independently scenario_env
              "delete_data/Videos-Test.csv" "svodvideos" "location_folder"
              "location_file" "PERMANENT_DELETE" "CONFIRMED" 50 100 10
              scenario_table both_objects main_config_valid eq_refl eq_refl
              "TvShows/ShowA/S01/ep01_720p.mp4") as [Hin _].
  unfold main. rewrite Hin; [reflexivity |].
  vm_compute. reflexivity.
Defined.

Lemma submit_all_settled env b tk tv keys :
  forall s,
    (forall k, k ∈ keys ->
       get_tags_answers env k
       /\ forall tags, objects s !! k = Some tags -> has_tag_key tk tags = true) ->
    objects (submit_all (fun key => tag_single_object env b key tk tv) keys s).2
    = objects s
    /\ tag_sets_written
         (calls (submit_all (fun key => tag_single_object env b key tk tv) keys s).2)
       = tag_sets_written (calls s).
Proof.
  induction keys as [| k keys IH]; intros s Hall; [auto |].
  simpl. unfold bind, submit.
  destruct (Hall k) as [Hanswers Htagged]; [left |].
  destruct (tag_single_object_settled env b k tk tv s Hanswers Htagged)
    as [Hsame Hwritten].
  destruct (tag_single_object env b k tk tv s) as [r s1]. simpl in Hsame, Hwritten.
  destruct (IH s1) as [Hsame' Hwritten'].
  { intros k' Hk'. rewrite Hsame. apply Hall. right. exact Hk'. }
  destruct (submit_all _ keys s1) as [[rs | e] s2]; simpl in *;
    split; congruence.
Qed.

Section RunAgain.

Context (env : Env).
Context (csv_file_path b p f tk tv : string) (mw bs mlw : Z).

(** The tags of a key after a run, whatever its input. *)
Lemma run_lookup_any s k :
  valid_config mw bs mlw ->
  (k ∈ match_set env csv_file_path p f ->
   objects (tag_objects_by_pattern env csv_file_path b p f tk tv mw bs mlw s).2 !! k
   = objects (tag_single_object env b k tk tv s).2 !! k)
  /\ (k ∉ match_set env csv_file_path p f ->
      objects (tag_objects_by_pattern env csv_file_path b p f tk tv mw bs mlw s).2 !! k
      = objects s !! k).
Proof.
  intros Hvalid. unfold match_set.
  destruct (read_csv env csv_file_path) as [e | df] eqn:Hread.
  { rewrite (run_unreadable env csv_file_path b p f tk tv mw bs mlw e s Hread).
    split; [intros H; apply elem_of_empty in H; contradiction | reflexivity]. }
  destruct (has_column df p && has_column df f) eqn:Hcols.
  - apply run_lookup; assumption.
  - rewrite (run_missing_column env csv_file_path b p f tk tv mw bs mlw df s
               Hread Hcols).
    split; [intros H; apply elem_of_empty in H; contradiction | reflexivity].
Qed.

(** A run over a bucket in which every matched key is settled changes
    no tag set and writes none. *)
Lemma run_settled s :
  valid_config mw bs mlw ->
  (forall k, k ∈ match_set env csv_file_path p f ->
     get_tags_answers env k
     /\ forall tags, objects s !! k = Some tags -> has_tag_key tk tags = true) ->
  objects (tag_objects_by_pattern env csv_file_path b p f tk tv mw bs mlw s).2
  = objects s
  /\ tag_sets_written
       (calls (tag_objects_by_pattern env csv_file_path b p f tk tv mw bs mlw s).2)
     = tag_sets_written (calls s).
Proof.
  intros (Hmw & Hbs & Hmlw). unfold match_set.
  destruct (read_csv env csv_file_path) as [e | df] eqn:Hread.
  { rewrite (run_unreadable env csv_file_path b p f tk tv mw bs mlw e s Hread). auto. }
  destruct (has_column df p && has_column df f) eqn:Hcols.
  2: { rewrite (run_missing_column env csv_file_path b p f tk tv mw bs mlw df s
                  Hread Hcols). auto. }
  intros Hall.
  destruct (elements (discovered env (group_rows p f (dropna [p; f] df))))
    as [| key keys] eqn:Hfound.
  - rewrite (run_no_matches env csv_file_path b p f tk tv mw bs mlw df s
               Hmlw Hread Hcols Hfound).
    cbn [snd objects calls].
    rewrite tag_sets_written_app, tag_sets_written_listing, app_nil_r. auto.
  - rewrite (run_unfold env csv_file_path b p f tk tv mw bs mlw df s key keys
               Hmlw Hread Hcols Hfound).
    match goal with
    | |- context [tagging_phase env b tk tv mw bs (key :: keys) ?sd] =>
        set (s_d := sd);
        destruct (tagging_phase_state env b tk tv mw bs (key :: keys) s_d Hmw)
          as [Ho Hc];
        destruct (tagging_phase_calls env b tk tv mw bs (key :: keys) s_d Hmw Hbs)
          as (rs & c & s2 & cs & Hrun & _);
        destruct (submit_all_settled env b tk tv (key :: keys) s_d) as [Hsame Hwritten]
    end.
    { intros k Hk. apply Hall, elem_of_elements. rewrite Hfound. exact Hk. }
    rewrite Hrun in Ho, Hc |- *. cbn [snd objects calls] in *.
    rewrite Ho, Hc, Hsame, Hwritten. subst s_d. cbn [objects calls].
    rewrite tag_sets_written_app, tag_sets_written_listing, app_nil_r. auto.
Qed.

End RunAgain.

(** X15: running the script a second time, in an environment of its
    own: when every key the second run matches was matched by the first
    run and tagged with success by its attempt, and no get-tags call of
    the second run on such a key fails with a remote error other than
    not-found, the second run changes no tag set and writes none,
    whatever its listings deliver and whatever else fails. *)
Theorem run_twice_changes_nothing_more
    env1 env2 csv_file_path b p f tk tv mw bs mlw s :
  valid_config mw bs mlw ->
  (forall key,
     key ∈ match_set env2 csv_file_path p f ->
     key ∈ match_set env1 csv_file_path p f
     /\ (exists message,
           (tag_single_object env1 b key tk tv s).1 = Return (key, true, message))
     /\ get_tags_answers env2 key) ->
  let s1 := (tag_objects_by_pattern env1 csv_file_path b p f tk tv mw bs mlw s).2 in
  let s2 := (tag_objects_by_pattern env2 csv_file_path b p f tk tv mw bs mlw s1).2 in
  objects s2 = objects s1
  /\ tag_sets_written (calls s2) = tag_sets_written (calls s1).
Proof.
  intros Hvalid Hall s1 s2. subst s2.
  apply run_settled; [exact Hvalid |].
  intros k Hk. destruct (Hall k Hk) as (Hk1 & (message & Hfirst) & Hanswers).
  split; [exact Hanswers |]. intros tags Htags.
  destruct (run_lookup_any env1 csv_file_path b p f tk tv mw bs mlw s k Hvalid)
    as [Hin _].
  fold s1 in Hin. rewrite (Hin Hk1) in Htags.
  destruct (tag_single_object_success_tagged env1 b k tk tv s k message Hfirst)
    as (tags' & Hobj & Hkey).
  congruence.
Qed.

Lemma run_twice_changes_nothing_more_witness :
  let s1 := (main scenario_env both_objects).2 in
  let s2 := (main second_listing_fails_env s1).2 in
  objects s2 = objects s1
  /\ tag_sets_written (calls s2) = tag_sets_written (calls s1).
Proof.
  apply (run_twice_changes_nothing_more scenario_env second_listing_fails_env
           "delete_data/Videos-Test.csv" "svodvideos" "location_folder"
           "location_file" "PERMANENT_DELETE" "CONFIRMED" 50 100 10 both_objects
           main_config_valid).
  intros key Hkey. apply elem_of_elements in Hkey. vm_compute in Hkey.
  repeat (apply elem_of_cons in Hkey as [-> | Hkey];
          [split; [apply elem_of_elements; vm_compute; first [left | right; left] |];
           split; [eexists; vm_compute; reflexivity |];
           intros code message Hfault; discriminate Hfault |]).
  inversion Hkey.
Defined.

(** X16: when no tagging call on a matched key fails and every matched key
    exists, a second run of the script finds the same objects, reports
    every one of them as already tagged and none as newly tagged or
    failed, and issues no put-tags call. *)
Theorem second_run_reports_already_tagged
    env csv_file_path b p f tk tv mw bs mlw df s :
  valid_config mw bs mlw ->
  read_csv env csv_file_path = inr df ->
  has_column df p && has_column df f = true ->
  let location_groups := group_rows p f (dropna [p; f] df) in
  let found := elements (discovered env location_groups) in
  (forall key, key ∈ found ->
     get_fault env key = None /\ put_fault env key = None
     /\ is_Some (objects s !! key)) ->
  found <> [] ->
  let s1 := (tag_objects_by_pattern env csv_file_path b p f tk tv mw bs mlw s).2 in
  let s2 := (tag_objects_by_pattern env csv_file_path b p f tk tv mw bs mlw s1).2 in
  tag_sets_written (calls s2) = tag_sets_written (calls s1)
  /\ InfoSummary (length (rows (dropna [p; f] df))) (length location_groups)
       (length found) 0 (length found) 0 ∈ log s2.
Proof.
  intros Hvalid Hread Hcols location_groups found Hall Hsome s1 s2.
  subst s2 found location_groups.
  destruct (elements (discovered env (group_rows p f (dropna [p; f] df))))
    as [| key keys] eqn:Hfound; [congruence |].
  destruct Hvalid as (Hmw & Hbs & Hmlw).
  rewrite (run_unfold env csv_file_path b p f tk tv mw bs mlw df s1 key keys
             Hmlw Hread Hcols Hfound).
  match goal with
  | |- context [tagging_phase env b tk tv mw bs (key :: keys) ?sd] =>
      destruct (tagging_phase_already env b tk tv mw bs (key :: keys) sd Hmw Hbs)
        as (s2 & Hrun & _ & Hwritten)
  end.
  { intros k Hk. destruct (Hall k Hk) as (Hg & Hp & Hobj).
    split; [exact Hg |]. cbn [objects].
    destruct (run_lookup env csv_file_path b p f tk tv mw bs mlw df s k
                (conj Hmw (conj Hbs Hmlw)) Hread Hcols) as [Hin _].
    fold s1 in Hin. rewrite Hin.
    - apply tag_single_object_tags; assumption.
    - apply elem_of_elements. rewrite Hfound. exact Hk. }
  rewrite Hrun. cbn [snd calls log successful already_tagged failed]. split.
  - rewrite Hwritten. cbn [calls].
    rewrite tag_sets_written_app, tag_sets_written_listing, app_nil_r. reflexivity.
  - apply elem_of_app. right. left.
Qed.

Lemma second_run_reports_already_tagged_witness :
  InfoSummary 3 2 2 0 2 0
  ∈ log (main scenario_env (main scenario_env both_objects).2).2.
Proof.
  destruct (second_run_reports_already_tagged scenario_env
              "delete_data/Videos-Test.csv" "svodvideos" "location_folder"
              "location_file" "PERMANENT_DELETE" "CONFIRMED" 50 100 10
              scenario_table both_objects main_config_valid eq_refl eq_refl)
    as [_ Hsummary].
  - intros key Hin. vm_compute in Hin.
    split; [reflexivity |]. split; [reflexivity |].
    repeat (apply elem_of_cons in Hin as [-> | Hin]; [vm_compute; eauto |]).
    inversion Hin.
  - vm_compute. discriminate.
  - exact Hsummary.
Defined.
(** * The lifecycle monitor *)

Lemma dict_get_set k k' v d :
  dict_get k (dict_set k' v d) = if String.eqb k' k then Some v else dict_get k d.
Proof.
  induction d as [| [k0 v0] d IH]; simpl.
  - reflexivity.
  - destruct (String.eqb k0 k') eqn:H0; simpl.
    + apply String.eqb_eq in H0 as ->. destruct (String.eqb k' k); reflexivity.
    + rewrite IH. destruct (String.eqb k0 k) eqn:H1; [| reflexivity].
      apply String.eqb_eq in H1 as ->. rewrite String.eqb_sym, H0. reflexivity.
Qed.

(** Looking a key up in the dict of a tag set yields the value of the
    last tag with that key. *)
Lemma dict_get_tags_dict k tag_set :
  dict_get k (tags_dict tag_set) = last_value k tag_set.
Proof.
  unfold tags_dict.
  assert (H : forall d,
            dict_get k (fold_left (fun d tag => dict_set (Key tag) (Value tag) d)
                          tag_set d)
            = match last_value k tag_set with
              | Some v => Some v
              | None => dict_get k d
              end).
  { induction tag_set as [| tag tag_set IH]; intros d; simpl; [reflexivity |].
    rewrite IH, dict_get_set.
    destruct (last_value k tag_set); [reflexivity |].
    destruct (String.eqb (Key tag) k); reflexivity. }
  rewrite H. destruct (last_value k tag_set); reflexivity.
Qed.

Lemma check_object_spec menv b obj acc st :
  let o := objects (s3_state st) in
  check_object menv b obj acc st
  = (acc ++ (if scheduled (s3_env menv) o obj
             then [entry_of o obj (datetime_now menv (clock_reads st))] else []),
     mkMonitorState
       (mkState o (calls (s3_state st) ++ [GetObjectTagging b (obj_Key obj)])
          (log (s3_state st)))
       (if scheduled (s3_env menv) o obj then S (clock_reads st) else clock_reads st)
       (monitor_log st ++ object_warning (s3_env menv) o obj)).
Proof.
  unfold check_object, get_object_tagging, bind, issue, scheduled, object_warning,
    add_days, entry_of, marked, deletion_date_exists.
  simpl.
  destruct (get_fault (s3_env menv) (obj_Key obj)) as [e |]; simpl.
  { rewrite app_nil_r. reflexivity. }
  destruct (objects (s3_state st) !! obj_Key obj) as [tag_set |]; simpl.
  2: { rewrite app_nil_r. reflexivity. }
  rewrite dict_get_tags_dict.
  destruct (match last_value "TO_BE_DELETED" tag_set with
            | Some v => String.eqb v "true"
            | None => false
            end); simpl.
  2: { rewrite !app_nil_r. reflexivity. }
  destruct (Z.ltb_spec (obj_LastModified obj + 2 * day_us) 0),
    (Z.ltb_spec datetime_max (obj_LastModified obj + 2 * day_us)),
    (Z.leb_spec (obj_LastModified obj + 2 * day_us) datetime_max),
    (Z.leb_spec 0 (obj_LastModified obj + 2 * day_us));
    try (exfalso; lia); simpl; rewrite ?app_nil_r; reflexivity.
Qed.

Lemma check_objects_spec menv b objs :
  forall acc st,
    let o := objects (s3_state st) in
    check_objects menv b objs acc st
    = (acc ++ entries_of (s3_env menv) o (datetime_now menv) (clock_reads st) objs,
       mkMonitorState
         (mkState o
            (calls (s3_state st)
             ++ map (fun obj => GetObjectTagging b (obj_Key obj)) objs)
            (log (s3_state st)))
         (clock_reads st
          + length (entries_of (s3_env menv) o (datetime_now menv) (clock_reads st) objs))
         (monitor_log st ++ concat (map (object_warning (s3_env menv) o) objs))).
Proof.
  induction objs as [| obj objs IH]; intros acc st; simpl.
  - rewrite !app_nil_r, Nat.add_0_r. destruct st as [[o cs l] n ml]. reflexivity.
  - rewrite check_object_spec, IH. simpl.
    destruct (scheduled (s3_env menv) (objects (s3_state st)) obj); simpl;
      rewrite <- ?app_assoc; simpl; try reflexivity.
    rewrite Nat.add_succ_r. reflexivity.
Qed.

Lemma entries_of_app env o clock objs1 objs2 :
  forall n,
    entries_of env o clock n (objs1 ++ objs2)
    = entries_of env o clock n objs1
      ++ entries_of env o clock (n + length (entries_of env o clock n objs1)) objs2.
Proof.
  induction objs1 as [| obj objs1 IH]; intros n; simpl.
  - rewrite Nat.add_0_r. reflexivity.
  - destruct (scheduled env o obj); simpl; rewrite IH; [| reflexivity].
    rewrite Nat.add_succ_r. reflexivity.
Qed.

Lemma check_pages_spec menv b pages :
  forall acc st,
    let o := objects (s3_state st) in
    let listed := objects_before_failure pages in
    check_pages menv b pages acc st
    = (acc ++ entries_of (s3_env menv) o (datetime_now menv) (clock_reads st) listed,
       mkMonitorState
         (mkState o
            (calls (s3_state st)
             ++ map (fun obj => GetObjectTagging b (obj_Key obj)) listed)
            (log (s3_state st)))
         (clock_reads st
          + length (entries_of (s3_env menv) o (datetime_now menv) (clock_reads st)
                      listed))
         (monitor_log st
          ++ concat (map (object_warning (s3_env menv) o) listed)
          ++ match listing_failure pages with
             | Some e => [ErrorListingObjects e]
             | None => []
             end)).
Proof.
  induction pages as [| [Contents | e] pages IH]; intros acc st; simpl.
  - rewrite !app_nil_r, Nat.add_0_r. destruct st as [[o cs l] n ml]. reflexivity.
  - rewrite check_objects_spec, IH. simpl.
    rewrite entries_of_app, !map_app, concat_app, length_app.
    rewrite <- !app_assoc, Nat.add_assoc. reflexivity.
  - rewrite !app_nil_r, Nat.add_0_r. destruct st as [[o cs l] n ml]. reflexivity.
Qed.

(** The closed form of [get_objects_to_be_deleted]. *)
Lemma get_objects_to_be_deleted_spec menv b st :
  let o := objects (s3_state st) in
  let listed := objects_before_failure (bucket_pages menv) in
  get_objects_to_be_deleted menv b st
  = (entries_of (s3_env menv) o (datetime_now menv) (clock_reads st) listed,
     mkMonitorState
       (mkState o
          (calls (s3_state st)
           ++ ListObjectsV2 b ""
              :: map (fun obj => GetObjectTagging b (obj_Key obj)) listed)
          (log (s3_state st)))
       (clock_reads st
        + length (entries_of (s3_env menv) o (datetime_now menv) (clock_reads st)
                    listed))
       (monitor_log st
        ++ concat (map (object_warning (s3_env menv) o) listed)
        ++ match listing_failure (bucket_pages menv) with
           | Some e => [ErrorListingObjects e]
           | None => []
           end)).
Proof.
  unfold get_objects_to_be_deleted. rewrite check_pages_spec. simpl.
  rewrite <- app_assoc. reflexivity.
Qed.

Lemma entries_of_keys env o clock objs :
  forall n,
    map entry_Key (entries_of env o clock n objs)
    = map obj_Key (List.filter (scheduled env o) objs).
Proof.
  induction objs as [| obj objs IH]; intros n; simpl; [reflexivity |].
  destruct (scheduled env o obj); simpl; rewrite IH; reflexivity.
Qed.

Lemma entries_of_elem env o clock objs entry :
  forall n,
    entry ∈ entries_of env o clock n objs ->
    exists obj i,
      obj ∈ objs /\ scheduled env o obj = true
      /\ (n <= i < n + length (entries_of env o clock n objs))%nat
      /\ entry = entry_of o obj (clock i).
Proof.
  induction objs as [| obj objs IH]; intros n; simpl; [intros H; inversion H |].
  destruct (scheduled env o obj) eqn:Hs; simpl.
  - intros Hin. apply elem_of_cons in Hin as [-> | Hin].
    + exists obj, n. split; [left |]. split; [exact Hs |]. split; [lia | reflexivity].
    + destruct (IH (S n) Hin) as (obj' & i & Hobj & Hs' & Hi & ->).
      exists obj', i. split; [right; exact Hobj |]. split; [exact Hs' |].
      split; [lia | reflexivity].
  - intros Hin. destruct (IH n Hin) as (obj' & i & Hobj & Hs' & Hi & ->).
    exists obj', i. split; [right; exact Hobj |]. auto.
Qed.

(** X17: the monitor only reads.  It lists the bucket once and fetches the
    tags of every object the listing delivers, one call per object in
    listing order; it writes no tag set and changes none.  Every object
    whose get-tags call fails is logged with a warning and skipped, and
    a listing that fails is logged as an error after the objects of the
    pages received were examined. *)
Theorem get_objects_to_be_deleted_only_reads menv bucket_name st :
  let (objects_to_delete, st') := get_objects_to_be_deleted menv bucket_name st in
  let listed := objects_before_failure (bucket_pages menv) in
  objects (s3_state st') = objects (s3_state st)
  /\ calls (s3_state st')
     = calls (s3_state st)
       ++ ListObjectsV2 bucket_name ""
          :: map (fun obj => GetObjectTagging bucket_name (obj_Key obj)) listed
  /\ tag_sets_written (calls (s3_state st')) = tag_sets_written (calls (s3_state st))
  /\ (forall obj e,
        obj ∈ listed -> get_fault (s3_env menv) (obj_Key obj) = Some e ->
        WarningCouldNotGetTags (obj_Key obj) e ∈ monitor_log st'
        /\ obj_Key obj ∉ map entry_Key objects_to_delete)
  /\ (forall e,
        listing_failure (bucket_pages menv) = Some e ->
        ErrorListingObjects e ∈ monitor_log st').
Proof.
  rewrite get_objects_to_be_deleted_spec. cbv zeta. cbn [s3_state objects calls monitor_log].
  split; [reflexivity |]. split; [reflexivity |]. split; [| split].
  - rewrite tag_sets_written_app. simpl.
    replace (tag_sets_written (map _ _)) with (@nil (string * list Tag));
      [apply app_nil_r |].
    induction (objects_before_failure (bucket_pages menv)); simpl; auto.
  - intros obj e Hobj Hfault. split.
    + rewrite !elem_of_app. right. left.
      apply list_elem_of_In, in_concat.
      exists (object_warning (s3_env menv) (objects (s3_state st)) obj). split.
      * apply in_map, list_elem_of_In, Hobj.
      * unfold object_warning. rewrite Hfault. left. reflexivity.
    + rewrite entries_of_keys. intros Hin.
      apply list_elem_of_fmap in Hin as (obj' & Hkey & Hin).
      apply list_elem_of_In, filter_In in Hin as [_ Hs].
      unfold scheduled in Hs. rewrite <- Hkey, Hfault in Hs. discriminate Hs.
  - intros e ->. rewrite !elem_of_app. right. right. left.
Qed.

(** X18: what the monitor reports: in listing order, the objects whose tag
    set was fetched and holds [TO_BE_DELETED = true] (the last such tag
    deciding), with the key, size and date of the listing, a deletion
    date two days after the last modification and a number of days
    that is the whole days, rounded down, from a clock reading of its
    own to that date. *)
Theorem get_objects_to_be_deleted_reports_marked_objects menv bucket_name st :
  let (objects_to_delete, st') := get_objects_to_be_deleted menv bucket_name st in
  let listed := objects_before_failure (bucket_pages menv) in
  map entry_Key objects_to_delete
  = map obj_Key
      (List.filter (scheduled (s3_env menv) (objects (s3_state st))) listed)
  /\ clock_reads st' = (clock_reads st + length objects_to_delete)%nat
  /\ forall entry,
       entry ∈ objects_to_delete ->
       DeletionDate entry = (entry_LastModified entry + 2 * day_us)%Z
       /\ (DeletionDate entry <= datetime_max)%Z
       /\ dict_get "TO_BE_DELETED" (Tags entry) = Some "true"
       /\ (exists i,
             (clock_reads st <= i < clock_reads st')%nat
             /\ DaysUntilDeletion entry
                = days_between (DeletionDate entry) (datetime_now menv i))
       /\ exists obj tag_set,
            obj ∈ listed
            /\ get_fault (s3_env menv) (obj_Key obj) = None
            /\ objects (s3_state st) !! obj_Key obj = Some tag_set
            /\ entry_Key entry = obj_Key obj
            /\ entry_Size entry = obj_Size obj
            /\ entry_LastModified entry = obj_LastModified obj
            /\ Tags entry = tags_dict tag_set.
Proof.
  rewrite get_objects_to_be_deleted_spec. cbv zeta. cbn [clock_reads].
  split; [apply entries_of_keys |]. split; [reflexivity |].
  intros entry Hin.
  apply entries_of_elem in Hin as (obj & i & Hobj & Hs & Hi & ->).
  unfold scheduled in Hs.
  destruct (get_fault (s3_env menv) (obj_Key obj)) eqn:Hfault; [discriminate Hs |].
  destruct (objects (s3_state st) !! obj_Key obj) as [tag_set |] eqn:Hlookup;
    [| discriminate Hs].
  apply andb_true_iff in Hs as [Hmarked Hrange].
  unfold deletion_date_exists in Hrange. apply andb_true_iff in Hrange as [_ Hmax].
  apply Z.leb_le in Hmax.
  unfold entry_of. cbn [DeletionDate entry_LastModified Tags DaysUntilDeletion
                        entry_Key entry_Size].
  rewrite Hlookup. cbn [default from_option id].
  split; [reflexivity |]. split; [exact Hmax |]. split.
  - rewrite dict_get_tags_dict. unfold marked in Hmarked.
    destruct (last_value "TO_BE_DELETED" tag_set) as [v |]; [| discriminate Hmarked].
    apply String.eqb_eq in Hmarked as ->. reflexivity.
  - split; [exists i; auto |]. exists obj, tag_set. auto 10.
Qed.

(** * The tagger and the monitor *)

(** The tag set of its key after an attempt: as before, or extended by
    the target entry, or that entry alone. *)
Lemma tag_single_object_tags_cases env b k tk tv s :
  objects (tag_single_object env b k tk tv s).2 !! k = objects s !! k
  \/ (exists tag_set,
        objects s !! k = Some tag_set
        /\ objects (tag_single_object env b k tk tv s).2 !! k
           = Some (tag_set ++ [mkTag tk tv]))
  \/ objects (tag_single_object env b k tk tv s).2 !! k = Some [mkTag tk tv].
Proof.
  tso_cases env k s; rewrite ?lookup_insert_eq; eauto.
Qed.

Lemma last_value_app k tag_set tag :
  last_value k (tag_set ++ [tag])
  = if String.eqb (Key tag) k then Some (Value tag) else last_value k tag_set.
Proof.
  induction tag_set as [| t tag_set IH]; simpl.
  - reflexivity.
  - rewrite IH. destruct (String.eqb (Key tag) k); reflexivity.
Qed.

(** The tags of a key after a run, whatever the input. *)
Lemma run_tags_cases env csv_file_path b p f tk tv mw bs mlw s k :
  valid_config mw bs mlw ->
  let s' := (tag_objects_by_pattern env csv_file_path b p f tk tv mw bs mlw s).2 in
  objects s' !! k = objects s !! k
  \/ (exists tag_set,
        objects s !! k = Some tag_set
        /\ objects s' !! k = Some (tag_set ++ [mkTag tk tv]))
  \/ objects s' !! k = Some [mkTag tk tv].
Proof.
  intros Hvalid s'. subst s'.
  destruct (read_csv env csv_file_path) as [e | df] eqn:Hread.
  { rewrite (run_unreadable env csv_file_path b p f tk tv mw bs mlw e s Hread).
    left. reflexivity. }
  destruct (has_column df p && has_column df f) eqn:Hcols.
  2: { rewrite (run_missing_column env csv_file_path b p f tk tv mw bs mlw df s
                  Hread Hcols).
       left. reflexivity. }
  destruct (run_lookup env csv_file_path b p f tk tv mw bs mlw df s k
              Hvalid Hread Hcols) as [Hin Hout].
  destruct (decide (k ∈ discovered env (group_rows p f (dropna [p; f] df))))
    as [Hk | Hk].
  - rewrite (Hin Hk). apply tag_single_object_tags_cases.
  - left. exact (Hout Hk).
Qed.

(** X19: the monitor does not look for the tag the tagger writes.  Whatever
    the tagger's input and faults, as long as its tag key is not
    [TO_BE_DELETED] (the script's is [PERMANENT_DELETE]), a run of the
    tagger adds no object to the monitor's report: every key the monitor
    reports after the run it reported before it. *)
Theorem tagging_adds_nothing_to_the_report
    env csv_file_path b p f tk tv mw bs mlw s menv bucket_name n monitor_log0 :
  valid_config mw bs mlw ->
  tk <> "TO_BE_DELETED" ->
  let s' := (tag_objects_by_pattern env csv_file_path b p f tk tv mw bs mlw s).2 in
  let before :=
    (get_objects_to_be_deleted menv bucket_name (mkMonitorState s n monitor_log0)).1 in
  let after :=
    (get_objects_to_be_deleted menv bucket_name (mkMonitorState s' n monitor_log0)).1 in
  forall key, key ∈ map entry_Key after -> key ∈ map entry_Key before.
Proof.
  intros Hvalid Htk s' before after key. subst before after.
  rewrite !get_objects_to_be_deleted_spec. cbv zeta. cbn [fst s3_state clock_reads].
  rewrite !entries_of_keys. intros Hin.
  apply list_elem_of_fmap in Hin as (obj & -> & Hin).
  apply list_elem_of_In, filter_In in Hin as [Hobj Hs].
  apply list_elem_of_fmap. exists obj. split; [reflexivity |].
  apply list_elem_of_In, filter_In. split; [exact Hobj |].
  unfold scheduled in Hs |- *.
  destruct (get_fault (s3_env menv) (obj_Key obj)); [discriminate Hs |].
  destruct (run_tags_cases env csv_file_path b p f tk tv mw bs mlw s (obj_Key obj)
              Hvalid) as [Heq | [(tag_set & Hold & Hnew) | Hnew]]; fold s' in Hs.
  - fold s' in Heq. rewrite <- Heq. exact Hs.
  - fold s' in Hnew. rewrite Hnew in Hs. rewrite Hold. unfold marked in Hs |- *.
    rewrite last_value_app in Hs. cbn [Key] in Hs.
    apply String.eqb_neq in Htk. rewrite Htk in Hs. exact Hs.
  - fold s' in Hnew. rewrite Hnew in Hs. unfold marked in Hs. simpl in Hs.
    apply String.eqb_neq in Htk. rewrite Htk in Hs. discriminate Hs.
Qed.

Lemma tagging_adds_nothing_to_the_report_witness :
  (get_objects_to_be_deleted
     {| s3_env := quiet_env;
        bucket_pages :=
          [BucketPage (Some [{| obj_Key := "TvShows/ShowA/S01/ep01_1080p.mp4";
                                obj_Size := 1048576;
                                obj_LastModified := 63900000000000000 |}])];
        datetime_now := fun _ => 63900000000000000%Z |}
     "svodvideos"
     (mkMonitorState (main scenario_env both_objects).2 0 [])).1
  = [].
Proof.
  pose proof (tagging_adds_nothing_to_the_report scenario_env
                "delete_data/Videos-Test.csv" "svodvideos" "location_folder"
                "location_file" "PERMANENT_DELETE" "CONFIRMED" 50 100 10 both_objects
                {| s3_env := quiet_env;
                   bucket_pages :=
                     [BucketPage (Some [{| obj_Key := "TvShows/ShowA/S01/ep01_1080p.mp4";
                                           obj_Size := 1048576;
                                           obj_LastModified := 63900000000000000 |}])];
                   datetime_now := fun _ => 63900000000000000%Z |}
                "svodvideos" 0%nat [] main_config_valid ltac:(discriminate)) as H.
  cbv zeta in H. fold (main scenario_env) in H.
  destruct ((get_objects_to_be_deleted _ "svodvideos"
               (mkMonitorState (main scenario_env both_objects).2 0 [])).1)
    as [| entry entries]; [reflexivity |].
  exfalso. specialize (H (entry_Key entry) ltac:(left)).
  vm_compute in H. inversion H.
Defined.

(** * The deletion schedule and the alert *)

Lemma schedule_get_append days obj schedule day :
  schedule_get day (schedule_append days obj schedule)
  = if (days =? day)%Z then Some (default [] (schedule_get day schedule) ++ [obj])
    else schedule_get day schedule.
Proof.
  induction schedule as [| [d objs] schedule IH]; simpl.
  - destruct (days =? day)%Z; reflexivity.
  - destruct (d =? days)%Z eqn:Hd; simpl.
    + apply Z.eqb_eq in Hd as ->. destruct (days =? day)%Z; reflexivity.
    + destruct (d =? day)%Z eqn:Hday; simpl.
      * apply Z.eqb_eq in Hday as ->. rewrite Z.eqb_sym, Hd. reflexivity.
      * exact IH.
Qed.

Lemma schedule_append_days days obj schedule day :
  day ∈ map fst (schedule_append days obj schedule)
  <-> day = days \/ day ∈ map fst schedule.
Proof.
  induction schedule as [| [d objs] schedule IH]; simpl.
  - rewrite list_elem_of_singleton, elem_of_nil. tauto.
  - destruct (d =? days)%Z eqn:Hd; simpl.
    + apply Z.eqb_eq in Hd as ->. rewrite !elem_of_cons. tauto.
    + rewrite !elem_of_cons, IH. tauto.
Qed.

Lemma schedule_append_NoDup days obj schedule :
  NoDup (map fst schedule) -> NoDup (map fst (schedule_append days obj schedule)).
Proof.
  induction schedule as [| [d objs] schedule IH]; simpl; intros Hnd.
  - apply NoDup_singleton.
  - apply NoDup_cons in Hnd as [Hnotin Hnd].
    destruct (d =? days)%Z eqn:Hd; simpl.
    + apply NoDup_cons. auto.
    + apply NoDup_cons. split; [| apply IH, Hnd].
      rewrite schedule_append_days. intros [-> | Hin]; [| contradiction].
      rewrite Z.eqb_refl in Hd. discriminate Hd.
Qed.

Lemma schedule_get_elem day objs schedule :
  NoDup (map fst schedule) ->
  (day, objs) ∈ schedule <-> schedule_get day schedule = Some objs.
Proof.
  induction schedule as [| [d objs'] schedule IH]; simpl; intros Hnd.
  - rewrite elem_of_nil. split; [tauto | discriminate].
  - apply NoDup_cons in Hnd as [Hnotin Hnd]. rewrite elem_of_cons, (IH Hnd).
    destruct (d =? day)%Z eqn:Hd.
    + apply Z.eqb_eq in Hd as ->. split.
      * intros [Heq | Hget]; [congruence |]. exfalso. apply Hnotin.
        apply IH in Hget; [| exact Hnd].
        apply list_elem_of_fmap. exists (day, objs). auto.
      * intros Heq. left. congruence.
    + apply Z.eqb_neq in Hd. split.
      * intros [Heq | Hget]; [congruence | exact Hget].
      * auto.
Qed.

Section Schedule.

Context (day_of : DeletionEntry -> Z).

Lemma fold_schedule_get objs day :
  forall schedule,
    schedule_get day
      (fold_left (fun schedule obj => schedule_append (day_of obj) obj schedule)
         objs schedule)
    = match List.filter (fun obj => (day_of obj =? day)%Z) objs with
      | [] => schedule_get day schedule
      | group => Some (default [] (schedule_get day schedule) ++ group)
      end.
Proof.
  induction objs as [| obj objs IH]; intros schedule; simpl; [reflexivity |].
  rewrite IH, schedule_get_append.
  destruct (day_of obj =? day)%Z; simpl.
  - destruct (List.filter _ objs); simpl; [reflexivity |].
    rewrite <- app_assoc. reflexivity.
  - reflexivity.
Qed.

Lemma fold_schedule_NoDup objs :
  forall schedule,
    NoDup (map fst schedule) ->
    NoDup (map fst (fold_left
                      (fun schedule obj => schedule_append (day_of obj) obj schedule)
                      objs schedule)).
Proof.
  induction objs as [| obj objs IH]; intros schedule Hnd; simpl; [exact Hnd |].
  apply IH, schedule_append_NoDup, Hnd.
Qed.

End Schedule.

Lemma filter_none {A} (P : A -> bool) (l : list A) :
  (forall x, P x = false) -> List.filter P l = [].
Proof.
  intros Hall. induction l as [| x l IH]; simpl; [reflexivity |].
  rewrite Hall. exact IH.
Qed.

(** X20: the schedule has one group per day, no day is negative and no group
    is empty: the group of day 0 holds, in report order, the objects
    whose days until deletion are 0 or negative, the group of a later
    day those with exactly that number of days. *)
Theorem deletion_schedule_groups_by_day to_be_deleted :
  let schedule := deletion_schedule to_be_deleted in
  NoDup (map fst schedule)
  /\ forall day group,
       (day, group) ∈ schedule
       <-> (0 <= day)%Z
           /\ group <> []
           /\ group
              = List.filter
                  (fun obj =>
                     if (day =? 0)%Z then (DaysUntilDeletion obj <=? 0)%Z
                     else (DaysUntilDeletion obj =? day)%Z)
                  to_be_deleted.
Proof.
  cbv zeta. unfold deletion_schedule.
  assert (Hnd : NoDup (map fst
                         (fold_left
                            (fun schedule obj =>
                               schedule_append (Z.max 0 (DaysUntilDeletion obj)) obj
                                 schedule)
                            to_be_deleted []))).
  { apply (fold_schedule_NoDup (fun obj => Z.max 0 (DaysUntilDeletion obj))).
    apply NoDup_nil_2. }
  split; [exact Hnd |]. intros day group.
  rewrite (schedule_get_elem _ _ _ Hnd).
  rewrite (fold_schedule_get (fun obj => Z.max 0 (DaysUntilDeletion obj))). simpl.
  destruct (Z.ltb_spec day 0) as [Hneg | Hpos].
  - rewrite filter_none.
    + split; [discriminate | lia].
    + intros obj. apply Z.eqb_neq. lia.
  - rewrite (filter_ext
               (fun obj => (Z.max 0 (DaysUntilDeletion obj) =? day)%Z)
               (fun obj => if (day =? 0)%Z then (DaysUntilDeletion obj <=? 0)%Z
                           else (DaysUntilDeletion obj =? day)%Z)).
    + destruct (List.filter _ to_be_deleted) as [| obj group']; split.
      * discriminate.
      * intros (_ & Hne & Hgroup). contradiction.
      * intros Hget. injection Hget as <-. split; [exact Hpos |].
        split; [discriminate | reflexivity].
      * intros (_ & _ & ->). reflexivity.
    + intros obj. destruct (Z.eqb_spec day 0) as [-> | Hne].
      * destruct (Z.eqb_spec (Z.max 0 (DaysUntilDeletion obj)) 0),
          (Z.leb_spec (DaysUntilDeletion obj) 0); lia.
      * destruct (Z.eqb_spec (Z.max 0 (DaysUntilDeletion obj)) day),
          (Z.eqb_spec (DaysUntilDeletion obj) day); lia.
Qed.

Lemma days_between_today a b :
  (days_between a b <= 0)%Z <-> (a < b + day_us)%Z.
Proof.
  unfold days_between, day_us.
  pose proof (Z.div_mod (a - b) 86400000000 ltac:(lia)) as Hdiv.
  pose proof (Z.mod_pos_bound (a - b) 86400000000 ltac:(lia)) as Hmod.
  lia.
Qed.

(** X21: the number [main] compares with the alert threshold is the size of
    the schedule's group of day 0, the one the report prints as
    [Today]; the alert is sent exactly when that group holds more than
    100 objects.  A reported object is counted when its deletion date
    is less than one day after the clock reading it was compared with,
    or before it. *)
Theorem objects_today_is_the_group_of_day_0 to_be_deleted :
  objects_today to_be_deleted
  = length (default [] (schedule_get 0 (deletion_schedule to_be_deleted)))
  /\ (alert_sent to_be_deleted = true
      <-> (100 < length (default [] (schedule_get 0 (deletion_schedule to_be_deleted))))%nat)
  /\ forall menv bucket_name st entry,
       entry ∈ (get_objects_to_be_deleted menv bucket_name st).1 ->
       exists i,
         (clock_reads st <= i
          < clock_reads (get_objects_to_be_deleted menv bucket_name st).2)%nat
         /\ DaysUntilDeletion entry
            = days_between (DeletionDate entry) (datetime_now menv i)
         /\ ((DaysUntilDeletion entry <= 0)%Z
             <-> (DeletionDate entry < datetime_now menv i + day_us)%Z).
Proof.
  assert (Hcount : objects_today to_be_deleted
                   = length (default []
                               (schedule_get 0 (deletion_schedule to_be_deleted)))).
  { unfold objects_today, deletion_schedule.
    rewrite (fold_schedule_get (fun obj => Z.max 0 (DaysUntilDeletion obj))). simpl.
    rewrite (filter_ext
               (fun obj => (Z.max 0 (DaysUntilDeletion obj) =? 0)%Z)
               (fun obj => (DaysUntilDeletion obj <=? 0)%Z)).
    - destruct (List.filter _ to_be_deleted); reflexivity.
    - intros obj.
      destruct (Z.eqb_spec (Z.max 0 (DaysUntilDeletion obj)) 0),
        (Z.leb_spec (DaysUntilDeletion obj) 0); lia. }
  split; [exact Hcount |]. split.
  - unfold alert_sent, ALERT_THRESHOLD. rewrite <- Hcount. apply Nat.ltb_lt.
  - intros menv bucket_name st entry.
    rewrite get_objects_to_be_deleted_spec. cbv zeta. cbn [fst snd clock_reads].
    intros Hin.
    apply entries_of_elem in Hin as (obj & i & _ & _ & Hi & ->).
    exists i. unfold entry_of. cbn [DaysUntilDeletion DeletionDate].
    split; [exact Hi |]. split; [reflexivity |]. apply days_between_today.
Qed.

(** * The object key of a CloudTrail resource *)

Lemma contains_slash_cons c s :
  contains "/" (String c s) = Ascii.eqb c "/" || contains "/" s.
Proof.
  assert (Hindex : index 0 "/" (String c s)
                   = if ascii_dec "/" c then Some 0%nat
                     else match index 0 "/" s with
                          | Some n => Some (S n)
                          | None => None
                          end).
  { change (index 0 "/" (String c s))
      with (if match ascii_dec "/" c with
               | left _ => String.prefix "" s
               | right _ => false
               end
            then Some 0%nat
            else match index 0 "/" s with
                 | Some n => Some (S n)
                 | None => None
                 end).
    destruct (ascii_dec "/" c); [destruct s |]; reflexivity. }
  unfold contains. rewrite Hindex.
  destruct (ascii_dec "/" c) as [<- | Hne].
  - reflexivity.
  - destruct (Ascii.eqb_spec c "/") as [-> | _]; [contradiction Hne; reflexivity |].
    simpl. destruct (index 0 "/" s); reflexivity.
Qed.

Lemma contains_slash_app a b : contains "/" (a +:+ "/" +:+ b) = true.
Proof.
  induction a as [| c a IH].
  - rewrite append_empty_l, append_String, contains_slash_cons. reflexivity.
  - rewrite append_String, contains_slash_cons, IH. apply orb_true_r.
Qed.

Lemma split_slash_nonempty s : split_slash s <> [].
Proof.
  destruct s as [| c s]; simpl; [discriminate |].
  destruct (Ascii.eqb c "/"); [discriminate |].
  destruct (split_slash s); discriminate.
Qed.

Lemma contains_slash_split s :
  contains "/" s = true -> exists a b, s = a +:+ "/" +:+ b.
Proof.
  induction s as [| c s IH]; [discriminate |].
  rewrite contains_slash_cons. intros H. apply orb_true_iff in H as [H | H].
  - apply Ascii.eqb_eq in H as ->. exists "", s. reflexivity.
  - destruct (IH H) as (a & b & ->). exists (String c a), b. reflexivity.
Qed.

Lemma split_slash_whole s : contains "/" s = false -> split_slash s = [s].
Proof.
  induction s as [| c s IH]; [reflexivity |].
  rewrite contains_slash_cons. intros H. apply orb_false_iff in H as [Hc Hs].
  simpl. rewrite Hc, (IH Hs). reflexivity.
Qed.

Lemma split_slash_single s segment :
  split_slash s = [segment] -> contains "/" s = false.
Proof.
  revert segment. induction s as [| c s IH]; intros segment; [reflexivity |].
  simpl. rewrite contains_slash_cons.
  pose proof (split_slash_nonempty s) as Hne.
  destruct (Ascii.eqb c "/"); simpl.
  - intros H. injection H as _ H. contradiction.
  - destruct (split_slash s) as [| segment' segments]; [contradiction |].
    intros H. injection H as _ ->. apply (IH segment'). reflexivity.
Qed.

(** The last segment of [s.split('/')] holds no slash. *)
Lemma split_slash_last_segment s :
  contains "/" (List.last (split_slash s) "") = false.
Proof.
  induction s as [| c s IH]; [reflexivity |].
  simpl. pose proof (split_slash_nonempty s) as Hne.
  destruct (Ascii.eqb c "/") eqn:Hc.
  - destruct (split_slash s) as [| segment segments]; [contradiction | exact IH].
  - destruct (split_slash s) as [| segment [| segment' segments]];
      [contradiction | | exact IH].
    simpl in *. rewrite contains_slash_cons, Hc. exact IH.
Qed.

(** It follows the last slash of [s], if there is one. *)
Lemma split_slash_after_last_slash s :
  contains "/" s = true ->
  exists directory, s = directory +:+ "/" +:+ List.last (split_slash s) "".
Proof.
  induction s as [| c s IH]; [discriminate |].
  rewrite contains_slash_cons. simpl.
  pose proof (split_slash_nonempty s) as Hne.
  destruct (Ascii.eqb_spec c "/") as [-> | Hc]; simpl.
  - intros _. destruct (contains "/" s) eqn:Hs.
    + destruct (IH eq_refl) as (directory & Hdir).
      exists (String "/" directory). rewrite append_String.
      destruct (split_slash s) as [| segment segments]; [contradiction |].
      rewrite <- Hdir. reflexivity.
    + rewrite (split_slash_whole s Hs). exists "". reflexivity.
  - intros Hs. destruct (IH Hs) as (directory & Hdir).
    exists (String c directory). rewrite append_String.
    destruct (split_slash s) as [| segment [| segment' segments]] eqn:Hsplit;
      [contradiction | |].
    + apply split_slash_single in Hsplit. congruence.
    + cbn [List.last] in Hdir |- *. rewrite <- Hdir. reflexivity.
Qed.

(** X22: the object key recorded for a deletion is the part of the resource
    name after its last slash, or the whole name when it has no slash:
    it never holds a slash itself.  So for an object whose key holds a
    slash, what is recorded is the last segment of the key and not the
    key. *)
Theorem object_key_of_arn_is_the_last_segment object_arn :
  (forall a b, object_key_of_arn object_arn <> a +:+ "/" +:+ b)
  /\ ((forall a b, object_arn <> a +:+ "/" +:+ b) ->
      object_key_of_arn object_arn = object_arn)
  /\ (forall a b,
        object_arn = a +:+ "/" +:+ b ->
        exists directory,
          object_arn = directory +:+ "/" +:+ object_key_of_arn object_arn)
  /\ (forall bucket_name a b,
        object_arn = "arn:aws:s3:::" +:+ bucket_name +:+ "/" +:+ a +:+ "/" +:+ b ->
        object_key_of_arn object_arn <> a +:+ "/" +:+ b).
Proof.
  assert (Hnone : forall a b, object_key_of_arn object_arn <> a +:+ "/" +:+ b).
  { intros a b Heq.
    assert (Hc : contains "/" (object_key_of_arn object_arn) = false).
    { unfold object_key_of_arn.
      destruct (contains "/" object_arn) eqn:Hs; [| exact Hs].
      apply split_slash_last_segment. }
    rewrite Heq, contains_slash_app in Hc. discriminate Hc. }
  split; [exact Hnone |]. split; [| split].
  - intros Hno. unfold object_key_of_arn.
    destruct (contains "/" object_arn) eqn:Hs; [| reflexivity].
    apply contains_slash_split in Hs as (a & b & Hs). contradiction (Hno a b).
  - intros a b Heq. unfold object_key_of_arn.
    assert (Hs : contains "/" object_arn = true)
      by (rewrite Heq; apply contains_slash_app).
    rewrite Hs. apply split_slash_after_last_slash, Hs.
  - intros bucket_name a b _. apply Hnone.
Qed.

(** * The cleanup script *)

Lemma elem_of_no_del_ids ids table v :
  v ∈ no_del_ids ids table
  <-> exists id_, v = Some id_ /\ id_ ∈ ids
                  /\ exists pa, pa ∈ table /\ video_id pa = Some id_.
Proof.
  unfold no_del_ids, video_id__in. rewrite list_elem_of_fmap. split.
  - intros (pa & -> & Hin). apply list_elem_of_In, filter_In in Hin as [Hpa Hid].
    destruct (video_id pa) as [id_ |] eqn:Hv; [| discriminate Hid].
    apply existsb_exists in Hid as (id' & Hid' & Heq).
    apply Z.eqb_eq in Heq as <-.
    exists id_. split; [reflexivity |]. split; [apply list_elem_of_In, Hid' |].
    exists pa. split; [apply list_elem_of_In, Hpa | exact Hv].
  - intros (id_ & -> & Hid & pa & Hpa & Hv). exists pa. split; [auto |].
    apply list_elem_of_In, filter_In. split; [apply list_elem_of_In, Hpa |].
    rewrite Hv. apply existsb_exists. exists id_.
    split; [apply list_elem_of_In, Hid | apply Z.eqb_refl].
Qed.

(** X23: the ids the cleanup script deletes are the ids of the CSV, in their
    order and as often as the CSV holds them, without those of the
    videos that have play activity: no video with a play activity row
    is deleted, and every other id of the CSV is. *)
Theorem safe2del_spares_play_activity ids table :
  (forall id_,
     id_ ∈ safe2del ids table
     <-> id_ ∈ ids /\ forall pa, pa ∈ table -> video_id pa <> Some id_)
  /\ safe2del ids table
     = List.filter
         (fun id_ =>
            negb (existsb
                    (fun pa => match video_id pa with
                               | Some v => (v =? id_)%Z
                               | None => false
                               end) table))
         ids
  /\ (length (safe2del ids table) <= length ids)%nat.
Proof.
  assert (Hmem : forall id_,
            id_ ∈ ids ->
            existsb (fun v => match v with
                              | Some v' => (v' =? id_)%Z
                              | None => false
                              end) (no_del_ids ids table)
            = existsb (fun pa => match video_id pa with
                                 | Some v => (v =? id_)%Z
                                 | None => false
                                 end) table).
  { intros id_ Hid. apply eq_true_iff_eq. rewrite !existsb_exists. split.
    - intros (v & Hv & Heq). destruct v as [v |]; [| discriminate Heq].
      apply Z.eqb_eq in Heq as ->.
      apply list_elem_of_In, elem_of_no_del_ids in Hv
        as (id' & Hid' & _ & pa & Hpa & Hvid).
      injection Hid' as <-. exists pa. split; [apply list_elem_of_In, Hpa |].
      rewrite Hvid. apply Z.eqb_refl.
    - intros (pa & Hpa & Heq).
      destruct (video_id pa) as [v |] eqn:Hv; [| discriminate Heq].
      apply Z.eqb_eq in Heq as ->. exists (Some id_). split; [| apply Z.eqb_refl].
      apply list_elem_of_In, elem_of_no_del_ids. exists id_.
      split; [reflexivity |]. split; [exact Hid |].
      exists pa. split; [apply list_elem_of_In, Hpa | exact Hv]. }
  assert (Heq : safe2del ids table
                = List.filter
                    (fun id_ =>
                       negb (existsb
                               (fun pa => match video_id pa with
                                          | Some v => (v =? id_)%Z
                                          | None => false
                                          end) table))
                    ids).
  { unfold safe2del. revert Hmem. generalize (no_del_ids ids table). intros l Hmem.
    induction ids as [| id_ ids IH]; simpl; [reflexivity |].
    rewrite (Hmem id_) by left.
    rewrite IH; [reflexivity |]. intros id' Hid'. apply Hmem. right. exact Hid'. }
  split; [| split; [exact Heq |]].
  - intros id_. rewrite Heq. rewrite list_elem_of_In, filter_In, <- list_elem_of_In.
    rewrite negb_true_iff. split.
    + intros [Hid Hnone]. split; [exact Hid |]. intros pa Hpa Hv.
      apply not_true_iff_false in Hnone. apply Hnone.
      apply existsb_exists. exists pa. split; [apply list_elem_of_In, Hpa |].
      rewrite Hv. apply Z.eqb_refl.
    + intros [Hid Hnone]. split; [exact Hid |].
      apply not_true_iff_false. intros Hex.
      apply existsb_exists in Hex as (pa & Hpa & Hv).
      destruct (video_id pa) as [v |] eqn:Hvid; [| discriminate Hv].
      apply Z.eqb_eq in Hv as ->. apply (Hnone pa); [apply list_elem_of_In, Hpa |].
      exact Hvid.
  - rewrite Heq. apply filter_length_le.
Qed.
